(** * The request cache policy of [@ember-data/request-utils]

    A shallow embedding of [parseCacheControl], [isExpired] and the
    [CachePolicy] class, and the properties of the specification that are
    stated about them; then of the other exports of the module, the
    subclass [LifetimesService], the URL helpers [setBuildURLConfig] and
    [buildBaseURL] and the query helpers [filterEmpty], [sortQueryParams]
    and [buildQueryParams], with further properties of the code.

    Conventions of the embedding.
    - A JavaScript [number] is a [Js.number]: [NaN], the two infinities, or an
      integer.  Every number the policy handles is a count of seconds or of
      milliseconds, so fractions are left out; integer results are rounded
      to the nearest IEEE-754 double by [Js.toNumber].
    - Strings are [string]; a header string is read one code unit at a time,
      as [charAt] does.
    - A [throw] is the [Throw] result; a failed [assert] throws only in a
      build where assertions are kept (see [assert]).
    - [console.log] under [LOG_CACHE_POLICY] and [deprecate] only report;
      they never change a result or the policy's state and are left out.
    - In the URL and query helpers a string is a sequence of code units
      below 256, an object is the list of its own enumerable properties in
      the order of [for...in], and the numbers among the query parameters
      are a parameter together with their [String(n)]. *)

From Stdlib Require Import ZArith Lia Bool Ascii String List.
From Stdlib Require Import DecimalString DecimalN DecimalPos DecimalFacts.
From stdpp Require Import base gmap strings list sorting.

Open Scope string_scope.
Open Scope Z_scope.

(* ================================================================= *)
(** ** JavaScript numbers, [parseInt] and truthiness *)

Module Js.

Inductive number :=
| NaN
| PInf
| NInf
| Num (z : Z).

(** The Number value for a mathematical integer: the nearest double, ties
    to the even significand, infinite from [2^1024] on. *)
Definition toNumber (z : Z) : number :=
  let a := Z.abs z in
  if a <=? 2 ^ 53 then Num z
  else
    let shift := Z.log2 a - 52 in
    let ulp := 2 ^ shift in
    let q := a / ulp in
    let r := a mod ulp in
    let half := ulp / 2 in
    let q' := if r <? half then q
              else if half <? r then q + 1
              else if Z.even q then q else q + 1 in
    let m := q' * ulp in
    if 2 ^ 1024 <=? m then (if z <? 0 then NInf else PInf)
    else Num (Z.sgn z * m).

Definition neg (a : number) : number :=
  match a with
  | NaN => NaN
  | PInf => NInf
  | NInf => PInf
  | Num z => Num (- z)
  end.

(** [a + b] *)
Definition add (a b : number) : number :=
  match a, b with
  | NaN, _ | _, NaN => NaN
  | PInf, NInf | NInf, PInf => NaN
  | PInf, _ | _, PInf => PInf
  | NInf, _ | _, NInf => NInf
  | Num x, Num y => toNumber (x + y)
  end.

(** [a - b] *)
Definition sub (a b : number) : number := add a (neg b).

Definition sign (a : number) : Z :=
  match a with
  | NaN => 0
  | PInf => 1
  | NInf => -1
  | Num z => Z.sgn z
  end.

(** [a * b] *)
Definition mul (a b : number) : number :=
  match a, b with
  | NaN, _ | _, NaN => NaN
  | Num x, Num y => toNumber (x * y)
  | _, _ =>
      match sign a * sign b with
      | 0 => NaN
      | Zpos _ => PInf
      | Zneg _ => NInf
      end
  end.

(** [a >= b]; every comparison with [NaN] is false. *)
Definition ge (a b : number) : bool :=
  match a, b with
  | NaN, _ | _, NaN => false
  | PInf, _ => true
  | _, NInf => true
  | NInf, _ => false
  | _, PInf => false
  | Num x, Num y => y <=? x
  end.

(** [a < b] *)
Definition lt (a b : number) : bool :=
  match a, b with
  | NaN, _ | _, NaN => false
  | _, NInf => false
  | NInf, _ => true
  | PInf, _ => false
  | _, PInf => true
  | Num x, Num y => x <? y
  end.

Definition isNaN (a : number) : bool :=
  match a with NaN => true | _ => false end.

(** ToBoolean on a number: [0] and [NaN] are falsy. *)
Definition truthy (a : number) : bool :=
  match a with
  | NaN => false
  | Num 0 => false
  | _ => true
  end.

(** ToBoolean on a string or [null]: absent and empty are falsy. *)
Definition truthy_str (s : option string) : bool :=
  match s with
  | None => false
  | Some EmptyString => false
  | Some _ => true
  end.

(** White space that [parseInt] skips at the start of its input (the code
    units below 256 of StrWhiteSpaceChar). *)
Definition isStrWhiteSpaceChar (c : ascii) : bool :=
  let n := Z.of_N (N_of_ascii c) in
  (n =? 9) || (n =? 10) || (n =? 11) || (n =? 12) || (n =? 13)
  || (n =? 32) || (n =? 160).

Fixpoint trimStart (s : string) : string :=
  match s with
  | String c t => if isStrWhiteSpaceChar c then trimStart t else s
  | EmptyString => s
  end.

(** The value of a code unit as a digit: [0-9], then [a-z] or [A-Z] for
    ten to thirty-five. *)
Definition digitValue (c : ascii) : option Z :=
  let n := Z.of_N (N_of_ascii c) in
  if (48 <=? n) && (n <=? 57) then Some (n - 48)
  else if (97 <=? n) && (n <=? 122) then Some (n - 87)
  else if (65 <=? n) && (n <=? 90) then Some (n - 55)
  else None.

(** The longest prefix of radix-[R] digits, read as an integer; [None]
    when that prefix is empty. *)
Fixpoint digits (R : Z) (s : string) (acc : option Z) : option Z :=
  match s with
  | EmptyString => acc
  | String c t =>
      match digitValue c with
      | Some d =>
          if d <? R
          then digits R t (Some (match acc with
                                 | None => d
                                 | Some a => a * R + d
                                 end))
          else acc
      | None => acc
      end
  end.

Definition hasHexPrefix (s : string) : bool :=
  match s with
  | String "0" (String "x" _) => true
  | String "0" (String "X" _) => true
  | _ => false
  end.

Definition dropPrefix2 (s : string) : string :=
  match s with
  | String _ (String _ t) => t
  | _ => s
  end.

(** The sign that a leading [-] or [+] gives, and what follows it. *)
Definition splitSign (s : string) : Z * string :=
  match s with
  | String "-" t => (-1, t)
  | String "+" t => (1, t)
  | _ => (1, s)
  end.

(** [parseInt(string, radix)]; [radix = 0] stands for a radix that is
    [undefined].  A prefix of more than twenty digits is rounded
    correctly. *)
Definition parseInt (str : string) (radix : Z) : number :=
  let '(sgn, inputS) := splitSign (trimStart str) in
  if negb (radix =? 0) && ((radix <? 2) || (36 <? radix)) then NaN
  else
    let stripPrefix := (radix =? 0) || (radix =? 16) in
    let R := if radix =? 0 then 10 else radix in
    let '(R, inputS) :=
      if stripPrefix && hasHexPrefix inputS
      then (16, dropPrefix2 inputS) else (R, inputS) in
    match digits R inputS None with
    | None => NaN
    | Some mathInt => toNumber (sgn * mathInt)
    end.

End Js.

(* ================================================================= *)
(** ** Exceptions *)

Inductive error :=
| AssertionError (message : string)
| TypeError (message : string).

Inductive result (A : Type) :=
| Ok (a : A)
| Throw (e : error).
Arguments Ok {A} a.
Arguments Throw {A} e.

Definition rbind {A B} (m : result A) (k : A -> result B) : result B :=
  match m with
  | Ok a => k a
  | Throw e => Throw e
  end.

Declare Scope result_scope.
Delimit Scope result_scope with result.
Notation "x <- m ;; k" := (rbind m (fun x => k))
  (at level 100, m at next level, right associativity) : result_scope.
Notation "m ;; k" := (rbind m (fun _ => k))
  (at level 100, right associativity) : result_scope.

Definition is_Ok {A} (r : result A) : Prop := exists a, r = Ok a.
Definition is_Throw {A} (r : result A) : Prop := exists e, r = Throw e.

(* ================================================================= *)
(** ** Values of a parsed [Cache-Control] header *)

(** A field of a [CacheControlValue] is [true] or a number. *)
Inductive CacheControlField :=
| CTrue
| CNum (n : Js.number).

Abbreviation CacheControlValue := (gmap string CacheControlField) (only parsing).

(** ToBoolean and ToNumber on an optional field ([undefined] when absent). *)
Definition field_truthy (f : option CacheControlField) : bool :=
  match f with
  | None => false
  | Some CTrue => true
  | Some (CNum n) => Js.truthy n
  end.

Definition field_toNumber (f : option CacheControlField) : Js.number :=
  match f with
  | None => Js.NaN
  | Some CTrue => Js.Num 1
  | Some (CNum n) => n
  end.

(** [a || b] on two optional fields. *)
Definition field_or (a b : option CacheControlField) : option CacheControlField :=
  if field_truthy a then a else b.

Definition NUMERIC_KEYS : gset string :=
  {[ "max-age"; "s-maxage"; "stale-if-error"; "stale-while-revalidate" ]}.

Definition NUMERIC_KEYS_has (key : string) : bool :=
  bool_decide (key ∈ NUMERIC_KEYS).

(** The locals of the parsing loop. *)
Record ParseState := {
  key : string;
  value : string;
  isParsingKey : bool;
  cacheControlValue : gmap string CacheControlField;
}.

Definition push (s : string) (c : ascii) : string := s ++ String c "".

Definition is_comma (c : ascii) : bool := Ascii.eqb c ","%char.
Definition is_equals (c : ascii) : bool := Ascii.eqb c "="%char.
(** [char === ' ' || char === `\t` || char === `\n`] *)
Definition is_blank (c : ascii) : bool :=
  Ascii.eqb c " "%char || Ascii.eqb c "009"%char || Ascii.eqb c "010"%char.

(* ================================================================= *)
(** ** The LRU cache in front of the parser *)

(** Modelled from the spec: the class [LRUCache] of
    [./-private/string/transform.ts] is not among the sources.  The
    specification describes it as a bounded, recency-ordered cache that
    memoizes the parse per distinct raw header string: [get] answers from
    the cache and makes the entry the most recent, or else does the work,
    evicts the oldest entry when the cache is full, and stores the result.
    Entries are kept oldest first. *)
Module LRUCache.

Record t (V : Type) := {
  size : nat;
  state : list (string * V);
}.
Arguments size {V} _.
Arguments state {V} _.

Definition new {V} (size : nat) : t V := {| size := size; state := [] |}.

Fixpoint lookup {V} (k : string) (l : list (string * V)) : option V :=
  match l with
  | [] => None
  | (k', v) :: l' => if String.eqb k k' then Some v else lookup k l'
  end.

Fixpoint remove {V} (k : string) (l : list (string * V)) : list (string * V) :=
  match l with
  | [] => []
  | (k', v) :: l' =>
      if String.eqb k k' then remove k l' else (k', v) :: remove k l'
  end.

(** Modelled from the spec: [LRUCache.set], which is not among the sources;
    a full cache gives up its oldest entry. *)
Definition set {V} (k : string) (v : V) (c : t V) : t V :=
  let kept :=
    if Nat.eqb (length (state c)) (size c) then tl (state c) else state c in
  {| size := size c; state := remove k kept ++ [(k, v)] |}.

(** Modelled from the spec: [LRUCache.get], which is not among the sources;
    "memoizes parses per distinct raw header string in a bounded (200-entry)
    recency-ordered cache". *)
Definition get {V} (doWork : string -> result V) (k : string) (c : t V)
  : result V * t V :=
  match lookup k (state c) with
  | Some v =>
      (Ok v, {| size := size c; state := remove k (state c) ++ [(k, v)] |})
  | None =>
      match doWork k with
      | Ok v => (Ok v, set k v c)
      | Throw e => (Throw e, c)
      end
  end.

(** Every entry holds what [doWork] returns for its key. *)
Definition coherent {V} (doWork : string -> result V) (c : t V) : Prop :=
  Forall (fun kv => doWork (fst kv) = Ok (snd kv)) (state c).

End LRUCache.

(* ================================================================= *)
(** ** Documents, headers, configuration, requests *)

(** Header names are matched without regard to case; a [Headers] object is
    the map from lower-cased names to values. *)
Definition lower_ascii (c : ascii) : ascii :=
  let n := N_of_ascii c in
  if ((65 <=? n) && (n <=? 90))%N then ascii_of_N (n + 32) else c.

Fixpoint lower (s : string) : string :=
  match s with
  | EmptyString => EmptyString
  | String c t => String (lower_ascii c) (lower t)
  end.

Abbreviation Headers := (gmap string string) (only parsing).

Definition Headers_get (headers : gmap string string) (name : string)
  : option string :=
  headers !! lower name.

Record ResponseInfo := {
  headers : option (gmap string string);
  status : Z;
}.

(** A [StructuredDocument], as far as the policy reads it. *)
Record StructuredDocument := {
  response : option ResponseInfo;
}.

Abbreviation StableDocumentIdentifier := string (only parsing).

Record HeaderConstraints := {
  constraint_Cache_Control : bool;
  constraint_Expires : bool;
  constraint_X_WarpDrive_Expires : bool;
}.

Record Constraints := {
  constraints_headers : option HeaderConstraints;
  constraints_isExpired : option (StructuredDocument -> option bool);
}.

Record PolicyConfig := {
  apiCacheSoftExpires : Js.number;
  apiCacheHardExpires : Js.number;
  disableTestOptimization : bool;
  constraints : option Constraints;
}.

Record CacheOptions := {
  cacheOptions_types : option (list string);
}.

Record ResourceRef := {
  ref_type : string;
}.

(** An [ImmutableRequestInfo], as far as [didRequest] reads it. *)
Record RequestInfo := {
  op : option string;
  records : option (list ResourceRef);
  cacheOptions : option CacheOptions;
}.

(** The store passed to the policy: its identity as a key of the policy's
    [WeakMap], and [cache.peekRequest]. *)
Record Store := {
  store_ref : positive;
  peekRequest : string -> option StructuredDocument;
}.

(** The per-store record kept by the policy.  A per-type [Set] is iterated
    by [forEach], so it keeps its insertion order; the invalidated [Set] is
    only added to, deleted from and tested. *)
Record StoreCache := {
  invalidated : gset string;
  types : gmap string (list string);
}.

Definition Set_add (x : string) (s : list string) : list string :=
  if bool_decide (x ∈ s) then s else s ++ [x].

(** [new Set(array)] with [add] for further elements. *)
Definition Set_add_all (xs : list string) (s : list string) : list string :=
  fold_left (fun acc x => Set_add x acc) xs s.

(** What the embedding keeps of the running program: the policy's
    [_stores], the notifications sent to each store so far (latest last),
    and the module's [CACHE_CONTROL_CACHE]. *)
Record World := {
  _stores : gmap positive StoreCache;
  notified : list (positive * string * string);
  CACHE_CONTROL_CACHE : LRUCache.t (gmap string CacheControlField);
}.

(** A computation on the world that returns or throws; what it did before
    it threw stays done. *)
Definition M (A : Type) : Type := World -> result A * World.

Definition ret {A} (a : A) : M A := fun w => (Ok a, w).
Definition throw {A} (e : error) : M A := fun w => (Throw e, w).
Definition bind {A B} (m : M A) (k : A -> M B) : M B :=
  fun w =>
    match m w with
    | (Ok a, w') => k a w'
    | (Throw e, w') => (Throw e, w')
    end.

Declare Scope policy_scope.
Delimit Scope policy_scope with policy.
Notation "x <- m ;; k" := (bind m (fun x => k))
  (at level 100, m at next level, right associativity) : policy_scope.
Notation "m ;; k" := (bind m (fun _ => k))
  (at level 100, right associativity) : policy_scope.

Definition set_stores (s : gmap positive StoreCache) : M unit :=
  fun w => (Ok tt, {| _stores := s; notified := notified w;
                      CACHE_CONTROL_CACHE := CACHE_CONTROL_CACHE w |}).

Definition get_stores : M (gmap positive StoreCache) :=
  fun w => (Ok (_stores w), w).

(** [store.notifications.notify(id, value)] *)
Definition notify (store : Store) (id value : string) : M unit :=
  fun w => (Ok tt, {| _stores := _stores w;
                      notified := notified w ++ [(store_ref store, id, value)];
                      CACHE_CONTROL_CACHE := CACHE_CONTROL_CACHE w |}).

Definition emptyStoreCache : StoreCache :=
  {| invalidated := ∅; types := ∅ |}.

(** [_getStore]: the record of the store, made on first use. *)
Definition _getStore (store : Store) : M StoreCache :=
  (stores <- get_stores ;;
   match stores !! store_ref store with
   | Some set => ret set
   | None =>
       set_stores (<[store_ref store := emptyStoreCache]> stores) ;;
       ret emptyStoreCache
   end)%policy.

(** A write through the reference that [_getStore] returned. *)
Definition update_store (store : Store) (f : StoreCache -> StoreCache) : M unit :=
  (stores <- get_stores ;;
   match stores !! store_ref store with
   | Some set => set_stores (<[store_ref store := f set]> stores)
   | None => ret tt
   end)%policy.

Definition invalidated_add (store : Store) (id : string) : M unit :=
  update_store store
    (fun sc => {| invalidated := {[id]} ∪ invalidated sc; types := types sc |}).

Definition invalidated_delete (store : Store) (id : string) : M unit :=
  update_store store
    (fun sc => {| invalidated := invalidated sc ∖ {[id]}; types := types sc |}).

Definition types_set (store : Store) (type : string) (set : list string) : M unit :=
  update_store store
    (fun sc => {| invalidated := invalidated sc;
                  types := <[type := set]> (types sc) |}).

(** [list.forEach(f)] *)
Fixpoint forEach {A} (l : list A) (f : A -> M unit) : M unit :=
  match l with
  | [] => ret tt
  | x :: l' => (f x ;; forEach l' f)%policy
  end.

(* ================================================================= *)
(** ** Runtime values, for the constructor's argument checks *)

Inductive jsval :=
| JUndefined
| JNull
| JBool (b : bool)
| JNumber (n : Js.number)
| JString (s : string)
| JObject (props : string -> jsval).

Definition jsval_truthy (v : jsval) : bool :=
  match v with
  | JUndefined | JNull => false
  | JBool b => b
  | JNumber n => Js.truthy n
  | JString s => negb (String.eqb s "")
  | JObject _ => true
  end.

Definition typeof (v : jsval) : string :=
  match v with
  | JUndefined => "undefined"
  | JNull => "object"
  | JBool _ => "boolean"
  | JNumber _ => "number"
  | JString _ => "string"
  | JObject _ => "object"
  end.

(** The properties of an object literal with distinct names. *)
Fixpoint props_of (entries : list (string * jsval)) : string -> jsval :=
  match entries with
  | [] => fun _ => JUndefined
  | (k, v) :: rest =>
      fun name => if String.eqb k name then v else props_of rest name
  end.

(** [v.name], for a name that no primitive wrapper defines. *)
Definition get_prop (v : jsval) (name : string) : result jsval :=
  match v with
  | JUndefined | JNull =>
      Throw (TypeError ("Cannot read properties of undefined or null, reading "
                        ++ name))
  | JObject props => Ok (props name)
  | _ => Ok JUndefined
  end.

(** The object a [new CachePolicy(...)] leaves behind. *)
Record CachePolicy := {
  config : jsval;
  policy_stores : gmap positive StoreCache;
}.

(* ================================================================= *)
(** ** The program *)

Section Program.

(** The build and the host are parameters: [DEBUG] says whether the build
    keeps assertions, [TESTING] is the constant of
    [@warp-drive/build-config/env], which is not among the sources, and
    [Date_parse s] is [new Date(s).getTime()]. *)
Variable DEBUG : bool.
Variable TESTING : bool.
Variable Date_parse : string -> Js.number.

(** Modelled from the spec: the macro [assert] of
    [@warp-drive/build-config/macros], which is not among the sources.  The
    specification knows it as a fatal assertion failure (the constructor,
    the URL helpers) and as a diagnostic after which the code goes on (the
    header parser); the sources agree, for they test again what they have
    just asserted.  Both are kept, under the build flag: with [DEBUG] a
    failed assertion throws, without it the macro leaves nothing of the
    call, its condition included. *)
Definition assertE (message : string) (condition : result bool) : result unit :=
  if DEBUG then
    (c <- condition ;;
     if c then Ok tt else Throw (AssertionError message))%result
  else Ok tt.

Definition assert (message : string) (condition : bool) : result unit :=
  assertE message (Ok condition).

Definition parseCacheControlValue (stringToParse : string) : result Js.number :=
  let parsedValue := Js.parseInt stringToParse 0 in
  (assert ("Invalid Cache-Control value, expected a number but got - "
           ++ stringToParse)
          (negb (Js.isNaN parsedValue)) ;;
   assert ("Invalid Cache-Control value, expected a number greater than 0 but got - "
           ++ stringToParse)
          (Js.ge parsedValue (Js.Num 0)) ;;
   if Js.isNaN parsedValue || Js.lt parsedValue (Js.Num 0)
   then Ok (Js.Num 0)
   else Ok parsedValue)%result.

(** [cacheControlValue[key] = NUMERIC_KEYS.has(key) ? parseCacheControlValue(value) : true].
    For the key [__proto__] the assignment goes to the setter that
    [Object.prototype] has for this name, which ignores a value that is no
    object: the object gets no field. *)
Definition storeDirective (st : ParseState)
  : result (gmap string CacheControlField) :=
  (v <- (if NUMERIC_KEYS_has (key st)
         then (n <- parseCacheControlValue (value st) ;; Ok (CNum n))
         else Ok CTrue) ;;
   Ok (if String.eqb (key st) "__proto__" then cacheControlValue st
       else <[key st := v]> (cacheControlValue st)))%result.

(** The loop of the parser from index [i] on: [prev] is the character at
    [i - 1] when [i > 0], [rest] the characters from [i]. *)
Fixpoint parseLoop (prev : option ascii) (rest : string) (st : ParseState)
  : result (gmap string CacheControlField) :=
  match rest with
  | EmptyString => Ok (cacheControlValue st)
  | String char tl =>
      if is_comma char then
        (assert "Invalid Cache-Control value, expected a value"
                (negb (isParsingKey st) || negb (NUMERIC_KEYS_has (key st))) ;;
         assert "Invalid Cache-Control value, expected a value after = but got ,"
                (match prev with
                 | None => true
                 | Some p => negb (is_equals p)
                 end) ;;
         o <- storeDirective st ;;
         parseLoop (Some char) tl
           {| key := ""; value := ""; isParsingKey := true;
              cacheControlValue := o |})%result
      else
        (next <-
           (if is_equals char then
              (assert "Invalid Cache-Control value, expected a value after ="
                      (negb (String.eqb tl "")) ;;
               Ok (Some {| key := key st; value := value st;
                           isParsingKey := false;
                           cacheControlValue := cacheControlValue st |}))
            else if is_blank char then Ok None
            else if isParsingKey st then
              Ok (Some {| key := push (key st) char; value := value st;
                          isParsingKey := isParsingKey st;
                          cacheControlValue := cacheControlValue st |})
            else
              Ok (Some {| key := key st; value := push (value st) char;
                          isParsingKey := isParsingKey st;
                          cacheControlValue := cacheControlValue st |})) ;;
         match next with
         | None => parseLoop (Some char) tl st
         | Some st' =>
             st'' <-
               (if String.eqb tl "" then
                  (o <- storeDirective st' ;;
                   Ok {| key := key st'; value := value st';
                         isParsingKey := isParsingKey st';
                         cacheControlValue := o |})
                else Ok st') ;;
             parseLoop (Some char) tl st''
         end)%result
  end.

Definition initialParseState : ParseState :=
  {| key := ""; value := ""; isParsingKey := true; cacheControlValue := ∅ |}.

(** The function given to [new LRUCache(..., 200)]. *)
Definition parseHeader (header : string) : result (gmap string CacheControlField) :=
  parseLoop None header initialParseState.

Definition parseCacheControl (header : string)
  : M (gmap string CacheControlField) :=
  fun w =>
    let '(r, c) := LRUCache.get parseHeader header (CACHE_CONTROL_CACHE w) in
    (r, {| _stores := _stores w; notified := notified w;
           CACHE_CONTROL_CACHE := c |}).

Definition liftR {A} (r : result A) : M A := fun w => (r, w).

(** The three header constraints of [isExpired]: [Some b] is
    [return b], [None] falls through to the next check. *)
Definition check_X_WarpDrive_Expires (ch : HeaderConstraints)
    (headers : gmap string string) (now : Z) : option bool :=
  if constraint_X_WarpDrive_Expires ch then
    let xWarpDriveExpires := Headers_get headers "X-WarpDrive-Expires" in
    if Js.truthy_str xWarpDriveExpires then
      let expirationTime := Date_parse (default "" xWarpDriveExpires) in
      Some (Js.ge (Js.Num now) expirationTime)
    else None
  else None.

Definition check_Cache_Control (ch : HeaderConstraints)
    (headers : gmap string string) (date : option string) (now : Z)
  : M (option bool) :=
  if constraint_Cache_Control ch then
    let cacheControl := Headers_get headers "Cache-Control" in
    let age := Headers_get headers "Age" in
    if Js.truthy_str cacheControl && Js.truthy_str age && Js.truthy_str date
    then
      (cacheControlValue <- parseCacheControl (default "" cacheControl) ;;
       let maxAge := field_or (cacheControlValue !! "max-age")
                              (cacheControlValue !! "s-maxage") in
       if field_truthy maxAge then
         let ageValue := Js.parseInt (default "" age) 10 in
         liftR (assert ("Invalid Cache-Control value, expected a number but got - "
                        ++ default "" age)
                       (negb (Js.isNaN ageValue))) ;;
         liftR (assert ("Invalid Cache-Control value, expected a number greater than 0 but got - "
                        ++ default "" age)
                       (Js.ge ageValue (Js.Num 0))) ;;
         if negb (Js.isNaN ageValue) && Js.ge ageValue (Js.Num 0) then
           let dateValue := Date_parse (default "" date) in
           let expirationTime :=
             Js.add dateValue
               (Js.mul (Js.sub (field_toNumber maxAge) ageValue) (Js.Num 1000)) in
           ret (Some (Js.ge (Js.Num now) expirationTime))
         else ret None
       else ret None)%policy
    else ret None
  else ret None.

Definition check_Expires (ch : HeaderConstraints)
    (headers : gmap string string) (now : Z) : option bool :=
  if constraint_Expires ch then
    let expires := Headers_get headers "Expires" in
    if Js.truthy_str expires then
      let expirationTime := Date_parse (default "" expires) in
      Some (Js.ge (Js.Num now) expirationTime)
    else None
  else None.

(** The end of [isExpired]: the [Date] header against the configured
    duration. *)
Definition check_Date (config : PolicyConfig) (date : option string) (now : Z)
  : bool :=
  if negb (Js.truthy_str date) then true
  else
    let expirationTime :=
      if TESTING && negb (disableTestOptimization config)
      then apiCacheSoftExpires config
      else apiCacheHardExpires config in
    let time := Date_parse (default "" date) in
    let deadline := Js.add time expirationTime in
    Js.ge (Js.Num now) deadline.

(** [isExpired(identifier, request, config)], with [now] the value that
    [Date.now()] returns during the call. *)
Definition isExpired (identifier : string) (request : StructuredDocument)
    (config : PolicyConfig) (now : Z) : M bool :=
  let custom :=
    match constraints config with
    | Some c =>
        match constraints_isExpired c with
        | Some f => f request
        | None => None
        end
    | None => None
    end in
  match custom with
  | Some result => ret result
  | None =>
      match response request with
      | None =>
          throw (TypeError "Cannot destructure property headers of request.response")
      | Some resp =>
          match headers resp with
          | None => ret true
          | Some headers =>
              let date := Headers_get headers "Date" in
              match constraints config ≫= constraints_headers with
              | Some ch =>
                  match check_X_WarpDrive_Expires ch headers now with
                  | Some result => ret result
                  | None =>
                      (cc <- check_Cache_Control ch headers date now ;;
                       match cc with
                       | Some result => ret result
                       | None =>
                           match check_Expires ch headers now with
                           | Some result => ret result
                           | None => ret (check_Date config date now)
                           end
                       end)%policy
                  end
              | None => ret (check_Date config date now)
              end
          end
      end
  end.

(** *** The class [CachePolicy] *)

(** [new CachePolicy(...arguments)].  The call of [deprecate] only reports. *)
Definition CachePolicy_new (arguments : list jsval) : result CachePolicy :=
  let config := nth 0 arguments JUndefined in
  let _config :=
    if Nat.eqb (length arguments) 1 then config else nth 1 arguments JUndefined in
  (assertE "You must pass a config to the CachePolicy"
           (Ok (jsval_truthy _config)) ;;
   assertE "You must pass a apiCacheSoftExpires to the CachePolicy"
           (v <- get_prop _config "apiCacheSoftExpires" ;;
            Ok (String.eqb (typeof v) "number")) ;;
   assertE "You must pass a apiCacheHardExpires to the CachePolicy"
           (v <- get_prop _config "apiCacheHardExpires" ;;
            Ok (String.eqb (typeof v) "number")) ;;
   Ok {| config := _config; policy_stores := ∅ |})%result.

(** The record behind the reference that [_getStore] returned. *)
Definition deref (store : Store) : M StoreCache :=
  (stores <- get_stores ;;
   ret (default emptyStoreCache (stores !! store_ref store)))%policy.

Definition invalidateRequest (identifier : string) (store : Store) : M unit :=
  (_getStore store ;;
   invalidated_add store identifier)%policy.

Definition invalidateRequestsForType (type : string) (store : Store) : M unit :=
  (storeCache <- _getStore store ;;
   match types storeCache !! type with
   | Some set =>
       forEach set (fun id =>
         invalidated_add store id ;;
         notify store id "invalidated")
   | None => ret tt
   end)%policy.

Definition op_is (request : RequestInfo) (name : string) : bool :=
  match op request with
  | Some o => String.eqb o name
  | None => false
  end.

Definition didRequest (request : RequestInfo) (response : option ResponseInfo)
    (identifier : option string) (store : Store) : M unit :=
  let cacheTypes := cacheOptions request ≫= cacheOptions_types in
  if op_is request "createRecord" then
    let statusNumber :=
      match response with
      | Some r => status r
      | None => 0
      end in
    if (200 <=? statusNumber) && (statusNumber <? 400) then
      let types := Set_add_all (map ref_type (default [] (records request))) [] in
      let types := Set_add_all (default [] cacheTypes) types in
      forEach types (fun type => invalidateRequestsForType type store)
    else ret tt
  else
    match identifier, cacheTypes with
    | Some identifier, Some (t :: ts) =>
        (_getStore store ;;
         forEach (t :: ts) (fun type =>
           storeCache <- deref store ;;
           match types storeCache !! type with
           | Some set =>
               types_set store type (Set_add identifier set) ;;
               invalidated_delete store identifier
           | None => types_set store type [identifier]
           end))%policy
    | _, _ => ret tt
    end.

Definition isHardExpired (config : PolicyConfig) (identifier : string)
    (store : Store) (now : Z) : M bool :=
  (storeCache <- _getStore store ;;
   if bool_decide (identifier ∈ invalidated storeCache) then ret true
   else
     let cached := peekRequest store identifier in
     match cached with
     | Some doc =>
         match response doc with
         | Some _ => isExpired identifier doc config now
         | None => ret true
         end
     | None => ret true
     end)%policy.

Definition isSoftExpired (config : PolicyConfig) (identifier : string)
    (store : Store) (now : Z) : M bool :=
  if TESTING && negb (disableTestOptimization config) then ret false
  else
    let cached := peekRequest store identifier in
    match cached ≫= response with
    | Some resp =>
        match headers resp with
        | None =>
            throw (TypeError "Cannot read properties of undefined (reading get)")
        | Some headers =>
            let date := Headers_get headers "date" in
            if negb (Js.truthy_str date) then ret true
            else
              let time := Date_parse (default "" date) in
              let deadline := Js.add time (apiCacheSoftExpires config) in
              ret (Js.ge (Js.Num now) deadline)
        end
    | None => ret true
    end.

(** *** Runs of the policy *)

(** One call on the policy from outside.  The store given to a call
    carries the cache contents at the time of the call. *)
Inductive Call :=
| InvalidateRequest (identifier : string) (store : Store)
| InvalidateRequestsForType (type : string) (store : Store)
| DidRequest (request : RequestInfo) (response : option ResponseInfo)
             (identifier : option string) (store : Store)
| IsHardExpired (identifier : string) (store : Store) (now : Z)
| IsSoftExpired (identifier : string) (store : Store) (now : Z).

(** The world after a call, whether it returned or threw. *)
Definition perform (config : PolicyConfig) (c : Call) (w : World) : World :=
  match c with
  | InvalidateRequest identifier store =>
      snd (invalidateRequest identifier store w)
  | InvalidateRequestsForType type store =>
      snd (invalidateRequestsForType type store w)
  | DidRequest request response identifier store =>
      snd (didRequest request response identifier store w)
  | IsHardExpired identifier store now =>
      snd (isHardExpired config identifier store now w)
  | IsSoftExpired identifier store now =>
      snd (isSoftExpired config identifier store now w)
  end.

Definition performAll (config : PolicyConfig) (calls : list Call) (w : World)
  : World :=
  fold_left (fun w c => perform config c w) calls w.

(** Every memoized parse is the parse of its header. *)
Definition memo_coherent (w : World) : Prop :=
  LRUCache.coherent parseHeader (CACHE_CONTROL_CACHE w).

End Program.


(* ================================================================= *)
(** ** Notions used in the statements *)

(** The world when the module has been loaded and a policy constructed. *)
Definition initialWorld : World :=
  {| _stores := ∅; notified := [];
     CACHE_CONTROL_CACHE := LRUCache.new 200 |}.

(** *** The policy's records *)

(** The record kept under a key of [_stores]; a key that is not there yet has
    the empty record that [_getStore] would make for it. *)
Definition view (w : World) (ref : positive) : StoreCache :=
  default emptyStoreCache (_stores w !! ref).

Definition record_of (w : World) (store : Store) : StoreCache :=
  view w (store_ref store).

Definition is_invalidated (w : World) (store : Store) (identifier : string) : Prop :=
  identifier ∈ invalidated (record_of w store).

(** [identifier] is in the set that the record keeps for [type]. *)
Definition has_id (type identifier : string) (sc : StoreCache) : Prop :=
  exists set, types sc !! type = Some set /\ identifier ∈ set.

Definition registered (w : World) (store : Store) (type identifier : string) : Prop :=
  has_id type identifier (record_of w store).

(** The policy's map once [_getStore] has been called for [store]. *)
Definition seen (store : Store) (stores : gmap positive StoreCache)
  : gmap positive StoreCache :=
  match stores !! store_ref store with
  | Some _ => stores
  | None => <[store_ref store := emptyStoreCache]> stores
  end.

Definition afterGetStore (store : Store) (w : World) : World :=
  {| _stores := seen store (_stores w); notified := notified w;
     CACHE_CONTROL_CACHE := CACHE_CONTROL_CACHE w |}.

(** The [invalidated] notifications for a list of identifiers. *)
Definition notes (ref : positive) (ids : list string)
  : list (positive * string * string) :=
  map (fun id => (ref, id, "invalidated")) ids.

(** The world after the record of [ref] was rewritten by [g] and the
    identifiers [sent] were notified. *)
Definition effect (ref : positive) (g : StoreCache -> StoreCache)
    (sent : StoreCache -> list string) (w : World) : World :=
  {| _stores := <[ref := g (view w ref)]> (_stores w);
     notified := (notified w ++ notes ref (sent (view w ref)))%list;
     CACHE_CONTROL_CACHE := CACHE_CONTROL_CACHE w |}.

(** On a world that has a record for [ref], [m] returns and has that
    effect. *)
Definition acts (ref : positive) (m : M unit)
    (g : StoreCache -> StoreCache) (sent : StoreCache -> list string) : Prop :=
  forall w, is_Some (_stores w !! ref) -> m w = (Ok tt, effect ref g sent w).

(** What was notified by a loop whose steps rewrite by [g] and notify
    [sent]. *)
Fixpoint sent_each {A} (g : A -> StoreCache -> StoreCache)
    (sent : A -> StoreCache -> list string) (l : list A) (sc : StoreCache)
  : list string :=
  match l with
  | [] => []
  | x :: l' => (sent x sc ++ sent_each g sent l' (g x sc))%list
  end.

(** How a call changed the world, seen through the records. *)
Definition changes (ref : positive) (g : StoreCache -> StoreCache)
    (sent : list string) (w w' : World) : Prop :=
  (forall r, view w' r = if decide (r = ref) then g (view w r) else view w r)
  /\ notified w' = (notified w ++ notes ref sent)%list
  /\ CACHE_CONTROL_CACHE w' = CACHE_CONTROL_CACHE w.

(** A step that leaves the records and the notifications alone and keeps
    the memo of the parser coherent. *)
Definition quiet (DEBUG : bool) (w w' : World) : Prop :=
  _stores w' = _stores w /\ notified w' = notified w
  /\ (memo_coherent DEBUG w -> memo_coherent DEBUG w').

(** *** What the calls do to a record *)

Definition invalidate_ids (ids : list string) (sc : StoreCache) : StoreCache :=
  {| invalidated := list_to_set ids ∪ invalidated sc; types := types sc |}.

(** The identifiers kept for a type. *)
Definition ids_of (type : string) (sc : StoreCache) : list string :=
  default [] (types sc !! type).

(** One round of the loop in the register branch of [didRequest]. *)
Definition register_type (identifier type : string) (sc : StoreCache) : StoreCache :=
  match types sc !! type with
  | Some set =>
      {| invalidated := invalidated sc ∖ {[identifier]};
         types := <[type := Set_add identifier set]> (types sc) |}
  | None =>
      {| invalidated := invalidated sc;
         types := <[type := [identifier]]> (types sc) |}
  end.

Definition invalidate_types (tys : list string) (sc : StoreCache) : StoreCache :=
  fold_left (fun sc type => invalidate_ids (ids_of type sc) sc) tys sc.

Definition register_types (identifier : string) (tys : list string) (sc : StoreCache)
  : StoreCache :=
  fold_left (fun sc type => register_type identifier type sc) tys sc.

(** The types that a successful [createRecord] invalidates: those of
    [request.records], then those of [request.cacheOptions.types]. *)
Definition created_types (request : RequestInfo) : list string :=
  Set_add_all (default [] (cacheOptions request ≫= cacheOptions_types))
    (Set_add_all (map ref_type (default [] (records request))) []).

(** [statusNumber >= 200 && statusNumber < 400] *)
Definition successful (response : option ResponseInfo) : bool :=
  let statusNumber := match response with Some r => status r | None => 0 end in
  (200 <=? statusNumber) && (statusNumber <? 400).

Definition didRequest_effect (request : RequestInfo) (response : option ResponseInfo)
    (identifier : option string) : StoreCache -> StoreCache :=
  if op_is request "createRecord" then
    invalidate_types (if successful response then created_types request else [])
  else
    match identifier with
    | Some id =>
        register_types id (default [] (cacheOptions request ≫= cacheOptions_types))
    | None => fun sc => sc
    end.

Definition call_store (c : Call) : Store :=
  match c with
  | InvalidateRequest _ store | InvalidateRequestsForType _ store
  | DidRequest _ _ _ store | IsHardExpired _ store _ | IsSoftExpired _ store _ => store
  end.

Definition call_effect (c : Call) : StoreCache -> StoreCache :=
  match c with
  | InvalidateRequest identifier _ => invalidate_ids [identifier]
  | InvalidateRequestsForType type _ => fun sc => invalidate_ids (ids_of type sc) sc
  | DidRequest request response identifier _ =>
      didRequest_effect request response identifier
  | IsHardExpired _ _ _ | IsSoftExpired _ _ _ => fun sc => sc
  end.

(** The call is not a [didRequest] that takes its register branch for
    [identifier] on the store [ref]. *)
Definition not_a_registration (ref : positive) (identifier : string) (c : Call)
  : Prop :=
  match c with
  | DidRequest request _ (Some id) store =>
      id = identifier -> store_ref store = ref ->
      op_is request "createRecord" = true
  | _ => True
  end.

(** [cached?.response] is there. *)
Definition has_response (cached : option StructuredDocument) : bool :=
  match cached ≫= response with
  | Some _ => true
  | None => false
  end.

(** *** Parsing *)

(** A directive text without separators: no [,], no [=], no blank. *)
Fixpoint plain (s : string) : bool :=
  match s with
  | EmptyString => true
  | String c t => negb (is_comma c || is_equals c || is_blank c) && plain t
  end.

(** The parse state after the characters of a plain text. *)
Definition feed (st : ParseState) (s : string) : ParseState :=
  if isParsingKey st
  then {| key := key st ++ s; value := value st; isParsingKey := true;
          cacheControlValue := cacheControlValue st |}
  else {| key := key st; value := value st ++ s; isParsingKey := false;
          cacheControlValue := cacheControlValue st |}.

Fixpoint last_char (prev : option ascii) (s : string) : option ascii :=
  match s with
  | EmptyString => prev
  | String c t => last_char (Some c) t
  end.

(** The decimal numeral of a natural number. *)
Definition decimal (n : N) : string := NilEmpty.string_of_uint (N.to_uint n).

(** *** Expiration *)

(** The value [isExpired] gets from [constraints.isExpired]; [None] when
    there is no such function or it returns [null]. *)
Definition custom_verdict (config : PolicyConfig) (request : StructuredDocument)
  : option bool :=
  match constraints config with
  | Some c =>
      match constraints_isExpired c with
      | Some f => f request
      | None => None
      end
  | None => None
  end.

(** [cacheControlValue['max-age'] || cacheControlValue['s-maxage']] *)
Definition selected_maxAge (ccv : gmap string CacheControlField)
  : option CacheControlField :=
  field_or (ccv !! "max-age") (ccv !! "s-maxage").

(** What [isExpired] returns once the [Cache-Control] check has fallen
    through: the [Expires] constraint, then the [Date] header against the
    configured duration. *)
Definition after_Cache_Control (TESTING : bool) (Date_parse : string -> Js.number)
    (config : PolicyConfig) (ch : HeaderConstraints)
    (hdrs : gmap string string) (now : Z) : bool :=
  match check_Expires Date_parse ch hdrs now with
  | Some result => result
  | None => check_Date TESTING Date_parse config (Headers_get hdrs "Date") now
  end.

(** The time values of ECMAScript dates. *)
Definition time_value (t : Z) : Prop :=
  -8640000000000000 <= t <= 8640000000000000.

(** *** The constructor *)

(** The argument that the constructor takes as its config. *)
Definition config_argument (arguments : list jsval) : jsval :=
  if Nat.eqb (length arguments) 1 then nth 0 arguments JUndefined
  else nth 1 arguments JUndefined.

(** The config is an object whose two durations are numbers. *)
Definition durations_numeric (v : jsval) : Prop :=
  exists props, v = JObject props
    /\ typeof (props "apiCacheSoftExpires") = "number"
    /\ typeof (props "apiCacheHardExpires") = "number".

(** *** Fixtures for the concrete cases *)

(** A date parser for the examples: the values of [new Date(s).getTime()]
    on the date strings that the examples use. *)
Definition example_Date_parse (s : string) : Js.number :=
  if String.eqb s "Tue, 14 Nov 2023 22:13:20 GMT" then Js.Num 1700000000000
  else if String.eqb s "Tue, 14 Nov 2023 22:13:19 GMT" then Js.Num 1699999999000
  else if String.eqb s "Tue, 14 Nov 2023 22:13:10 GMT" then Js.Num 1699999990000
  else if String.eqb s "Tue, 14 Nov 2023 22:12:35 GMT" then Js.Num 1699999955000
  else if String.eqb s "Tue, 14 Nov 2023 22:12:10 GMT" then Js.Num 1699999930000
  else Js.NaN.

(** [Date.now()] in the examples: 2023-11-14 22:13:20 UTC. *)
Definition example_now : Z := 1700000000000.

(** [{ apiCacheSoftExpires: 30000, apiCacheHardExpires: 60000 }] *)
Definition example_config : PolicyConfig :=
  {| apiCacheSoftExpires := Js.Num 30000;
     apiCacheHardExpires := Js.Num 60000;
     disableTestOptimization := false;
     constraints := None |}.

Definition only_Cache_Control : HeaderConstraints :=
  {| constraint_Cache_Control := true; constraint_Expires := false;
     constraint_X_WarpDrive_Expires := false |}.

(** The same durations with
    [constraints: { headers: { 'Cache-Control': true } }]. *)
Definition example_config_Cache_Control : PolicyConfig :=
  {| apiCacheSoftExpires := Js.Num 30000;
     apiCacheHardExpires := Js.Num 60000;
     disableTestOptimization := false;
     constraints :=
       Some {| constraints_headers := Some only_Cache_Control;
               constraints_isExpired := None |} |}.

(** [new Headers(init)] for an [init] with distinct names. *)
Definition Headers_new (init : list (string * string)) : gmap string string :=
  list_to_map (map (fun kv => (lower (fst kv), snd kv)) init).

Definition headers_fresh : gmap string string :=
  Headers_new [("Date", "Tue, 14 Nov 2023 22:13:19 GMT")].

Definition headers_max_age_zero : gmap string string :=
  Headers_new [("Cache-Control", "max-age=0"); ("Age", "0");
               ("Date", "Tue, 14 Nov 2023 22:13:19 GMT")].

Definition headers_max_age_zero_s_maxage : gmap string string :=
  Headers_new [("Cache-Control", "max-age=0, s-maxage=3600"); ("Age", "0");
               ("Date", "Tue, 14 Nov 2023 22:13:19 GMT")].

Definition headers_scenario_C : gmap string string :=
  Headers_new [("Cache-Control", "max-age=100"); ("Age", "150");
               ("Date", "Tue, 14 Nov 2023 22:13:10 GMT")].

Definition example_document (hdrs : gmap string string) : StructuredDocument :=
  {| response := Some {| headers := Some hdrs; status := 200 |} |}.

(** A store whose cache holds one document, under the identifier [doc]. *)
Definition example_store (hdrs : gmap string string) : Store :=
  {| store_ref := 1%positive;
     peekRequest := fun identifier =>
       if String.eqb identifier "doc" then Some (example_document hdrs)
       else None |}.

(** A store whose cache holds the documents of scenarios A and B. *)
Definition store_A_B : Store :=
  {| store_ref := 1%positive;
     peekRequest := fun identifier =>
       if String.eqb identifier "A"
       then Some (example_document {[ "date" := "Tue, 14 Nov 2023 22:12:35 GMT" ]})
       else Some (example_document {[ "date" := "Tue, 14 Nov 2023 22:12:10 GMT" ]}) |}.

(** A store with an empty cache. *)
Definition empty_store : Store :=
  {| store_ref := 1%positive; peekRequest := fun _ => None |}.

(** A query that declares its result dependent on the type [person]. *)
Definition example_query : RequestInfo :=
  {| op := Some "query"; records := None;
     cacheOptions := Some {| cacheOptions_types := Some ["person"] |} |}.

(** A [createRecord] request for one [person]. *)
Definition example_create : RequestInfo :=
  {| op := Some "createRecord";
     records := Some [ {| ref_type := "person" |} ];
     cacheOptions := None |}.

Definition example_response (statusNumber : Z) : ResponseInfo :=
  {| headers := None; status := statusNumber |}.

(** Two config objects as the constructor may receive them. *)
Definition config_object : jsval :=
  JObject (props_of [("apiCacheSoftExpires", JNumber (Js.Num 30000));
                     ("apiCacheHardExpires", JNumber (Js.Num 60000))]).

Definition config_object_with_string : jsval :=
  JObject (props_of [("apiCacheSoftExpires", JString "30000");
                     ("apiCacheHardExpires", JNumber (Js.Num 60000))]).

(* ================================================================= *)
(** ** The subclass [LifetimesService] *)

Section Program_more.
Variable DEBUG : bool.

(** [new LifetimesService(...arguments)]: the subclass reports its
    deprecation and calls [super(config)], with its first parameter only. *)
Definition LifetimesService_new (arguments : list jsval) : result CachePolicy :=
  let config := nth 0 arguments JUndefined in
  CachePolicy_new DEBUG [config].

End Program_more.

(* ================================================================= *)
(** ** Strings and arrays of the host, for the URL and query helpers *)

(** In the URL helpers a string is a sequence of code units below 256. *)

(** [s.startsWith(p)] *)
Definition startsWith (s p : string) : bool := String.prefix p s.

(** [s.endsWith(p)] *)
Fixpoint endsWith (s p : string) : bool :=
  String.eqb s p
  || match s with
     | EmptyString => false
     | String _ t => endsWith t p
     end.

Definition nonempty (s : string) : bool := negb (String.eqb s "").

(** [array.filter(Boolean).join(sep)] on an array of strings, [None] being
    an element that is [undefined]. *)
Fixpoint filter_Boolean (l : list (option string)) : list string :=
  match l with
  | [] => []
  | Some s :: l' => if nonempty s then s :: filter_Boolean l' else filter_Boolean l'
  | None :: l' => filter_Boolean l'
  end.

Definition hexDigit (n : N) : ascii :=
  if (n <? 10)%N then ascii_of_N (48 + n) else ascii_of_N (55 + n).

(** [%XY] for an octet. *)
Definition percent (octet : N) : string :=
  String "%" (String (hexDigit (octet / 16)) (String (hexDigit (octet mod 16)) "")).

(** The UTF-8 octets of a code unit below 256. *)
Definition utf8 (c : ascii) : list N :=
  let n := N_of_ascii c in
  if (n <? 128)%N then [n] else [192 + n / 64; 128 + n mod 64]%N.

Definition isAlphaNumeric (c : ascii) : bool :=
  let n := N_of_ascii c in
  ((48 <=? n) && (n <=? 57) || (65 <=? n) && (n <=? 90)
   || (97 <=? n) && (n <=? 122))%N.

Definition is_one_of (chars : string) (c : ascii) : bool :=
  existsb (Ascii.eqb c) (list_ascii_of_string chars).

(** The characters that [encodeURIComponent] leaves alone. *)
Definition uriUnreserved (c : ascii) : bool :=
  isAlphaNumeric c || is_one_of "-_.!~*'()" c.

Definition encodeChar (keep : ascii -> bool) (c : ascii) : string :=
  if keep c then String c "" else String.concat "" (map percent (utf8 c)).

Fixpoint encodeURIComponent (s : string) : string :=
  match s with
  | EmptyString => EmptyString
  | String c t => encodeChar uriUnreserved c ++ encodeURIComponent t
  end.

Definition dquote : string := String "034"%char "".

(** [s.split(sep)] for a separator of one character. *)
Fixpoint String_split (sep : ascii) (s : string) : list string :=
  match s with
  | EmptyString => [""]
  | String c t =>
      if Ascii.eqb c sep then "" :: String_split sep t
      else match String_split sep t with
           | x :: l => String c x :: l
           | [] => [String c ""]
           end
  end.

(** [array.sort()] on strings: the order of their code units. *)
Fixpoint insert_by {A} (le : A -> A -> bool) (x : A) (l : list A) : list A :=
  match l with
  | [] => [x]
  | y :: l' => if le x y then x :: l else y :: insert_by le x l'
  end.

(** A stable sort, as [Array.prototype.sort] is. *)
Definition sort_by {A} (le : A -> A -> bool) (l : list A) : list A :=
  fold_right (insert_by le) [] l.

(* ================================================================= *)
(** ** The URL helpers *)

(** The module's [CONFIG].  Its first value comes from [getOrSetGlobal],
    which is not among the sources; every function below takes the value
    that [CONFIG] has when it is called. *)
Record CONFIG := {
  CONFIG_host : string;
  CONFIG_namespace : string;
}.

(** The argument of [setBuildURLConfig].  A property is not there ([None]),
    is [null] ([Some None]) or is a string. *)
Module BuildURLConfig.
Record t := {
  host : option (option string);
  namespace : option (option string);
}.
End BuildURLConfig.

(** An [identifier] of [UrlOptions].  A property is not there ([None]) or is
    a string. *)
Module Identifier.
Record t := {
  type : option string;
  id : option string;
}.
End Identifier.

(** A [UrlOptions] object.  A property is not there ([None]) or holds a
    value of the type that its interface declares. *)
Module UrlOptions.
Record t := {
  op : option string;
  identifier : option Identifier.t;
  identifiers : option (list Identifier.t);
  fieldPath : option string;
  resourcePath : option string;
  host : option string;
  namespace : option string;
}.
End UrlOptions.

Definition OPERATIONS_WITH_PRIMARY_RECORDS : gset string :=
  {[ "findRecord"; "findRelatedRecord"; "findRelatedCollection";
     "updateRecord"; "deleteRecord" ]}.

Definition isOperationWithPrimaryRecord (options : UrlOptions.t) : bool :=
  match UrlOptions.op options with
  | Some o => bool_decide (o ∈ OPERATIONS_WITH_PRIMARY_RECORDS)
  | None => false
  end.

Definition hasResourcePath (options : UrlOptions.t) : bool :=
  match UrlOptions.resourcePath options with
  | Some s => nonempty s
  | None => false
  end.

(** [typeof x === 'string' && x.length > 0] *)
Definition nonempty_string (x : option string) : bool :=
  match x with
  | Some s => nonempty s
  | None => false
  end.

(** [options.op === name] *)
Definition url_op_is (options : UrlOptions.t) (name : string) : bool :=
  match UrlOptions.op options with
  | Some o => String.eqb o name
  | None => false
  end.

(** [`${x}`] for a string that may be [undefined]. *)
Definition text_of (x : option string) : string := default "undefined" x.

Definition cannot_read {A} (property : string) : result A :=
  Throw (TypeError ("Cannot read properties of undefined, reading " ++ property)).

(** [x || ''] for a property of the argument of [setBuildURLConfig]. *)
Definition or_empty (x : option (option string)) : string :=
  match x with
  | Some (Some s) => s
  | _ => ""
  end.

(** [host !== '' && host !== '/'] *)
Definition hasHost (host : string) : bool :=
  negb (String.eqb host "") && negb (String.eqb host "/").

Section Urls.
Variable DEBUG : bool.

Local Abbreviation assertE := (assertE DEBUG).
Local Abbreviation assert := (assert DEBUG).

Definition setBuildURLConfig (config : option BuildURLConfig.t) (C : CONFIG)
  : result unit * CONFIG :=
  match assert "setBuildURLConfig: You must pass a config object"
               (bool_decide (is_Some config)) with
  | Throw e => (Throw e, C)
  | Ok _ =>
      match config with
      | None => (cannot_read "host", C)
      | Some config =>
          match assert "setBuildURLConfig: You must pass a config object with a 'host' or 'namespace' property"
                       (bool_decide (is_Some (BuildURLConfig.host config))
                        || bool_decide (is_Some (BuildURLConfig.namespace config)))
          with
          | Throw e => (Throw e, C)
          | Ok _ =>
              let host := or_empty (BuildURLConfig.host config) in
              let namespace := or_empty (BuildURLConfig.namespace config) in
              ((assert ("buildBaseURL: host must NOT end with '/', received '"
                        ++ host ++ "'")
                       (String.eqb host "/" || negb (endsWith host "/")) ;;
                assert ("buildBaseURL: namespace must NOT start with '/', received '"
                        ++ namespace ++ "'")
                       (negb (startsWith namespace "/")) ;;
                assert ("buildBaseURL: namespace must NOT end with '/', received '"
                        ++ namespace ++ "'")
                       (negb (endsWith namespace "/")))%result,
               {| CONFIG_host := host; CONFIG_namespace := namespace |})
          end
      end
  end.

Definition resourcePathForType (options : UrlOptions.t) : result (option string) :=
  (assert "resourcePathForType: You must pass a valid op as part of options"
          (bool_decide (is_Some (UrlOptions.op options))) ;;
   if url_op_is options "findMany" then
     match UrlOptions.identifiers options with
     | Some (i :: _) => Ok (Identifier.type i)
     | Some [] => cannot_read "type"
     | None => cannot_read "0"
     end
   else
     match UrlOptions.identifier options with
     | Some i => Ok (Identifier.type i)
     | None => cannot_read "type"
     end)%result.

(** The operations that the last of the checks on [op] accepts, and the
    list of them that its message gives. *)
Definition known_operations : list string :=
  ["findRecord"; "query"; "findMany"; "findRelatedCollection";
   "findRelatedRecord"; "createRecord"; "updateRecord"; "deleteRecord"].

Definition listed_operations : list string :=
  ["findRecord"; "findRelatedRecord"; "findRelatedCollection"; "updateRecord";
   "deleteRecord"; "createRecord"; "query"; "findMany"].

Definition unknown_operation_message (options : UrlOptions.t)
    (resourcePath : option string) : string :=
  "buildBaseURL: You tried to build a url for a "
  ++ match UrlOptions.op options with
     | Some o => o ++ " "
     | None => ""
     end
  ++ "request to " ++ text_of resourcePath
  ++ " but resourcePath must be set or op must be one of " ++ dquote
  ++ String.concat (dquote ++ "," ++ dquote) listed_operations
  ++ dquote ++ ".".

(** The end of [buildBaseURL]: the segments that are not empty, joined. *)
Definition joinSegments (host namespace : string) (resourcePath : option string)
    (idPath fieldPath : string) : string :=
  let url :=
    String.concat "/"
      (filter_Boolean [Some (if hasHost host then host else ""); Some namespace;
                       resourcePath; Some idPath; Some fieldPath]) in
  if hasHost host then url else "/" ++ url.

Definition buildBaseURL (C : CONFIG) (urlOptions : UrlOptions.t) : result string :=
  let options := urlOptions in
  let host := default (CONFIG_host C) (UrlOptions.host urlOptions) in
  let namespace := default (CONFIG_namespace C) (UrlOptions.namespace urlOptions) in
  (assert "buildBaseURL: You must pass `op` as part of options"
          (hasResourcePath options || nonempty_string (UrlOptions.op options)) ;;
   assert "buildBaseURL: You must pass `identifier` as part of options"
          (hasResourcePath options || url_op_is options "findMany"
           || bool_decide (is_Some (UrlOptions.identifier options))) ;;
   assert "buildBaseURL: You must pass `identifiers` as part of options"
          (hasResourcePath options || negb (url_op_is options "findMany")
           || match UrlOptions.identifiers options with
              | Some l => (0 <? length l)%nat
              | None => false
              end) ;;
   assertE "buildBaseURL: You must pass valid `identifier` as part of options, expected 'id'"
           (if hasResourcePath options || negb (isOperationWithPrimaryRecord options)
            then Ok true
            else match UrlOptions.identifier options with
                 | Some i => Ok (nonempty_string (Identifier.id i))
                 | None => cannot_read "id"
                 end) ;;
   assertE "buildBaseURL: You must pass `identifiers` as part of options"
           (if hasResourcePath options || negb (url_op_is options "findMany")
            then Ok true
            else match UrlOptions.identifiers options with
                 | Some l => Ok (forallb (fun i => nonempty_string (Identifier.id i)) l)
                 | None => cannot_read "every"
                 end) ;;
   assertE "buildBaseURL: You must pass valid `identifier` as part of options, expected 'type'"
           (if hasResourcePath options || url_op_is options "findMany"
            then Ok true
            else match UrlOptions.identifier options with
                 | Some i => Ok (nonempty_string (Identifier.type i))
                 | None => cannot_read "type"
                 end) ;;
   assertE "buildBaseURL: You must pass valid `identifiers` as part of options, expected 'type'"
           (if hasResourcePath options || negb (url_op_is options "findMany")
            then Ok true
            else match UrlOptions.identifiers options with
                 | Some (i :: _) => Ok (nonempty_string (Identifier.type i))
                 | Some [] => cannot_read "type"
                 | None => cannot_read "0"
                 end) ;;
   idPath <-
     (if isOperationWithPrimaryRecord options then
        match UrlOptions.identifier options with
        | Some i => Ok (encodeURIComponent (text_of (Identifier.id i)))
        | None => cannot_read "id"
        end
      else Ok "") ;;
   resourcePath <-
     (if nonempty_string (UrlOptions.resourcePath options)
      then Ok (UrlOptions.resourcePath options)
      else resourcePathForType options) ;;
   let fieldPath := default "" (UrlOptions.fieldPath options) in
   assert (unknown_operation_message options resourcePath)
          (hasResourcePath options
           || match UrlOptions.op options with
              | Some o => bool_decide (o ∈ known_operations)
              | None => false
              end) ;;
   assert ("buildBaseURL: host must NOT end with '/', received '" ++ host ++ "'")
          (String.eqb host "/" || negb (endsWith host "/")) ;;
   assert ("buildBaseURL: namespace must NOT start with '/', received '"
           ++ namespace ++ "'")
          (negb (startsWith namespace "/")) ;;
   assert ("buildBaseURL: namespace must NOT end with '/', received '"
           ++ namespace ++ "'")
          (negb (endsWith namespace "/")) ;;
   assertE ("buildBaseURL: resourcePath must NOT start with '/', received '"
            ++ text_of resourcePath ++ "'")
           (match resourcePath with
            | Some s => Ok (negb (startsWith s "/"))
            | None => cannot_read "startsWith"
            end) ;;
   assertE ("buildBaseURL: resourcePath must NOT end with '/', received '"
            ++ text_of resourcePath ++ "'")
           (match resourcePath with
            | Some s => Ok (negb (endsWith s "/"))
            | None => cannot_read "endsWith"
            end) ;;
   assert ("buildBaseURL: fieldPath must NOT start with '/', received '"
           ++ fieldPath ++ "'")
          (negb (startsWith fieldPath "/")) ;;
   assert ("buildBaseURL: fieldPath must NOT end with '/', received '"
           ++ fieldPath ++ "'")
          (negb (endsWith fieldPath "/")) ;;
   assert ("buildBaseURL: idPath must NOT start with '/', received '"
           ++ idPath ++ "'")
          (negb (startsWith idPath "/")) ;;
   assert ("buildBaseURL: idPath must NOT end with '/', received '"
           ++ idPath ++ "'")
          (negb (endsWith idPath "/")) ;;
   Ok (joinSegments host namespace resourcePath idPath fieldPath))%result.

End Urls.

(* ================================================================= *)
(** ** Query parameters *)

(** A [URLSearchParams]: its list of name-value pairs. *)
Abbreviation URLSearchParams := (list (string * string)) (only parsing).

(** The characters that the serializer of [URLSearchParams] leaves alone. *)
Definition urlencodedUnreserved (c : ascii) : bool :=
  isAlphaNumeric c || is_one_of "*-._" c.

Fixpoint urlencode (s : string) : string :=
  match s with
  | EmptyString => EmptyString
  | String c t =>
      (if Ascii.eqb c " " then "+" else encodeChar urlencodedUnreserved c)
      ++ urlencode t
  end.

(** [urlParams.toString()] *)
Definition URLSearchParams_toString (urlParams : list (string * string)) : string :=
  String.concat "&"
    (map (fun nv => urlencode (fst nv) ++ "=" ++ urlencode (snd nv)) urlParams).

(** The names that [Object.prototype] defines: [key in {}] is [true] for
    them. *)
Definition Object_prototype_names : list string :=
  ["constructor"; "__defineGetter__"; "__defineSetter__"; "hasOwnProperty";
   "__lookupGetter__"; "__lookupSetter__"; "isPrototypeOf";
   "propertyIsEnumerable"; "toString"; "valueOf"; "__proto__";
   "toLocaleString"].

Section QueryParams.

(** The helpers never look into a number: they only turn it into a string.
    The numbers and [String(n)] are parameters. *)
Variable number : Type.
Variable Number_toString : number -> string.
Variable DEBUG : bool.

Inductive SerializablePrimitive :=
| PUndefined
| PNull
| PBool (b : bool)
| PNumber (n : number)
| PString (s : string).

(** A value of a query parameter: a primitive or an array of primitives. *)
Inductive Serializable :=
| Single (p : SerializablePrimitive)
| Many (items : list SerializablePrimitive).

(** An object with its own enumerable properties in the order in which
    [for...in] and [Object.keys] give them; the names of an object are
    distinct.  The prototype of the object is [Object.prototype]. *)
Abbreviation Dictionary := (list (string * Serializable)) (only parsing).

(** [object[key]] for an own property. *)
Fixpoint Dictionary_get (key : string) (object : list (string * Serializable))
  : option Serializable :=
  match object with
  | [] => None
  | (k, v) :: rest => if String.eqb k key then Some v else Dictionary_get key rest
  end.

(** [object[key] = value] for a name that is not [__proto__]: an own
    property keeps its place, a new one comes last. *)
Fixpoint Dictionary_set (key : string) (value : Serializable)
    (object : list (string * Serializable)) : list (string * Serializable) :=
  match object with
  | [] => [(key, value)]
  | (k, v) :: rest =>
      if String.eqb k key then (k, value) :: rest
      else (k, v) :: Dictionary_set key value rest
  end.

(** [String(v)] *)
Definition ToString (v : SerializablePrimitive) : string :=
  match v with
  | PUndefined => "undefined"
  | PNull => "null"
  | PBool true => "true"
  | PBool false => "false"
  | PNumber n => Number_toString n
  | PString s => s
  end.

Definition typeof_Serializable (value : Serializable) : string :=
  match value with
  | Single PUndefined => "undefined"
  | Single PNull => "object"
  | Single (PBool _) => "boolean"
  | Single (PNumber _) => "number"
  | Single (PString _) => "string"
  | Many _ => "object"
  end.

(** [array.join(sep)]: [undefined] and [null] give the empty string. *)
Definition Array_join (items : list SerializablePrimitive) (sep : string) : string :=
  String.concat sep
    (map (fun v => match v with
                   | PUndefined | PNull => ""
                   | _ => ToString v
                   end) items).

Definition isUndefined (v : SerializablePrimitive) : bool :=
  match v with
  | PUndefined => true
  | _ => false
  end.

(** [array.sort()] without a comparator: the elements by their strings,
    those that are [undefined] last. *)
Definition Array_sort (items : list SerializablePrimitive)
  : list SerializablePrimitive :=
  (sort_by (fun x y => String.leb (ToString x) (ToString y))
           (List.filter (fun v => negb (isUndefined v)) items)
   ++ List.filter isUndefined items)%list.

Definition handleInclude (include : Serializable) : result Serializable :=
  (assert DEBUG
     ("Expected include to be a string or array, got "
      ++ typeof_Serializable include)
     (match include with
      | Single (PString _) | Many _ => true
      | _ => false
      end) ;;
   Ok (match include with
       | Single (PString s) => Many (map PString (String_split "," s))
       | _ => include
       end))%result.

(** A value that [filterEmpty] takes for empty. *)
Definition isEmptyValue (value : Serializable) : bool :=
  match value with
  | Single PUndefined | Single PNull | Single (PString EmptyString) => true
  | Many [] => true
  | _ => false
  end.

(** The object that [filterEmpty] builds: its own properties, and the
    array that has become its prototype, [None] as long as the prototype is
    [Object.prototype]. *)
Record FilteredObject := {
  ownProperties : list (string * Serializable);
  arrayPrototype : option (list SerializablePrimitive);
}.

(** [filterEmpty(source)], for a source whose prototype is
    [Object.prototype].  The assignment [result[key] = source[key]] for the
    name [__proto__] goes to the setter that [Object.prototype] has for this
    name: it gives [result] no such property, it makes a value that is an
    array the prototype of [result], and it ignores a value that is no
    object.  Every other assignment makes an own property, also when the
    prototype is an array. *)
Definition filterEmpty (source : list (string * Serializable))
  : FilteredObject :=
  fold_left
    (fun result kv =>
       let key := fst kv in
       let value := snd kv in
       if negb (isEmptyValue value) then
         if String.eqb key "__proto__" then
           match value with
           | Many items =>
               {| ownProperties := ownProperties result;
                  arrayPrototype := Some items |}
           | Single _ => result
           end
         else
           {| ownProperties := Dictionary_set key value (ownProperties result);
              arrayPrototype := arrayPrototype result |}
       else result)
    source {| ownProperties := []; arrayPrototype := None |}.

Inductive QueryParamsSource :=
| FromObject (params : list (string * Serializable))
| FromURLSearchParams (params : list (string * string)).

Record QueryParamsSerializationOptions := {
  arrayFormat : option string;
}.

(** The callback of [params.forEach] in [sortQueryParams]. *)
Definition collect (dictionaryParams : list (string * Serializable))
    (key value : string) : list (string * Serializable) :=
  match Dictionary_get key dictionaryParams with
  | None => Dictionary_set key (Single (PString value)) dictionaryParams
  | Some (Many existingValue) =>
      Dictionary_set key (Many (existingValue ++ [PString value])) dictionaryParams
  | Some (Single existingValue) =>
      Dictionary_set key (Many [existingValue; PString value]) dictionaryParams
  end.

(** The dictionary of a [URLSearchParams].  [None]: one of the names is a
    name of [Object.prototype], so that [key in dictionaryParams] is
    answered by the prototype chain, which the embedding does not
    follow. *)
Fixpoint collectAll (pairs : list (string * string))
    (dictionaryParams : list (string * Serializable))
  : option (list (string * Serializable)) :=
  match pairs with
  | [] => Some dictionaryParams
  | (key, value) :: rest =>
      if bool_decide (key ∈ Object_prototype_names) then None
      else collectAll rest (collect dictionaryParams key value)
  end.

(** What the callback of [sortedKeys.forEach] appends for a value. *)
Definition appended (format key : string) (value : option Serializable)
  : list (string * string) :=
  match value with
  | Some (Many items) =>
      let value := Array_sort items in
      if String.eqb format "indices" then
        imap (fun i v => (key ++ "[" ++ decimal (N.of_nat i) ++ "]", ToString v))
             value
      else if String.eqb format "bracket" then
        map (fun v => (key ++ "[]", ToString v)) value
      else if String.eqb format "repeat" then
        map (fun v => (key, ToString v)) value
      else [(key, Array_join value ",")]
  | Some (Single v) => [(key, ToString v)]
  | None => [(key, "undefined")]
  end.

(** One round of [sortedKeys.forEach]: an array is sorted in place. *)
Definition visit (format : string)
    (state : list (string * string) * list (string * Serializable)) (key : string)
  : list (string * string) * list (string * Serializable) :=
  let urlParams := fst state in
  let dictionaryParams := snd state in
  let value := Dictionary_get key dictionaryParams in
  ((urlParams ++ appended format key value)%list,
   match value with
   | Some (Many items) =>
       Dictionary_set key (Many (Array_sort items)) dictionaryParams
   | _ => dictionaryParams
   end).

(** [sortQueryParams(params, options)]: the [URLSearchParams] that it
    returns, and [params] as the call leaves it. *)
Definition sortQueryParams (params : QueryParamsSource)
    (options : option QueryParamsSerializationOptions)
  : option (result (list (string * string) * QueryParamsSource)) :=
  let format := default "comma" (options ≫= arrayFormat) in
  dictionaryParams ←
    match params with
    | FromObject object => Some object
    | FromURLSearchParams pairs => collectAll pairs []
    end ;
  Some
    (dictionaryParams <-
       match Dictionary_get "include" dictionaryParams with
       | Some include =>
           (include <- handleInclude include ;;
            Ok (Dictionary_set "include" include dictionaryParams))
       | None => Ok dictionaryParams
       end ;;
     let sortedKeys := sort_by String.leb (map fst dictionaryParams) in
     let done := fold_left (visit format) sortedKeys ([], dictionaryParams) in
     Ok (fst done,
         match params with
         | FromObject _ => FromObject (snd done)
         | FromURLSearchParams _ => params
         end))%result.

Definition buildQueryParams (params : QueryParamsSource)
    (options : option QueryParamsSerializationOptions)
  : option (result (string * QueryParamsSource)) :=
  r ← sortQueryParams params options ;
  Some (done <- r ;; Ok (URLSearchParams_toString (fst done), snd done))%result.

End QueryParams.

Arguments PUndefined {number}.
Arguments PNull {number}.
Arguments PBool {number} b.
Arguments PNumber {number} n.
Arguments PString {number} s.
Arguments Single {number} p.
Arguments Many {number} items.
Arguments FromObject {number} params.
Arguments FromURLSearchParams {number} params.
Arguments Dictionary_get {number} key object.
Arguments Dictionary_set {number} key value object.
Arguments isEmptyValue {number} value.
Arguments filterEmpty {number} source.
Arguments ownProperties {number} _.
Arguments arrayPrototype {number} _.
Arguments isUndefined {number} v.

(* ================================================================= *)
(** ** Notions used in the further statements *)

(** *** Parsing *)

(** The header without its blanks. *)
Fixpoint without_blanks (s : string) : string :=
  match s with
  | EmptyString => EmptyString
  | String c t =>
      if is_blank c then without_blanks t else String c (without_blanks t)
  end.

(** The last character of the header is a blank. *)
Definition ends_with_blank (s : string) : bool :=
  match last_char None s with
  | Some c => is_blank c
  | None => false
  end.

(** A numeric key holds a number that is neither [NaN] nor negative, every
    other key holds [true]. *)
Definition field_typed (k : string) (f : CacheControlField) : Prop :=
  if NUMERIC_KEYS_has k
  then exists n, f = CNum n /\ Js.isNaN n = false /\ Js.ge n (Js.Num 0) = true
  else f = CTrue.

Definition fields_typed (ccv : gmap string CacheControlField) : Prop :=
  forall k f, ccv !! k = Some f -> field_typed k f.

(** A directive as it is written: the key and, after [=], the value. *)
Definition directive_text (d : string * option string) : string :=
  match snd d with
  | Some v => fst d ++ "=" ++ v
  | None => fst d
  end.

Fixpoint blanks (s : string) : bool :=
  match s with
  | EmptyString => true
  | String c t => is_blank c && blanks t
  end.

(** A directive that no assertion of the parser objects to: a key without
    separators, a value, if there is one, without separators and not empty,
    and for a numeric key a value that [parseInt] reads as a number that is
    not negative. *)
Definition directive_ok (d : string * option string) : bool :=
  plain (fst d) && negb (String.eqb (fst d) "")
  && match snd d with
     | Some v =>
         plain v && negb (String.eqb v "")
         && (negb (NUMERIC_KEYS_has (fst d))
             || negb (Js.isNaN (Js.parseInt v 0))
                && Js.ge (Js.parseInt v 0) (Js.Num 0))
     | None => negb (NUMERIC_KEYS_has (fst d))
     end.

Definition directive_field (d : string * option string) : CacheControlField :=
  if NUMERIC_KEYS_has (fst d)
  then CNum (Js.parseInt (default "" (snd d)) 0)
  else CTrue.

(** The fields that a list of directives leaves in the object, the later
    ones over the earlier ones. *)
Definition directive_fields (ds : list (string * option string))
    (o : gmap string CacheControlField) : gmap string CacheControlField :=
  fold_left (fun o d => <[fst d := directive_field d]> o) ds o.

(** *** The policy *)

(** Every per-type set of the record holds an identifier once. *)
Definition sets_nodup (sc : StoreCache) : Prop :=
  forall type set, types sc !! type = Some set -> NoDup set.

(** The config without its [constraints]. *)
Definition without_constraints (config : PolicyConfig) : PolicyConfig :=
  {| apiCacheSoftExpires := apiCacheSoftExpires config;
     apiCacheHardExpires := apiCacheHardExpires config;
     disableTestOptimization := disableTestOptimization config;
     constraints := None |}.

Definition no_header_constraint : HeaderConstraints :=
  {| constraint_Cache_Control := false; constraint_Expires := false;
     constraint_X_WarpDrive_Expires := false |}.

(** The config whose hard duration is the soft one. *)
Definition with_soft_as_hard (config : PolicyConfig) : PolicyConfig :=
  {| apiCacheSoftExpires := apiCacheSoftExpires config;
     apiCacheHardExpires := apiCacheSoftExpires config;
     disableTestOptimization := disableTestOptimization config;
     constraints := constraints config |}.

(** The magnitude that [Js.toNumber] rounds to. *)
Definition rounded (a : Z) : Z :=
  if a <=? 2 ^ 53 then a
  else
    let ulp := 2 ^ (Z.log2 a - 52) in
    let q := a / ulp in
    let r := a mod ulp in
    let half := ulp / 2 in
    (if r <? half then q
     else if half <? r then q + 1
     else if Z.even q then q else q + 1) * ulp.

(** *** URLs *)

Definition no_slash (s : string) : bool :=
  forallb (fun c => negb (Ascii.eqb c "/")) (list_ascii_of_string s).

(** The options with another [op], another [host]. *)
Definition with_op (options : UrlOptions.t) (name : string) : UrlOptions.t :=
  {| UrlOptions.op := Some name;
     UrlOptions.identifier := UrlOptions.identifier options;
     UrlOptions.identifiers := UrlOptions.identifiers options;
     UrlOptions.fieldPath := UrlOptions.fieldPath options;
     UrlOptions.resourcePath := UrlOptions.resourcePath options;
     UrlOptions.host := UrlOptions.host options;
     UrlOptions.namespace := UrlOptions.namespace options |}.

Definition with_host (options : UrlOptions.t) (host : string) : UrlOptions.t :=
  {| UrlOptions.op := UrlOptions.op options;
     UrlOptions.identifier := UrlOptions.identifier options;
     UrlOptions.identifiers := UrlOptions.identifiers options;
     UrlOptions.fieldPath := UrlOptions.fieldPath options;
     UrlOptions.resourcePath := UrlOptions.resourcePath options;
     UrlOptions.host := Some host;
     UrlOptions.namespace := UrlOptions.namespace options |}.

Definition with_host_and_namespace (options : UrlOptions.t) (host namespace : string)
  : UrlOptions.t :=
  {| UrlOptions.op := UrlOptions.op options;
     UrlOptions.identifier := UrlOptions.identifier options;
     UrlOptions.identifiers := UrlOptions.identifiers options;
     UrlOptions.fieldPath := UrlOptions.fieldPath options;
     UrlOptions.resourcePath := UrlOptions.resourcePath options;
     UrlOptions.host := Some host;
     UrlOptions.namespace := Some namespace |}.

(** The host that [buildBaseURL] uses. *)
Definition host_of (C : CONFIG) (options : UrlOptions.t) : string :=
  default (CONFIG_host C) (UrlOptions.host options).

(** *** Query parameters *)

(** The order of strings by their code units. *)
Definition string_le (s t : string) : Prop := String.leb s t = true.

(** What [filterEmpty] keeps of an object. *)
Definition kept {number : Type} (kv : string * Serializable number) : bool :=
  negb (isEmptyValue (snd kv)) && negb (String.eqb (fst kv) "__proto__").

(** The array that [filterEmpty] makes the prototype of its result: the
    value of an own property [__proto__] of the source, when that is an
    array that is not empty. *)
Definition prototype_of {number : Type}
    (source : list (string * Serializable number))
  : option (list (SerializablePrimitive number)) :=
  match Dictionary_get "__proto__" source with
  | Some (Many (item :: items)) => Some (item :: items)
  | _ => None
  end.

(** [{ a: 1, __proto__: ['x'], b: '' }], with [__proto__] an own property
    as [JSON.parse] makes it. *)
Definition example_params_with_prototype : list (string * Serializable N) :=
  [("a", Single (PNumber 1%N));
   ("__proto__", Many [PString "x"]);
   ("b", Single (PString ""))].

Section QueryParams_notions.
Variable number : Type.
Variable Number_toString : number -> string.
Variable DEBUG : bool.

(** A value as a call of [sortQueryParams] leaves it: an array is sorted. *)
Definition sorted_value (value : Serializable number) : Serializable number :=
  match value with
  | Many items => Many (Array_sort number Number_toString items)
  | Single _ => value
  end.

(** An entry after the round of the loop for [key], after the rounds for
    [keys]. *)
Definition sort_at (key : string) (kv : string * Serializable number)
  : string * Serializable number :=
  if String.eqb (fst kv) key then (fst kv, sorted_value (snd kv)) else kv.

Definition sort_all (keys : list string) (kv : string * Serializable number)
  : string * Serializable number :=
  if bool_decide (fst kv ∈ keys) then (fst kv, sorted_value (snd kv)) else kv.

(** The dictionary after the step for [include]. *)
Definition withInclude (d : list (string * Serializable number))
  : result (list (string * Serializable number)) :=
  match Dictionary_get "include" d with
  | Some include =>
      (include <- handleInclude number DEBUG include ;;
       Ok (Dictionary_set "include" include d))%result
  | None => Ok d
  end.

(** The pairs that an entry of the dictionary stands for. *)
Definition pairs_of (kv : string * Serializable number) : list (string * string) :=
  match snd kv with
  | Single p => [(fst kv, ToString number Number_toString p)]
  | Many items => map (fun v => (fst kv, ToString number Number_toString v)) items
  end.

End QueryParams_notions.

(** What was returned, without the state of the argument. *)
Definition returned {A B} (r : option (result (A * B))) : option (result A) :=
  option_map (fun r => (x <- r ;; Ok (fst x))%result) r.

(** The characters of a serialized query string. *)
Definition query_char (c : ascii) : bool :=
  urlencodedUnreserved c || is_one_of "+%=&" c.

Definition all_chars (P : ascii -> bool) (s : string) : bool :=
  forallb P (list_ascii_of_string s).

(** *** Fixtures for the further statements *)

Definition example_CONFIG : CONFIG :=
  {| CONFIG_host := "https://api.example.com"; CONFIG_namespace := "api/v1" |}.

Definition example_UrlOptions : UrlOptions.t :=
  {| UrlOptions.op := Some "findRecord";
     UrlOptions.identifier :=
       Some {| Identifier.type := Some "ember-developer";
               Identifier.id := Some "a/b" |};
     UrlOptions.identifiers := None;
     UrlOptions.fieldPath := None;
     UrlOptions.resourcePath := None;
     UrlOptions.host := None;
     UrlOptions.namespace := None |}.

(** Numbers for the examples: integers, written in decimal. *)
Definition example_Number_toString (n : N) : string := decimal n.

(** A response whose [Date] header is no date. *)
Definition headers_bad_date : gmap string string :=
  Headers_new [("Date", "yesterday")].

(** A response with all the headers that a constraint may read. *)
Definition headers_all : gmap string string :=
  Headers_new [("X-WarpDrive-Expires", "Tue, 14 Nov 2023 22:13:10 GMT");
               ("Cache-Control", "max-age=100"); ("Age", "150");
               ("Expires", "Tue, 14 Nov 2023 22:12:10 GMT");
               ("Date", "Tue, 14 Nov 2023 22:13:19 GMT")].

(** A store whose cache holds, under [doc], a response without headers. *)
Definition store_without_headers : Store :=
  {| store_ref := 1%positive;
     peekRequest := fun identifier =>
       if String.eqb identifier "doc"
       then Some {| response := Some {| headers := None; status := 200 |} |}
       else None |}.

Definition example_config_with (ch : option HeaderConstraints)
    (isExpired : option (StructuredDocument -> option bool)) : PolicyConfig :=
  {| apiCacheSoftExpires := Js.Num 30000;
     apiCacheHardExpires := Js.Num 60000;
     disableTestOptimization := false;
     constraints :=
       Some {| constraints_headers := ch; constraints_isExpired := isExpired |} |}.

Definition only_X_WarpDrive_Expires : HeaderConstraints :=
  {| constraint_Cache_Control := false; constraint_Expires := false;
     constraint_X_WarpDrive_Expires := true |}.

(** An object that is no config. *)
Definition store_object : jsval := JObject (props_of []).

(** [{ host: 'https://api.example.com/' }] *)
Definition example_BuildURLConfig : BuildURLConfig.t :=
  {| BuildURLConfig.host := Some (Some "https://api.example.com/");
     BuildURLConfig.namespace := None |}.

(** [{ op: 'findRecord', resourcePath: 'users' }] *)
Definition options_without_identifier (resourcePath : option string)
  : UrlOptions.t :=
  {| UrlOptions.op := Some "findRecord";
     UrlOptions.identifier := None;
     UrlOptions.identifiers := None;
     UrlOptions.fieldPath := None;
     UrlOptions.resourcePath := resourcePath;
     UrlOptions.host := None;
     UrlOptions.namespace := None |}.

(** [{ name: 'Chris', include: 'pets,friends', ids: [10, 9], page: '' }] *)
Definition example_params : list (string * Serializable N) :=
  [("name", Single (PString "Chris"));
   ("include", Single (PString "pets,friends"));
   ("ids", Many [PNumber 10%N; PNumber 9%N]);
   ("page", Single (PString ""))].

(** The same properties in another order. *)
Definition example_params_reordered : list (string * Serializable N) :=
  [("ids", Many [PNumber 10%N; PNumber 9%N]);
   ("page", Single (PString ""));
   ("name", Single (PString "Chris"));
   ("include", Single (PString "pets,friends"))].

(* ================================================================= *)
(** * Properties *)

(** ** Numbers and numerals *)

Lemma toNumber_exact z : Z.abs z <= 2 ^ 53 -> Js.toNumber z = Js.Num z.
Proof.
  intros H. unfold Js.toNumber.
  destruct (Z.leb_spec (Z.abs z) (2 ^ 53)); [reflexivity | lia].
Qed.

Lemma append_cons x (a b : string) : String x a ++ b = String x (a ++ b).
Proof. reflexivity. Qed.

Lemma append_assoc (a b c : string) : (a ++ b) ++ c = a ++ (b ++ c).
Proof.
  induction a as [| x a IH]; [reflexivity |].
  rewrite !append_cons. now rewrite IH.
Qed.

Lemma append_empty_r (a : string) : a ++ "" = a.
Proof.
  induction a as [| x a IH]; [reflexivity |].
  rewrite append_cons. now rewrite IH.
Qed.

Lemma append_nonempty_r (a b : string) : b <> "" -> String.eqb (a ++ b) "" = false.
Proof.
  intros Hb. destruct a; [| reflexivity].
  change ("" ++ b) with b. destruct b; [contradiction | reflexivity].
Qed.

Lemma push_append s c t : push s c ++ t = s ++ String c t.
Proof. unfold push. now rewrite append_assoc. Qed.

(** Reading a numeral digit by digit, most significant first, against the
    library's value of the reversed numeral. *)
Lemma decimal_digits d r :
  Js.digits 10 (NilEmpty.string_of_uint d) (Some (Z.of_N (Unsigned.of_lu r)))
  = Some (Z.of_N (Unsigned.of_lu (Decimal.revapp d r))).
Proof.
  revert r. induction d; intros r; simpl; [reflexivity | ..];
    rewrite <- IHd; simpl Unsigned.of_lu; do 2 f_equal; lia.
Qed.

Lemma decimal_digits_start d :
  d <> Decimal.Nil ->
  Js.digits 10 (NilEmpty.string_of_uint d) None
  = Some (Z.of_N (N.of_uint d)).
Proof.
  intros Hd. unfold N.of_uint. rewrite Unsigned.of_uint_alt. unfold Decimal.rev.
  rewrite <- decimal_digits. simpl Unsigned.of_lu.
  destruct d; [contradiction | ..]; reflexivity.
Qed.

Lemma trimStart_numeral d :
  Js.trimStart (NilEmpty.string_of_uint d) = NilEmpty.string_of_uint d.
Proof. destruct d; reflexivity. Qed.

Lemma splitSign_numeral d :
  Js.splitSign (NilEmpty.string_of_uint d) = (1, NilEmpty.string_of_uint d).
Proof. destruct d; reflexivity. Qed.

Lemma hasHexPrefix_numeral d :
  Js.hasHexPrefix (NilEmpty.string_of_uint d) = false.
Proof.
  destruct d as [| d | | | | | | | | |]; try reflexivity.
  destruct d; reflexivity.
Qed.

Lemma parseInt_numeral d :
  d <> Decimal.Nil ->
  Js.parseInt (NilEmpty.string_of_uint d) 0 = Js.toNumber (Z.of_N (N.of_uint d)).
Proof.
  intros Hd. unfold Js.parseInt.
  rewrite trimStart_numeral, splitSign_numeral.
  change (negb (0 =? 0) && ((0 <? 2) || (36 <? 0))) with false.
  change ((0 =? 0) || (0 =? 16)) with true.
  rewrite hasHexPrefix_numeral. cbn [andb].
  change (if 0 =? 0 then 10 else 0) with 10. cbv iota beta zeta.
  rewrite (decimal_digits_start d Hd). f_equal. lia.
Qed.

Lemma to_uint_nonnil n : N.to_uint n <> Decimal.Nil.
Proof. destruct n; simpl; [discriminate | apply Unsigned.to_uint_nonnil]. Qed.

(** [parseInt] of a decimal numeral is the Number value of the integer. *)
Lemma parseInt_decimal n : Js.parseInt (decimal n) 0 = Js.toNumber (Z.of_N n).
Proof.
  unfold decimal. rewrite parseInt_numeral by apply to_uint_nonnil.
  now rewrite DecimalN.Unsigned.of_to.
Qed.

Lemma plain_numeral d : plain (NilEmpty.string_of_uint d) = true.
Proof. induction d; simpl; [reflexivity | ..]; exact IHd. Qed.

Lemma decimal_nonempty n : decimal n <> "".
Proof.
  unfold decimal. pose proof (to_uint_nonnil n).
  destruct (N.to_uint n); [contradiction | ..]; discriminate.
Qed.

(* ================================================================= *)
(** ** The memo is transparent *)

Section Memo.
Context {V : Type} (doWork : string -> result V).

Local Abbreviation entries_ok l :=
  (Forall (fun kv : string * V => doWork (fst kv) = Ok (snd kv)) l).

Lemma lookup_entries_ok k l v :
  entries_ok l -> LRUCache.lookup k l = Some v -> doWork k = Ok v.
Proof.
  induction 1 as [| [k' v'] l Hkv Hl IH]; simpl; [discriminate |].
  destruct (String.eqb_spec k k') as [-> | _]; [| exact IH].
  intros [= <-]. exact Hkv.
Qed.

Lemma remove_entries_ok k l : entries_ok l -> entries_ok (LRUCache.remove k l).
Proof.
  induction 1 as [| [k' v'] l Hkv Hl IH]; simpl; [constructor |].
  destruct (String.eqb k k'); [exact IH | constructor; assumption].
Qed.

Lemma tl_entries_ok l : entries_ok l -> entries_ok (tl l).
Proof. destruct 1; simpl; [constructor | assumption]. Qed.

(** A coherent cache answers as the work would. *)
Lemma get_result k c :
  LRUCache.coherent doWork c -> fst (LRUCache.get doWork k c) = doWork k.
Proof.
  unfold LRUCache.coherent. intros Hc. unfold LRUCache.get.
  destruct (LRUCache.lookup k (LRUCache.state c)) as [v |] eqn:Hk.
  - simpl. symmetry. eapply lookup_entries_ok; eassumption.
  - destruct (doWork k); reflexivity.
Qed.

Lemma get_coherent k c :
  LRUCache.coherent doWork c ->
  LRUCache.coherent doWork (snd (LRUCache.get doWork k c)).
Proof.
  unfold LRUCache.coherent. intros Hc. unfold LRUCache.get.
  destruct (LRUCache.lookup k (LRUCache.state c)) as [v |] eqn:Hk.
  - simpl. apply Forall_app. split.
    + apply remove_entries_ok, Hc.
    + constructor; [| constructor]. simpl.
      eapply lookup_entries_ok; eassumption.
  - destruct (doWork k) as [v | e] eqn:Hw; simpl; [| exact Hc].
    apply Forall_app. split.
    + apply remove_entries_ok.
      destruct (Nat.eqb _ _); [apply tl_entries_ok |]; exact Hc.
    + constructor; [exact Hw | constructor].
Qed.

End Memo.

Lemma memo_coherent_initial DEBUG : memo_coherent DEBUG initialWorld.
Proof. constructor. Qed.

Section Parse_memo.
Variable DEBUG : bool.

Lemma parseCacheControl_spec header w :
  memo_coherent DEBUG w ->
  exists w',
    parseCacheControl DEBUG header w = (parseHeader DEBUG header, w')
    /\ _stores w' = _stores w /\ notified w' = notified w
    /\ memo_coherent DEBUG w'.
Proof.
  intros Hw. unfold parseCacheControl.
  pose proof (get_result (parseHeader DEBUG) header _ Hw) as Hr.
  pose proof (get_coherent (parseHeader DEBUG) header _ Hw) as Hc.
  destruct (LRUCache.get (parseHeader DEBUG) header (CACHE_CONTROL_CACHE w))
    as [r c]. simpl in Hr, Hc. subst r.
  eexists. split; [reflexivity |]. simpl. auto.
Qed.

Lemma parseCacheControl_frame header w :
  _stores (snd (parseCacheControl DEBUG header w)) = _stores w
  /\ notified (snd (parseCacheControl DEBUG header w)) = notified w.
Proof.
  unfold parseCacheControl.
  destruct (LRUCache.get _ _ _); simpl. auto.
Qed.

Lemma parseCacheControl_result header w :
  memo_coherent DEBUG w ->
  fst (parseCacheControl DEBUG header w) = parseHeader DEBUG header.
Proof.
  intros Hw. destruct (parseCacheControl_spec header w Hw) as (w' & -> & _).
  reflexivity.
Qed.

End Parse_memo.

(* ================================================================= *)
(** ** The parsing loop on plain text *)

Lemma feed_empty st : feed st "" = st.
Proof.
  destruct st as [k v p o]. unfold feed. simpl.
  destruct p; now rewrite append_empty_r.
Qed.

Lemma feed_cons st c s : feed (feed st (String c "")) s = feed st (String c s).
Proof.
  destruct st as [k v p o]. unfold feed. simpl.
  destruct p; simpl; now rewrite append_assoc.
Qed.

Section Parser.
Variable DEBUG : bool.

Lemma parseLoop_plain_char prev c tl st :
  negb (is_comma c || is_equals c || is_blank c) = true ->
  parseLoop DEBUG prev (String c tl) st =
  (st'' <- (if String.eqb tl "" then
              (o <- storeDirective DEBUG (feed st (String c "")) ;;
               Ok {| key := key (feed st (String c ""));
                     value := value (feed st (String c ""));
                     isParsingKey := isParsingKey (feed st (String c ""));
                     cacheControlValue := o |})
            else Ok (feed st (String c ""))) ;;
   parseLoop DEBUG (Some c) tl st'')%result.
Proof.
  intros Hc. apply negb_true_iff in Hc.
  apply orb_false_iff in Hc as [Hc Hb]. apply orb_false_iff in Hc as [Hc He].
  cbn [parseLoop]. rewrite Hc, He, Hb. cbn [rbind].
  destruct st as [k v p o]. unfold feed, push.
  cbn [isParsingKey key value cacheControlValue].
  destruct p; reflexivity.
Qed.

(** Plain characters before more input are collected into the key or the
    value. *)
Lemma parseLoop_plain_more s : forall prev rest st,
  plain s = true -> rest <> "" ->
  parseLoop DEBUG prev (s ++ rest) st
  = parseLoop DEBUG (last_char prev s) rest (feed st s).
Proof.
  induction s as [| c s IH]; intros prev rest st Hs Hrest.
  - now rewrite feed_empty.
  - cbn [plain] in Hs. apply andb_true_iff in Hs as [Hc Hs].
    rewrite append_cons, parseLoop_plain_char by exact Hc.
    rewrite append_nonempty_r by exact Hrest. cbn [rbind].
    rewrite IH by assumption. now rewrite feed_cons.
Qed.

(** Plain characters that end the header are collected and stored. *)
Lemma parseLoop_plain_end s : forall prev st,
  plain s = true -> s <> "" ->
  parseLoop DEBUG prev s st = storeDirective DEBUG (feed st s).
Proof.
  induction s as [| c s IH]; intros prev st Hs Hne; [contradiction |].
  cbn [plain] in Hs. apply andb_true_iff in Hs as [Hc Hs].
  rewrite parseLoop_plain_char by exact Hc.
  destruct s as [| c' s'].
  - cbn [String.eqb rbind]. destruct (storeDirective DEBUG _); reflexivity.
  - cbn [String.eqb rbind]. rewrite IH by (assumption || discriminate).
    now rewrite feed_cons.
Qed.

Lemma parseLoop_equals prev tl st :
  tl <> "" ->
  parseLoop DEBUG prev (String "=" tl) st
  = parseLoop DEBUG (Some "="%char) tl
      {| key := key st; value := value st; isParsingKey := false;
         cacheControlValue := cacheControlValue st |}.
Proof.
  intros Htl. cbn [parseLoop]. change (is_comma "=") with false.
  change (is_equals "=") with true. cbv iota.
  unfold assert, assertE.
  assert (Hne : String.eqb tl "" = false)
    by (destruct tl; [contradiction | reflexivity]).
  rewrite Hne. destruct DEBUG; reflexivity.
Qed.

Lemma parseCacheControlValue_number s z :
  Js.parseInt s 0 = Js.Num z -> 0 <= z ->
  parseCacheControlValue DEBUG s = Ok (Js.Num z).
Proof.
  intros Hs Hz. unfold parseCacheControlValue, assert, assertE. rewrite Hs.
  cbn [Js.isNaN negb Js.ge Js.lt orb rbind].
  destruct (Z.leb_spec 0 z); [| lia]. destruct (Z.ltb_spec z 0); [lia |].
  destruct DEBUG; reflexivity.
Qed.

End Parser.

Lemma parseCacheControlValue_production s :
  Js.parseInt s 0 = Js.NaN \/ Js.lt (Js.parseInt s 0) (Js.Num 0) = true ->
  parseCacheControlValue false s = Ok (Js.Num 0).
Proof.
  intros H. unfold parseCacheControlValue, assert, assertE. cbn [rbind].
  destruct H as [-> | ->]; [reflexivity | now rewrite orb_true_r].
Qed.

(** Without assertions the loop returns on every input. *)
Lemma parseLoop_production_total header : forall prev st,
  is_Ok (parseLoop false prev header st).
Proof.
  assert (Hstore : forall st, is_Ok (storeDirective false st)).
  { intros st. unfold storeDirective, parseCacheControlValue, assert, assertE.
    destruct (NUMERIC_KEYS_has (key st)); cbn [rbind]; [| eexists; reflexivity].
    destruct (_ || _); cbn [rbind]; eexists; reflexivity. }
  induction header as [| c tl IH]; intros prev st; [eexists; reflexivity |].
  cbn [parseLoop]. unfold assert, assertE. cbn [rbind].
  destruct (is_comma c).
  - destruct (Hstore st) as [o ->]. cbn [rbind]. apply IH.
  - destruct (is_equals c); cbn [rbind].
    + destruct (String.eqb tl ""); cbn [rbind]; [| apply IH].
      match goal with
      | |- context [storeDirective false ?s] => destruct (Hstore s) as [o ->]
      end.
      cbn [rbind]. apply IH.
    + destruct (is_blank c); cbn [rbind]; [apply IH |].
      destruct (isParsingKey st); cbn [rbind];
        (destruct (String.eqb tl ""); cbn [rbind]; [| apply IH]);
        match goal with
        | |- context [storeDirective false ?s] => destruct (Hstore s) as [o ->]
        end;
        cbn [rbind]; apply IH.
Qed.

Lemma numeric_key_plain k : NUMERIC_KEYS_has k = true -> plain k = true.
Proof.
  unfold NUMERIC_KEYS_has, NUMERIC_KEYS. intros H.
  apply bool_decide_eq_true_1 in H.
  rewrite !elem_of_union, !elem_of_singleton in H.
  destruct H as [[[-> | ->] | ->] | ->]; reflexivity.
Qed.

Lemma numeric_key_not_proto k :
  NUMERIC_KEYS_has k = true -> String.eqb k "__proto__" = false.
Proof.
  unfold NUMERIC_KEYS_has, NUMERIC_KEYS. intros H.
  apply bool_decide_eq_true_1 in H.
  rewrite !elem_of_union, !elem_of_singleton in H.
  destruct H as [[[-> | ->] | ->] | ->]; reflexivity.
Qed.

Lemma storeDirective_production_total st : is_Ok (storeDirective false st).
Proof.
  unfold storeDirective, parseCacheControlValue, assert, assertE.
  destruct (NUMERIC_KEYS_has (key st)); cbn [rbind]; [| eexists; reflexivity].
  destruct (_ || _); cbn [rbind]; eexists; reflexivity.
Qed.

(** Without assertions the loop does not look at the character before. *)
Lemma parseLoop_production_prev rest : forall prev prev' st,
  parseLoop false prev rest st = parseLoop false prev' rest st.
Proof.
  destruct rest as [| c tl]; intros prev prev' st; [reflexivity |].
  cbn [parseLoop]. unfold assert, assertE. reflexivity.
Qed.

(** Without assertions, blanks are passed over. *)
Lemma parseLoop_production_blanks gap : forall prev rest st,
  blanks gap = true ->
  parseLoop false prev (gap ++ rest) st = parseLoop false prev rest st.
Proof.
  induction gap as [| c gap IH]; intros prev rest st Hgap; [reflexivity |].
  cbn [blanks] in Hgap. apply andb_true_iff in Hgap as [Hc Hgap].
  rewrite append_cons. cbn [parseLoop].
  assert (Hcomma : is_comma c = false).
  { unfold is_blank in Hc. unfold is_comma.
    destruct (Ascii.eqb_spec c ","); [subst c; discriminate Hc | reflexivity]. }
  assert (Heq : is_equals c = false).
  { unfold is_blank in Hc. unfold is_equals.
    destruct (Ascii.eqb_spec c "="); [subst c; discriminate Hc | reflexivity]. }
  rewrite Hcomma, Heq, Hc. cbn [rbind]. rewrite IH by exact Hgap.
  apply parseLoop_production_prev.
Qed.

(** Without assertions, the input up to a comma and the comma leave the
    loop at the start of a directive, with the object that this input
    parses to. *)
Lemma parseLoop_production_comma before : forall prev st tail o,
  parseLoop false prev (before ++ ",") st = Ok o ->
  parseLoop false prev (before ++ String "," tail) st
  = parseLoop false (Some ","%char) tail
      {| key := ""; value := ""; isParsingKey := true; cacheControlValue := o |}.
Proof.
  induction before as [| c tl IH]; intros prev st tail o.
  - change ("" ++ ",") with ",". change ("" ++ String "," tail) with (String "," tail).
    cbn [parseLoop]. change (is_comma ",") with true. cbv iota.
    unfold assert, assertE. cbn [rbind].
    destruct (storeDirective false st) as [o' | e]; cbn [rbind]; intros H;
      [injection H as ->; reflexivity | discriminate H].
  - assert (Hne1 : String.eqb (tl ++ ",") "" = false)
      by (destruct tl; reflexivity).
    assert (Hne2 : String.eqb (tl ++ String "," tail) "" = false)
      by (destruct tl; reflexivity).
    rewrite !append_cons. cbn [parseLoop]. unfold assert, assertE.
    cbn [rbind]. rewrite Hne1, Hne2.
    destruct (is_comma c).
    + destruct (storeDirective false st) as [o' | e]; cbn [rbind];
        [apply IH | intros H; discriminate H].
    + destruct (is_equals c); cbn [rbind]; [apply IH |].
      destruct (is_blank c); cbn [rbind]; [apply IH |].
      destruct (isParsingKey st); cbn [rbind]; apply IH.
Qed.

Lemma storeDirective_production_zero k v o p :
  NUMERIC_KEYS_has k = true ->
  Js.parseInt v 0 = Js.NaN \/ Js.lt (Js.parseInt v 0) (Js.Num 0) = true ->
  storeDirective false
    {| key := k; value := v; isParsingKey := p; cacheControlValue := o |}
  = Ok (<[k := CNum (Js.Num 0)]> o).
Proof.
  intros Hk Hbad. unfold storeDirective. cbn [key value cacheControlValue].
  rewrite Hk, (parseCacheControlValue_production v Hbad),
    (numeric_key_not_proto k Hk).
  reflexivity.
Qed.

(** An unreadable numeric directive [k=v] at the end of the header. *)
Lemma parseLoop_production_zero_end k v prev o :
  NUMERIC_KEYS_has k = true ->
  plain v = true ->
  Js.parseInt v 0 = Js.NaN \/ Js.lt (Js.parseInt v 0) (Js.Num 0) = true ->
  parseLoop false prev (k ++ "=" ++ v)
    {| key := ""; value := ""; isParsingKey := true; cacheControlValue := o |}
  = Ok (<[k := CNum (Js.Num 0)]> o).
Proof.
  intros Hk Hv Hbad.
  rewrite parseLoop_plain_more
    by (apply numeric_key_plain, Hk || discriminate).
  change ("=" ++ v) with (String "=" v).
  unfold feed. cbn [isParsingKey key value cacheControlValue].
  change ("" ++ k) with k.
  destruct v as [| c v'].
  - cbn [parseLoop]. change (is_comma "=") with false.
    change (is_equals "=") with true. cbv iota.
    unfold assert, assertE.
    cbn [rbind String.eqb isParsingKey key value cacheControlValue].
    rewrite storeDirective_production_zero by assumption. reflexivity.
  - rewrite parseLoop_equals by discriminate.
    rewrite parseLoop_plain_end by (exact Hv || discriminate).
    unfold feed. cbn [isParsingKey key value cacheControlValue].
    change ("" ++ String c v') with (String c v').
    now apply storeDirective_production_zero.
Qed.

(** An unreadable numeric directive [k=v] before a comma. *)
Lemma parseLoop_production_zero_comma k v prev rest o :
  NUMERIC_KEYS_has k = true ->
  plain v = true ->
  Js.parseInt v 0 = Js.NaN \/ Js.lt (Js.parseInt v 0) (Js.Num 0) = true ->
  parseLoop false prev (k ++ "=" ++ v ++ "," ++ rest)
    {| key := ""; value := ""; isParsingKey := true; cacheControlValue := o |}
  = parseLoop false (Some ","%char) rest
      {| key := ""; value := ""; isParsingKey := true;
         cacheControlValue := <[k := CNum (Js.Num 0)]> o |}.
Proof.
  intros Hk Hv Hbad.
  rewrite parseLoop_plain_more by (apply numeric_key_plain, Hk || discriminate).
  change ("=" ++ v ++ "," ++ rest) with (String "=" (v ++ "," ++ rest)).
  rewrite parseLoop_equals by (destruct v; discriminate).
  rewrite parseLoop_plain_more by (exact Hv || discriminate).
  change ("," ++ rest) with (String "," rest).
  cbn [parseLoop]. change (is_comma ",") with true. cbv iota.
  unfold assert, assertE, feed.
  cbn [rbind isParsingKey key value cacheControlValue].
  change ("" ++ k) with k. change ("" ++ v) with v.
  rewrite storeDirective_production_zero by assumption. reflexivity.
Qed.

(* ================================================================= *)
(** ** Effects on the policy's records *)

Lemma record_of_view w store : record_of w store = view w (store_ref store).
Proof. reflexivity. Qed.

Lemma view_insert w ref r sc ns c :
  view {| _stores := <[ref := sc]> (_stores w); notified := ns;
          CACHE_CONTROL_CACHE := c |} r
  = if decide (r = ref) then sc else view w r.
Proof.
  unfold view. simpl. rewrite lookup_insert.
  destruct (decide (ref = r)), (decide (r = ref)); try congruence; reflexivity.
Qed.

Lemma view_effect ref g s w r :
  view (effect ref g s w) r = if decide (r = ref) then g (view w r) else view w r.
Proof.
  unfold effect. rewrite view_insert. now destruct (decide (r = ref)) as [-> |].
Qed.

Lemma effect_ext_at ref g g' s s' w :
  g (view w ref) = g' (view w ref) -> s (view w ref) = s' (view w ref) ->
  effect ref g s w = effect ref g' s' w.
Proof. intros Hg Hs. unfold effect. now rewrite Hg, Hs. Qed.

Lemma effect_effect ref g1 g2 s1 s2 w :
  effect ref g2 s2 (effect ref g1 s1 w)
  = effect ref (fun sc => g2 (g1 sc)) (fun sc => (s1 sc ++ s2 (g1 sc))%list) w.
Proof.
  unfold effect at 1 2. rewrite view_insert, decide_True by reflexivity.
  unfold effect. simpl. rewrite insert_insert_eq. unfold notes.
  now rewrite map_app, app_assoc.
Qed.

Lemma effect_present ref g s w : is_Some (_stores (effect ref g s w) !! ref).
Proof. unfold effect. simpl. rewrite lookup_insert_eq. eauto. Qed.

Lemma acts_effect ref m g s w :
  acts ref m g s -> is_Some (_stores w !! ref) -> m w = (Ok tt, effect ref g s w).
Proof. intros H Hw. exact (H w Hw). Qed.

Lemma acts_ret ref : acts ref (ret tt) (fun sc => sc) (fun _ => []).
Proof.
  intros w [sc Hsc]. unfold ret, effect, view, notes. rewrite Hsc. simpl.
  rewrite insert_id by exact Hsc. rewrite app_nil_r. now destruct w.
Qed.

Lemma acts_bind ref m1 m2 g1 g2 s1 s2 :
  acts ref m1 g1 s1 -> acts ref m2 g2 s2 ->
  acts ref (bind m1 (fun _ => m2)) (fun sc => g2 (g1 sc))
       (fun sc => (s1 sc ++ s2 (g1 sc))%list).
Proof.
  intros H1 H2 w Hw. unfold bind. rewrite (H1 w Hw).
  rewrite H2 by apply effect_present.
  now rewrite effect_effect.
Qed.

Lemma acts_forEach {A} ref (f : A -> M unit) g s (l : list A) :
  (forall x, acts ref (f x) (g x) (s x)) ->
  acts ref (forEach l f) (fun sc => fold_left (fun sc x => g x sc) l sc)
       (sent_each g s l).
Proof.
  intros Hf. induction l as [| x l IH]; simpl.
  - apply acts_ret.
  - intros w Hw. exact (acts_bind _ _ _ _ _ _ _ (Hf x) IH w Hw).
Qed.

Lemma acts_update ref store f :
  store_ref store = ref -> acts ref (update_store store f) f (fun _ => []).
Proof.
  intros <- w [sc Hsc].
  unfold update_store, bind, get_stores, set_stores, effect, view, notes.
  rewrite Hsc. simpl. now rewrite app_nil_r.
Qed.

Lemma acts_notify ref store id :
  store_ref store = ref ->
  acts ref (notify store id "invalidated") (fun sc => sc) (fun _ => [id]).
Proof.
  intros <- w [sc Hsc]. unfold notify, effect, view, notes. rewrite Hsc. simpl.
  now rewrite insert_id by exact Hsc.
Qed.

Lemma acts_ext ref m g g' s s' :
  acts ref m g s -> (forall sc, g sc = g' sc) -> (forall sc, s sc = s' sc) ->
  acts ref m g' s'.
Proof.
  intros H Hg Hs w Hw. rewrite (H w Hw). unfold effect. now rewrite Hg, Hs.
Qed.

Lemma sent_each_nil {A} (g : A -> StoreCache -> StoreCache) l sc :
  sent_each g (fun _ _ => []) l sc = [].
Proof. revert sc. induction l; intros sc; simpl; [reflexivity | apply IHl]. Qed.

Lemma changes_effect ref g s w : changes ref g (s (view w ref)) w (effect ref g s w).
Proof.
  unfold changes. split; [| split; reflexivity].
  intros r. apply view_effect.
Qed.

Lemma changes_refl ref w : changes ref (fun sc => sc) [] w w.
Proof.
  unfold changes, notes. simpl. rewrite app_nil_r. split; [| split; reflexivity].
  intros r. now destruct (decide (r = ref)).
Qed.

Lemma changes_view ref g s w w' r :
  changes ref g s w w' ->
  view w' r = if decide (r = ref) then g (view w r) else view w r.
Proof. intros [H _]. apply H. Qed.

(** *** [_getStore] *)

Lemma getStore_spec store w :
  _getStore store w = (Ok (view w (store_ref store)), afterGetStore store w).
Proof.
  unfold _getStore, bind, get_stores, set_stores, ret, view, afterGetStore, seen.
  destruct (_stores w !! store_ref store) eqn:H; simpl;
    [now destruct w | reflexivity].
Qed.

Lemma getStore_bind {A} store (k : StoreCache -> M A) w :
  bind (_getStore store) k w = k (view w (store_ref store)) (afterGetStore store w).
Proof. unfold bind. now rewrite getStore_spec. Qed.

Lemma afterGetStore_present store w :
  is_Some (_stores (afterGetStore store w) !! store_ref store).
Proof.
  unfold afterGetStore, seen. simpl.
  destruct (_stores w !! store_ref store) eqn:H; [eauto |].
  rewrite lookup_insert_eq. eauto.
Qed.

Lemma view_afterGetStore store w r : view (afterGetStore store w) r = view w r.
Proof.
  unfold view, afterGetStore, seen. simpl.
  destruct (_stores w !! store_ref store) eqn:H; [reflexivity |].
  rewrite lookup_insert.
  destruct (decide (store_ref store = r)) as [<- |]; [| reflexivity].
  now rewrite H.
Qed.

Lemma insert_seen store sc stores :
  <[store_ref store := sc]> (seen store stores) = <[store_ref store := sc]> stores.
Proof.
  unfold seen. destruct (stores !! store_ref store); [reflexivity |].
  apply insert_insert_eq.
Qed.

Lemma effect_afterGetStore store g s w :
  effect (store_ref store) g s (afterGetStore store w)
  = effect (store_ref store) g s w.
Proof.
  unfold effect. rewrite view_afterGetStore. unfold afterGetStore. simpl.
  now rewrite insert_seen.
Qed.

Lemma afterGetStore_effect store w :
  afterGetStore store w = effect (store_ref store) (fun sc => sc) (fun _ => []) w.
Proof.
  unfold afterGetStore, effect, seen, view, notes. simpl. rewrite app_nil_r.
  destruct (_stores w !! store_ref store) eqn:H; simpl; [| reflexivity].
  now rewrite insert_id by exact H.
Qed.

(** *** The calls that write *)

Lemma invalidate_ids_nil sc : invalidate_ids [] sc = sc.
Proof.
  destruct sc as [i t]. unfold invalidate_ids. simpl. f_equal.
  apply union_empty_l_L.
Qed.

Lemma singleton_ids id (X : gset string) : list_to_set [id] ∪ X = {[id]} ∪ X.
Proof. simpl. now rewrite (right_id_L ∅ (∪)). Qed.

Lemma invalidateRequest_spec identifier store w :
  invalidateRequest identifier store w
  = (Ok tt, effect (store_ref store) (invalidate_ids [identifier]) (fun _ => []) w).
Proof.
  unfold invalidateRequest. rewrite getStore_bind.
  rewrite <- effect_afterGetStore.
  apply acts_effect; [| apply afterGetStore_present].
  eapply acts_ext; [apply acts_update; reflexivity | | reflexivity].
  intros sc. unfold invalidate_ids. now rewrite singleton_ids.
Qed.

Lemma acts_invalidate_loop store set :
  acts (store_ref store)
    (forEach set (fun id =>
       bind (invalidated_add store id) (fun _ => notify store id "invalidated")))
    (invalidate_ids set) (fun _ => set).
Proof.
  eapply acts_ext.
  - apply acts_forEach with
      (g := fun id => invalidate_ids [id]) (s := fun id _ => [id]).
    intros id. eapply acts_ext.
    + eapply acts_bind; [apply acts_update | apply acts_notify]; reflexivity.
    + intros sc. unfold invalidate_ids. now rewrite singleton_ids.
    + reflexivity.
  - intros sc. revert sc. induction set as [| id set IH]; intros sc; simpl.
    + now rewrite invalidate_ids_nil.
    + rewrite IH. unfold invalidate_ids. simpl. f_equal.
      rewrite (right_id_L ∅ (∪)), (assoc_L (∪)).
      f_equal. apply (comm_L (∪)).
  - intros sc. revert sc. induction set as [| id set IH]; intros sc; simpl;
      [reflexivity | now rewrite IH].
Qed.

(** [invalidateRequestsForType] invalidates and notifies exactly the
    identifiers kept for the type, in the order of their set. *)
Lemma invalidateRequestsForType_spec type store w :
  invalidateRequestsForType type store w
  = (Ok tt, effect (store_ref store)
              (fun sc => invalidate_ids (ids_of type sc) sc) (ids_of type) w).
Proof.
  unfold invalidateRequestsForType. rewrite getStore_bind.
  rewrite <- effect_afterGetStore. unfold ids_of.
  destruct (types (view w (store_ref store)) !! type) as [set |] eqn:Hset.
  - rewrite (acts_effect _ _ _ _ _ (acts_invalidate_loop store set))
      by apply afterGetStore_present.
    unfold effect. rewrite view_afterGetStore, Hset. reflexivity.
  - unfold ret. rewrite afterGetStore_effect at 1. rewrite effect_afterGetStore.
    unfold effect. rewrite Hset. simpl.
    now rewrite invalidate_ids_nil.
Qed.

Lemma forEach_total {A} ref (f : A -> M unit) g s (l : list A) w :
  (forall x w, f x w = (Ok tt, effect ref (g x) (s x) w)) ->
  exists w', forEach l f w = (Ok tt, w')
    /\ changes ref (fun sc => fold_left (fun sc x => g x sc) l sc)
               (sent_each g s l (view w ref)) w w'.
Proof.
  intros Hf. destruct l as [| x l].
  - exists w. split; [reflexivity | apply changes_refl].
  - assert (Hacts : forall y, acts ref (f y) (g y) (s y)).
    { intros y w0 _. apply Hf. }
    cbn [forEach]. unfold bind. rewrite Hf.
    rewrite (acts_effect _ _ _ _ _ (acts_forEach ref f g s l Hacts))
      by apply effect_present.
    rewrite effect_effect. eexists. split; [reflexivity |].
    apply (changes_effect ref
             (fun sc => fold_left (fun sc x => g x sc) l (g x sc))
             (fun sc => (s x sc ++ sent_each g s l (g x sc))%list)).
Qed.

Lemma didRequest_create request response identifier store w :
  op_is request "createRecord" = true -> successful response = true ->
  exists w', didRequest request response identifier store w = (Ok tt, w')
    /\ changes (store_ref store) (invalidate_types (created_types request))
         (sent_each (fun type sc => invalidate_ids (ids_of type sc) sc) ids_of
                    (created_types request) (view w (store_ref store)))
         w w'.
Proof.
  intros Hop Hok. unfold didRequest. rewrite Hop.
  unfold successful in Hok. rewrite Hok.
  apply (forEach_total (store_ref store)
           (fun type => invalidateRequestsForType type store)
           (fun type sc => invalidate_ids (ids_of type sc) sc) ids_of).
  intros type w0. apply invalidateRequestsForType_spec.
Qed.

Lemma didRequest_create_failed request response identifier store w :
  op_is request "createRecord" = true -> successful response = false ->
  didRequest request response identifier store w = (Ok tt, w).
Proof.
  intros Hop Hok. unfold didRequest. rewrite Hop.
  unfold successful in Hok. now rewrite Hok.
Qed.

Lemma deref_spec store w : deref store w = (Ok (view w (store_ref store)), w).
Proof. reflexivity. Qed.

Lemma acts_register store identifier type :
  acts (store_ref store)
    (bind (deref store) (fun storeCache =>
       match types storeCache !! type with
       | Some set =>
           bind (types_set store type (Set_add identifier set))
                (fun _ => invalidated_delete store identifier)
       | None => types_set store type [identifier]
       end))
    (register_type identifier type) (fun _ => []).
Proof.
  intros w Hw. unfold bind at 1. rewrite deref_spec.
  destruct (types (view w (store_ref store)) !! type) as [set |] eqn:Hset.
  - erewrite acts_effect;
      [| eapply acts_bind; apply acts_update; reflexivity | exact Hw].
    f_equal. apply effect_ext_at; [| reflexivity].
    unfold register_type. now rewrite Hset.
  - erewrite acts_effect; [| apply acts_update; reflexivity | exact Hw].
    f_equal. apply effect_ext_at; [| reflexivity].
    unfold register_type. now rewrite Hset.
Qed.

Lemma didRequest_register request response identifier store t ts w :
  op_is request "createRecord" = false ->
  cacheOptions request ≫= cacheOptions_types = Some (t :: ts) ->
  didRequest request response (Some identifier) store w
  = (Ok tt, effect (store_ref store) (register_types identifier (t :: ts))
              (fun _ => []) w).
Proof.
  intros Hop Hty. unfold didRequest. rewrite Hop, Hty.
  rewrite getStore_bind. rewrite <- effect_afterGetStore.
  erewrite acts_effect;
    [| apply acts_forEach; intros type; apply acts_register
     | apply afterGetStore_present].
  f_equal. apply effect_ext_at; [reflexivity |]. apply sent_each_nil.
Qed.

Lemma didRequest_idle request response identifier store w :
  op_is request "createRecord" = false ->
  identifier = None \/ cacheOptions request ≫= cacheOptions_types = None
    \/ cacheOptions request ≫= cacheOptions_types = Some [] ->
  didRequest request response identifier store w = (Ok tt, w).
Proof.
  intros Hop H. unfold didRequest. rewrite Hop.
  destruct identifier as [id |]; [| reflexivity].
  destruct H as [H | [-> | ->]]; [discriminate | reflexivity | reflexivity].
Qed.

(** [didRequest] always returns; it rewrites the record of its store by
    [didRequest_effect] and notifies only in its create branch. *)
Lemma didRequest_changes request response identifier store w :
  fst (didRequest request response identifier store w) = Ok tt
  /\ exists sent,
       changes (store_ref store) (didRequest_effect request response identifier)
               sent w (snd (didRequest request response identifier store w))
       /\ (op_is request "createRecord" = false -> sent = []).
Proof.
  unfold didRequest_effect.
  destruct (op_is request "createRecord") eqn:Hop.
  - destruct (successful response) eqn:Hok.
    + destruct (didRequest_create request response identifier store w Hop Hok)
        as (w' & -> & Hch).
      split; [reflexivity |]. eexists. split; [exact Hch | discriminate].
    + rewrite didRequest_create_failed by assumption.
      split; [reflexivity |]. exists []. split; [apply changes_refl | discriminate].
  - destruct identifier as [id |].
    + destruct (cacheOptions request ≫= cacheOptions_types) as [[| t ts] |] eqn:Hty.
      * rewrite didRequest_idle by auto.
        split; [reflexivity |]. exists []. split; [apply changes_refl | reflexivity].
      * rewrite (didRequest_register _ _ _ _ t ts) by assumption.
        split; [reflexivity |]. exists []. split; [| reflexivity].
        apply (changes_effect (store_ref store) (register_types id (t :: ts))
                 (fun _ => [])).
      * rewrite didRequest_idle by auto.
        split; [reflexivity |]. exists []. split; [apply changes_refl | reflexivity].
    + rewrite didRequest_idle by auto.
      split; [reflexivity |]. exists []. split; [apply changes_refl | reflexivity].
Qed.

(* ================================================================= *)
(** ** Registration and invalidation on one record *)

Lemma elem_of_Set_add x y (s : list string) : x ∈ Set_add y s <-> x = y \/ x ∈ s.
Proof.
  unfold Set_add. destruct (bool_decide_reflect (y ∈ s)) as [Hy | Hy].
  - split; [auto |]. intros [-> | H]; assumption.
  - rewrite elem_of_app, list_elem_of_singleton. tauto.
Qed.

Lemma elem_of_Set_add_all x xs (s : list string) :
  x ∈ Set_add_all xs s <-> x ∈ xs \/ x ∈ s.
Proof.
  unfold Set_add_all. revert s. induction xs as [| y xs IH]; intros s; simpl.
  - rewrite elem_of_nil. tauto.
  - rewrite IH, elem_of_Set_add, elem_of_cons. tauto.
Qed.

Lemma invalidate_types_types tys sc : types (invalidate_types tys sc) = types sc.
Proof.
  unfold invalidate_types. revert sc.
  induction tys as [| t tys IH]; intros sc; simpl;
    [reflexivity | now rewrite IH].
Qed.

Lemma invalidate_types_grows tys sc :
  invalidated sc ⊆ invalidated (invalidate_types tys sc).
Proof.
  unfold invalidate_types. revert sc.
  induction tys as [| t tys IH]; intros sc; simpl; [reflexivity |].
  etrans; [| apply IH]. simpl. apply union_subseteq_r.
Qed.

Lemma invalidate_types_invalidates type identifier tys sc :
  type ∈ tys -> has_id type identifier sc ->
  identifier ∈ invalidated (invalidate_types tys sc).
Proof.
  unfold invalidate_types. revert sc.
  induction tys as [| t tys IH]; intros sc Hin Hid;
    [now apply elem_of_nil in Hin |].
  apply elem_of_cons in Hin as [<- | Hin]; simpl.
  - apply (invalidate_types_grows tys). simpl.
    destruct Hid as (set & Hset & Hid). unfold ids_of. rewrite Hset. simpl.
    apply elem_of_union_l, elem_of_list_to_set, Hid.
  - apply IH; [exact Hin |]. exact Hid.
Qed.

Lemma register_type_keeps type identifier t id sc :
  has_id type identifier sc -> has_id type identifier (register_type id t sc).
Proof.
  intros (set & Hset & Hid). unfold register_type, has_id.
  destruct (types sc !! t) as [set' |] eqn:Ht; simpl.
  - destruct (decide (t = type)) as [-> |].
    + rewrite lookup_insert_eq. eexists. split; [reflexivity |].
      apply elem_of_Set_add. right. congruence.
    + rewrite lookup_insert_ne by assumption. eauto.
  - destruct (decide (t = type)) as [-> |]; [congruence |].
    rewrite lookup_insert_ne by assumption. eauto.
Qed.

Lemma register_type_registers type identifier sc :
  has_id type identifier (register_type identifier type sc).
Proof.
  unfold register_type, has_id.
  destruct (types sc !! type) as [set |]; simpl; rewrite lookup_insert_eq;
    eexists; (split; [reflexivity |]).
  - apply elem_of_Set_add. now left.
  - apply list_elem_of_singleton. reflexivity.
Qed.

Lemma register_types_keeps type identifier id tys sc :
  has_id type identifier sc -> has_id type identifier (register_types id tys sc).
Proof.
  unfold register_types. revert sc.
  induction tys as [| t tys IH]; intros sc H; simpl; [exact H |].
  apply IH, register_type_keeps, H.
Qed.

Lemma register_types_registers type identifier tys sc :
  type ∈ tys -> has_id type identifier (register_types identifier tys sc).
Proof.
  unfold register_types. revert sc.
  induction tys as [| t tys IH]; intros sc Hin; [now apply elem_of_nil in Hin |].
  apply elem_of_cons in Hin as [<- | Hin]; simpl.
  - apply (register_types_keeps _ _ _ tys), register_type_registers.
  - apply IH, Hin.
Qed.

Lemma register_type_shrinks id t sc :
  invalidated (register_type id t sc) ⊆ invalidated sc.
Proof.
  unfold register_type. destruct (types sc !! t); simpl; [| reflexivity].
  apply subseteq_difference_l. reflexivity.
Qed.

Lemma register_types_shrinks id tys sc :
  invalidated (register_types id tys sc) ⊆ invalidated sc.
Proof.
  unfold register_types. revert sc.
  induction tys as [| t tys IH]; intros sc; simpl; [reflexivity |].
  etrans; [apply IH | apply register_type_shrinks].
Qed.

Lemma register_type_other id t sc x :
  x <> id -> x ∈ invalidated sc -> x ∈ invalidated (register_type id t sc).
Proof.
  intros Hx H. unfold register_type. destruct (types sc !! t); simpl; [| exact H].
  apply elem_of_difference. split; [exact H |]. now rewrite elem_of_singleton.
Qed.

Lemma register_types_other id tys sc x :
  x <> id -> x ∈ invalidated sc -> x ∈ invalidated (register_types id tys sc).
Proof.
  intros Hx. unfold register_types. revert sc.
  induction tys as [| t tys IH]; intros sc H; simpl; [exact H |].
  apply IH, register_type_other; assumption.
Qed.

(** Registering for a type that already has a set takes the identifier out
    of the invalidated set. *)
Lemma register_types_known_type id t tys sc :
  t ∈ tys -> is_Some (types sc !! t) ->
  id ∉ invalidated (register_types id tys sc).
Proof.
  unfold register_types. revert sc.
  induction tys as [| t' tys IH]; intros sc Hin Hsome;
    [now apply elem_of_nil in Hin |].
  simpl. destruct (decide (t' = t)) as [-> | Hne].
  - intros Hid. apply (register_types_shrinks id tys) in Hid.
    unfold register_type in Hid. destruct Hsome as [set Hset].
    rewrite Hset in Hid. simpl in Hid.
    apply elem_of_difference in Hid as [_ Hid]. apply Hid, elem_of_singleton.
    reflexivity.
  - apply elem_of_cons in Hin as [-> | Hin]; [contradiction |].
    apply IH; [exact Hin |].
    unfold register_type. destruct (types sc !! t'); simpl;
      now rewrite lookup_insert_ne.
Qed.

(** Registering for types that have no set yet leaves the invalidated set
    as it was. *)
Lemma register_types_new_types id tys sc :
  NoDup tys -> (forall t, t ∈ tys -> types sc !! t = None) ->
  invalidated (register_types id tys sc) = invalidated sc.
Proof.
  unfold register_types. revert sc.
  induction tys as [| t tys IH]; intros sc Hnd Hnew; simpl; [reflexivity |].
  apply NoDup_cons in Hnd as [Hnotin Hnd].
  assert (Ht : types sc !! t = None) by (apply Hnew, elem_of_cons; now left).
  rewrite IH.
  - unfold register_type. now rewrite Ht.
  - exact Hnd.
  - intros t' Hin. unfold register_type. rewrite Ht. simpl.
    rewrite lookup_insert_ne by (intros ->; contradiction).
    apply Hnew, elem_of_cons. now right.
Qed.

Lemma call_effect_keeps type identifier c sc :
  has_id type identifier sc -> has_id type identifier (call_effect c sc).
Proof.
  intros H. destruct c as [id store | t store | rq rs id store | |]; simpl;
    try exact H.
  unfold didRequest_effect. destruct (op_is rq "createRecord").
  - destruct H as (set & Hset & Hid). exists set.
    now rewrite invalidate_types_types.
  - destruct id; [apply register_types_keeps |]; exact H.
Qed.

(* ================================================================= *)
(** ** The queries *)

Lemma truthy_str_Some s : s <> "" -> Js.truthy_str (Some s) = true.
Proof. destruct s; [contradiction | reflexivity]. Qed.

Section Queries.
Variable DEBUG TESTING : bool.
Variable Date_parse : string -> Js.number.

Lemma quiet_refl w : quiet DEBUG w w.
Proof. unfold quiet. auto. Qed.

Lemma parseCacheControl_quiet header w :
  quiet DEBUG w (snd (parseCacheControl DEBUG header w)).
Proof.
  destruct (parseCacheControl_frame DEBUG header w) as [Hs Hn].
  split; [exact Hs | split; [exact Hn |]].
  intros Hw. destruct (parseCacheControl_spec DEBUG header w Hw)
    as (w' & Heq & _ & _ & Hc). now rewrite Heq.
Qed.

Lemma check_Cache_Control_quiet ch hdrs date now w :
  quiet DEBUG w (snd (check_Cache_Control DEBUG Date_parse ch hdrs date now w)).
Proof.
  unfold check_Cache_Control.
  destruct (constraint_Cache_Control ch); [| apply quiet_refl].
  destruct (_ && _); [| apply quiet_refl].
  unfold bind.
  pose proof (parseCacheControl_quiet
                (default "" (Headers_get hdrs "Cache-Control")) w) as Hq.
  destruct (parseCacheControl DEBUG _ w) as [[ccv | e] w1]; simpl in Hq;
    [| exact Hq].
  destruct (field_truthy _); [| exact Hq].
  unfold liftR, ret.
  destruct (assert DEBUG _ _); [| exact Hq].
  destruct (assert DEBUG _ _); [| exact Hq].
  destruct (_ && _); exact Hq.
Qed.

Lemma isExpired_quiet identifier request config now w :
  quiet DEBUG w
    (snd (isExpired DEBUG TESTING Date_parse identifier request config now w)).
Proof.
  unfold isExpired.
  destruct (match constraints config with Some _ => _ | None => _ end);
    [apply quiet_refl |].
  destruct (response request) as [resp |]; [| apply quiet_refl].
  destruct (headers resp) as [hdrs |]; [| apply quiet_refl].
  destruct (constraints config ≫= constraints_headers) as [ch |];
    [| apply quiet_refl].
  destruct (check_X_WarpDrive_Expires _ _ _ _); [apply quiet_refl |].
  unfold bind.
  pose proof (check_Cache_Control_quiet ch hdrs (Headers_get hdrs "Date") now w)
    as Hq.
  destruct (check_Cache_Control _ _ _ _ _ _ w) as [[[b |] | e] w1]; simpl in Hq;
    try exact Hq.
  destruct (check_Expires _ _ _ _); exact Hq.
Qed.

(** [isHardExpired], step by step. *)
Lemma isHardExpired_spec config identifier store now w :
  isHardExpired DEBUG TESTING Date_parse config identifier store now w
  = if bool_decide (identifier ∈ invalidated (view w (store_ref store)))
    then (Ok true, afterGetStore store w)
    else match peekRequest store identifier with
         | Some doc =>
             match response doc with
             | Some _ =>
                 isExpired DEBUG TESTING Date_parse identifier doc config now
                   (afterGetStore store w)
             | None => (Ok true, afterGetStore store w)
             end
         | None => (Ok true, afterGetStore store w)
         end.
Proof.
  unfold isHardExpired. rewrite getStore_bind.
  destruct (bool_decide _); [reflexivity |].
  destruct (peekRequest store identifier) as [doc |]; [| reflexivity].
  destruct (response doc); reflexivity.
Qed.

Lemma isHardExpired_quiet config identifier store now w :
  quiet DEBUG (afterGetStore store w)
    (snd (isHardExpired DEBUG TESTING Date_parse config identifier store now w)).
Proof.
  rewrite isHardExpired_spec.
  destruct (bool_decide _); [apply quiet_refl |].
  destruct (peekRequest store identifier) as [doc |]; [| apply quiet_refl].
  destruct (response doc); [| apply quiet_refl].
  apply isExpired_quiet.
Qed.

Lemma isSoftExpired_world config identifier store now w :
  snd (isSoftExpired TESTING Date_parse config identifier store now w) = w.
Proof.
  unfold isSoftExpired.
  destruct (_ && _); [reflexivity |].
  destruct (peekRequest store identifier ≫= response) as [resp |];
    [| reflexivity].
  destruct (headers resp); [| reflexivity].
  destruct (negb _); reflexivity.
Qed.

(** An invalidated identifier is hard expired, whatever the cache holds. *)
Lemma isHardExpired_invalidated config identifier store now w :
  is_invalidated w store identifier ->
  fst (isHardExpired DEBUG TESTING Date_parse config identifier store now w)
  = Ok true.
Proof.
  intros H. rewrite isHardExpired_spec.
  unfold is_invalidated in H. rewrite record_of_view in H.
  now rewrite bool_decide_eq_true_2 by exact H.
Qed.

(** For an identifier that is not invalidated and has a cached response,
    [isHardExpired] is [isExpired]. *)
Lemma isHardExpired_cached config identifier store doc resp now w :
  ~ is_invalidated w store identifier ->
  peekRequest store identifier = Some doc -> response doc = Some resp ->
  isHardExpired DEBUG TESTING Date_parse config identifier store now w
  = isExpired DEBUG TESTING Date_parse identifier doc config now
      (afterGetStore store w).
Proof.
  intros Hinv Hpeek Hresp. rewrite isHardExpired_spec.
  unfold is_invalidated in Hinv. rewrite record_of_view in Hinv.
  rewrite bool_decide_eq_false_2 by exact Hinv.
  now rewrite Hpeek, Hresp.
Qed.

Lemma isExpired_unconstrained identifier request config resp hdrs now w :
  custom_verdict config request = None ->
  response request = Some resp -> headers resp = Some hdrs ->
  constraints config ≫= constraints_headers = None ->
  isExpired DEBUG TESTING Date_parse identifier request config now w
  = (Ok (check_Date TESTING Date_parse config (Headers_get hdrs "Date") now), w).
Proof.
  intros Hc Hr Hh Hch. unfold isExpired. fold (custom_verdict config request).
  now rewrite Hc, Hr, Hh, Hch.
Qed.

(** *** The [Cache-Control] check, when it is reached *)

Section Cache_Control.
Variables (identifier : string) (request : StructuredDocument)
          (config : PolicyConfig) (resp : ResponseInfo)
          (hdrs : gmap string string) (ch : HeaderConstraints)
          (cc age date : string) (ccv : gmap string CacheControlField)
          (now : Z) (w : World).
Hypothesis Hmemo : memo_coherent DEBUG w.
Hypothesis Hcustom : custom_verdict config request = None.
Hypothesis Hresp : response request = Some resp.
Hypothesis Hhdrs : headers resp = Some hdrs.
Hypothesis Hch : constraints config ≫= constraints_headers = Some ch.
Hypothesis Hflag : constraint_Cache_Control ch = true.
Hypothesis Hx : check_X_WarpDrive_Expires Date_parse ch hdrs now = None.
Hypothesis Hcc : Headers_get hdrs "Cache-Control" = Some cc.
Hypothesis Hcc_ne : cc <> "".
Hypothesis Hage : Headers_get hdrs "Age" = Some age.
Hypothesis Hage_ne : age <> "".
Hypothesis Hdate : Headers_get hdrs "Date" = Some date.
Hypothesis Hdate_ne : date <> "".
Hypothesis Hparse : parseHeader DEBUG cc = Ok ccv.

(** A falsy [maxAge] skips the check. *)
Lemma isExpired_Cache_Control_skipped :
  field_truthy (selected_maxAge ccv) = false ->
  fst (isExpired DEBUG TESTING Date_parse identifier request config now w)
  = Ok (after_Cache_Control TESTING Date_parse config ch hdrs now).
Proof.
  intros Hmax. unfold isExpired. fold (custom_verdict config request).
  rewrite Hcustom, Hresp, Hhdrs, Hch, Hx.
  unfold bind at 1, check_Cache_Control.
  rewrite Hflag, Hcc, Hage, Hdate, !truthy_str_Some by assumption.
  cbn [andb default from_option id]. unfold bind at 1.
  destruct (parseCacheControl_spec DEBUG cc w Hmemo) as (w' & -> & _).
  rewrite Hparse. fold (selected_maxAge ccv). rewrite Hmax.
  unfold ret, after_Cache_Control. rewrite Hdate.
  destruct (check_Expires _ _ _ _); reflexivity.
Qed.

(** A truthy [maxAge] with a usable [Age] decides by the formula of the
    source. *)
Lemma isExpired_Cache_Control_applied :
  field_truthy (selected_maxAge ccv) = true ->
  Js.isNaN (Js.parseInt age 10) = false ->
  Js.ge (Js.parseInt age 10) (Js.Num 0) = true ->
  fst (isExpired DEBUG TESTING Date_parse identifier request config now w)
  = Ok (Js.ge (Js.Num now)
          (Js.add (Date_parse date)
             (Js.mul (Js.sub (field_toNumber (selected_maxAge ccv))
                             (Js.parseInt age 10))
                     (Js.Num 1000)))).
Proof.
  intros Hmax Hnan Hge. unfold isExpired. fold (custom_verdict config request).
  rewrite Hcustom, Hresp, Hhdrs, Hch, Hx.
  unfold bind at 1, check_Cache_Control.
  rewrite Hflag, Hcc, Hage, Hdate, !truthy_str_Some by assumption.
  cbn [andb default from_option id]. unfold bind at 1.
  destruct (parseCacheControl_spec DEBUG cc w Hmemo) as (w' & -> & _).
  rewrite Hparse. fold (selected_maxAge ccv). rewrite Hmax.
  unfold bind, liftR, assert, assertE. rewrite Hnan, Hge. cbn [negb rbind andb].
  destruct DEBUG; reflexivity.
Qed.

End Cache_Control.

End Queries.

(** *** A response that carries only a [Date] header, outside tests *)

Section Date_only.
Variable DEBUG : bool.
Variable Date_parse : string -> Js.number.

Lemma date_only_hard store identifier date statusNumber now w t :
  Date_parse "" = Js.NaN ->
  peekRequest store identifier
    = Some {| response := Some {| headers := Some {[ "date" := date ]};
                                  status := statusNumber |} |} ->
  Date_parse date = Js.Num t ->
  ~ is_invalidated w store identifier ->
  fst (isHardExpired DEBUG false Date_parse example_config identifier store now w)
  = Ok (Js.ge (Js.Num now) (Js.toNumber (t + 60000))).
Proof.
  intros Hempty Hpeek Hdate Hinv.
  assert (Hne : date <> "") by (intros ->; congruence).
  erewrite isHardExpired_cached; [| exact Hinv | exact Hpeek | reflexivity].
  erewrite isExpired_unconstrained; [| reflexivity ..].
  cbn [fst]. unfold check_Date.
  change (Headers_get {[ "date" := date ]} "Date")
    with (({[ "date" := date ]} : gmap string string) !! "date").
  rewrite lookup_singleton_eq, truthy_str_Some by exact Hne.
  cbn [negb andb default from_option id example_config apiCacheHardExpires].
  now rewrite Hdate.
Qed.

Lemma date_only_soft store identifier date statusNumber now w t :
  Date_parse "" = Js.NaN ->
  peekRequest store identifier
    = Some {| response := Some {| headers := Some {[ "date" := date ]};
                                  status := statusNumber |} |} ->
  Date_parse date = Js.Num t ->
  fst (isSoftExpired false Date_parse example_config identifier store now w)
  = Ok (Js.ge (Js.Num now) (Js.toNumber (t + 30000))).
Proof.
  intros Hempty Hpeek Hdate.
  assert (Hne : date <> "") by (intros ->; congruence).
  unfold isSoftExpired. cbn [andb]. rewrite Hpeek.
  cbn [mbind option_bind response headers].
  change (Headers_get {[ "date" := date ]} "date")
    with (({[ "date" := date ]} : gmap string string) !! "date").
  rewrite lookup_singleton_eq, truthy_str_Some by exact Hne.
  cbn [negb default from_option id example_config apiCacheSoftExpires].
  now rewrite Hdate.
Qed.

End Date_only.

(* ================================================================= *)
(** ** Runs *)

Section Runs.
Variable DEBUG TESTING : bool.
Variable Date_parse : string -> Js.number.
Variable config : PolicyConfig.

Local Abbreviation perform' := (perform DEBUG TESTING Date_parse config).
Local Abbreviation performAll' := (performAll DEBUG TESTING Date_parse config).

(** Every call rewrites the record of its store by [call_effect] and leaves
    the other records as they are. *)
Lemma perform_view c w r :
  view (perform' c w) r
  = if decide (r = store_ref (call_store c)) then call_effect c (view w r)
    else view w r.
Proof.
  destruct c as [id store | type store | rq rs id store | id store now
                | id store now]; simpl.
  - rewrite invalidateRequest_spec. apply view_effect.
  - rewrite invalidateRequestsForType_spec.
    exact (view_effect (store_ref store)
             (fun sc => invalidate_ids (ids_of type sc) sc) (ids_of type) w r).
  - destruct (didRequest_changes rq rs id store w) as (_ & sent & Hch & _).
    apply (changes_view _ _ _ _ _ _ Hch).
  - destruct (isHardExpired_quiet DEBUG TESTING Date_parse config id store now w)
      as (Hs & _ & _).
    unfold view at 1. rewrite Hs. fold (view (afterGetStore store w) r).
    rewrite view_afterGetStore. now destruct (decide _).
  - rewrite isSoftExpired_world. now destruct (decide _).
Qed.

Lemma perform_keeps_registration type identifier c w r :
  has_id type identifier (view w r) ->
  has_id type identifier (view (perform' c w) r).
Proof.
  intros H. rewrite perform_view.
  destruct (decide _); [apply call_effect_keeps |]; exact H.
Qed.

(** A registration is never undone. *)
Lemma performAll_keeps_registration type identifier calls w r :
  has_id type identifier (view w r) ->
  has_id type identifier (view (performAll' calls w) r).
Proof.
  unfold performAll. revert w.
  induction calls as [| c calls IH]; intros w H; simpl; [exact H |].
  apply IH, perform_keeps_registration, H.
Qed.

Lemma perform_keeps_invalidation store identifier c w :
  not_a_registration (store_ref store) identifier c ->
  is_invalidated w store identifier ->
  is_invalidated (perform' c w) store identifier.
Proof.
  unfold is_invalidated. rewrite !record_of_view, perform_view.
  intros Hc H. destruct (decide _) as [Href |]; [| exact H].
  destruct c as [id s | t s | rq rs id s | |]; simpl in *; try exact H.
  - apply elem_of_union_r, H.
  - apply elem_of_union_r, H.
  - unfold didRequest_effect. destruct (op_is rq "createRecord") eqn:Hop.
    + apply invalidate_types_grows, H.
    + destruct id as [id |]; [| exact H].
      apply register_types_other; [| exact H].
      intros ->. specialize (Hc eq_refl (eq_sym Href)). discriminate.
Qed.

(** An invalidated identifier stays invalidated, and so hard expired, as
    long as no [didRequest] takes its register branch for it. *)
Lemma invalidation_lasts store identifier calls w :
  Forall (not_a_registration (store_ref store) identifier) calls ->
  is_invalidated w store identifier ->
  is_invalidated (performAll' calls w) store identifier.
Proof.
  unfold performAll. intros Hcalls. revert w.
  induction Hcalls as [| c calls Hc _ IH]; intros w H; simpl; [exact H |].
  apply IH, perform_keeps_invalidation; assumption.
Qed.

Lemma invalidateRequest_invalidates store identifier w :
  is_invalidated (perform' (InvalidateRequest identifier store) w) store identifier.
Proof.
  unfold is_invalidated. rewrite record_of_view, perform_view. simpl.
  rewrite decide_True by reflexivity. simpl.
  apply elem_of_union_l, elem_of_union_l, elem_of_singleton. reflexivity.
Qed.

(** A registration that lists a type which already has a set takes the
    identifier out of the invalidated set. *)
Lemma registration_for_known_type_clears store identifier request response
      listed t w :
  op_is request "createRecord" = false ->
  cacheOptions request ≫= cacheOptions_types = Some listed ->
  t ∈ listed -> is_Some (types (record_of w store) !! t) ->
  ~ is_invalidated (perform' (DidRequest request response (Some identifier) store) w)
      store identifier.
Proof.
  intros Hop Hlisted Hin Hsome. unfold is_invalidated.
  rewrite record_of_view, perform_view. simpl.
  rewrite decide_True by reflexivity.
  unfold didRequest_effect. rewrite Hop, Hlisted. simpl.
  apply (register_types_known_type identifier t); assumption.
Qed.

(** A registration that lists only types without a set leaves an
    invalidated identifier invalidated. *)
Lemma registration_for_new_types_keeps store identifier request response
      listed w :
  op_is request "createRecord" = false ->
  cacheOptions request ≫= cacheOptions_types = Some listed ->
  NoDup listed ->
  (forall t, t ∈ listed -> types (record_of w store) !! t = None) ->
  is_invalidated w store identifier ->
  is_invalidated (perform' (DidRequest request response (Some identifier) store) w)
    store identifier.
Proof.
  intros Hop Hlisted Hnd Hnew Hinv. unfold is_invalidated in *.
  rewrite record_of_view in *. rewrite perform_view. simpl.
  rewrite decide_True by reflexivity.
  unfold didRequest_effect. rewrite Hop, Hlisted. simpl.
  rewrite register_types_new_types; assumption.
Qed.

Lemma perform_memo_coherent c w :
  memo_coherent DEBUG w -> memo_coherent DEBUG (perform' c w).
Proof.
  intros Hw.
  destruct c as [id s | t s | rq rs id s | id s now | id s now]; simpl.
  - rewrite invalidateRequest_spec. exact Hw.
  - rewrite invalidateRequestsForType_spec. exact Hw.
  - destruct (didRequest_changes rq rs id s w) as (_ & sent & (_ & _ & Hc) & _).
    unfold memo_coherent. rewrite Hc. exact Hw.
  - destruct (isHardExpired_quiet DEBUG TESTING Date_parse config id s now w)
      as (_ & _ & Hc).
    apply Hc. exact Hw.
  - rewrite isSoftExpired_world. exact Hw.
Qed.

(** The memo is coherent in every world that the calls can reach. *)
Lemma performAll_memo_coherent calls :
  memo_coherent DEBUG (performAll' calls initialWorld).
Proof.
  unfold performAll.
  assert (H : memo_coherent DEBUG initialWorld) by apply memo_coherent_initial.
  revert H. generalize initialWorld.
  induction calls as [| c calls IH]; intros w H; simpl; [exact H |].
  apply IH, perform_memo_coherent, H.
Qed.

End Runs.

(* ================================================================= *)
(** * The claims *)

(** ** Invalidation and registration *)

(** C1 (the code departs from the claim): after [invalidateRequest] the
    identifier stays hard expired whatever the cached headers are (lemmas
    [invalidateRequest_invalidates], [invalidation_lasts] and
    [isHardExpired_invalidated]), and a later registering [didRequest]
    clears it when a listed type already has a set
    ([registration_for_known_type_clears]).  When every listed type is
    new, the loop of [didRequest] takes its [else] branch only
    ([registration_for_new_types_keeps]): the identifier is registered
    for the type and is still in the invalidated set, so [isHardExpired]
    keeps returning [true] for a response that is one second old. *)
Theorem C1_first_registration_keeps_the_invalidation :
  let store := example_store headers_fresh in
  let w1 := snd (invalidateRequest "doc" store initialWorld) in
  let w2 := snd (didRequest example_query (Some (example_response 200))
                            (Some "doc") store w1) in
  registered w2 store "person" "doc"
  /\ is_invalidated w2 store "doc"
  /\ fst (isHardExpired true false example_Date_parse example_config "doc" store
            example_now w2) = Ok true
  /\ fst (isHardExpired true false example_Date_parse example_config "doc" store
            example_now initialWorld) = Ok false.
Proof.
  intros store w1 w2. split; [| split; [| split]].
  - exists ["doc"]. split; [vm_compute; reflexivity |].
    apply list_elem_of_singleton. reflexivity.
  - unfold is_invalidated. apply (bool_decide_unpack _). vm_compute. exact I.
  - vm_compute. reflexivity.
  - vm_compute. reflexivity.
Qed.

(** ** The [Cache-Control] constraint *)

Section Cache_Control_claims.
Variable DEBUG TESTING : bool.
Variable Date_parse : string -> Js.number.

(** For an identifier that is not invalidated, whose cached response has
    [Cache-Control], [Age] and [Date], with the constraint enabled, no
    verdict of a custom predicate and no [X-WarpDrive-Expires] in the way:
    when the selected [maxAge] is truthy and [Age] reads as a number that
    is not negative, [isHardExpired] is the comparison of the source. *)
Lemma isHardExpired_Cache_Control
    (identifier : string) (store : Store) (doc : StructuredDocument)
    (config : PolicyConfig) (resp : ResponseInfo) (hdrs : gmap string string)
    (ch : HeaderConstraints) (cc age date : string)
    (ccv : gmap string CacheControlField) (now : Z) (w : World) :
  memo_coherent DEBUG w ->
  ~ is_invalidated w store identifier ->
  peekRequest store identifier = Some doc ->
  custom_verdict config doc = None ->
  response doc = Some resp ->
  headers resp = Some hdrs ->
  constraints config ≫= constraints_headers = Some ch ->
  constraint_Cache_Control ch = true ->
  check_X_WarpDrive_Expires Date_parse ch hdrs now = None ->
  Headers_get hdrs "Cache-Control" = Some cc -> cc <> "" ->
  Headers_get hdrs "Age" = Some age -> age <> "" ->
  Headers_get hdrs "Date" = Some date -> date <> "" ->
  parseHeader DEBUG cc = Ok ccv ->
  field_truthy (selected_maxAge ccv) = true ->
  Js.isNaN (Js.parseInt age 10) = false ->
  Js.ge (Js.parseInt age 10) (Js.Num 0) = true ->
  fst (isHardExpired DEBUG TESTING Date_parse config identifier store now w)
  = Ok (Js.ge (Js.Num now)
          (Js.add (Date_parse date)
             (Js.mul (Js.sub (field_toNumber (selected_maxAge ccv))
                             (Js.parseInt age 10))
                     (Js.Num 1000)))).
Proof.
  intros Hmemo Hinv Hpeek Hcustom Hresp Hhdrs Hch Hflag Hx Hcc Hcc_ne
         Hage Hage_ne Hdate Hdate_ne Hparse Hmax Hnan Hge.
  erewrite isHardExpired_cached by eassumption.
  eapply isExpired_Cache_Control_applied; eassumption.
Qed.

(** C9: with [Cache-Control], [Age] and [Date] present and the constraint
    enabled, a [max-age] of [0] is never used.  If [s-maxage] is absent or
    [0] too, the check is skipped and [isExpired] returns what the
    [Expires] constraint and then the [Date] header give; if [s-maxage] is
    a number other than [0], it takes the place of [max-age] in the
    comparison. *)
Theorem C9_zero_max_age_falls_through
    (identifier : string) (request : StructuredDocument) (config : PolicyConfig)
    (resp : ResponseInfo) (hdrs : gmap string string) (ch : HeaderConstraints)
    (cc age date : string) (ccv : gmap string CacheControlField)
    (now : Z) (w : World) :
  memo_coherent DEBUG w ->
  custom_verdict config request = None ->
  response request = Some resp ->
  headers resp = Some hdrs ->
  constraints config ≫= constraints_headers = Some ch ->
  constraint_Cache_Control ch = true ->
  check_X_WarpDrive_Expires Date_parse ch hdrs now = None ->
  Headers_get hdrs "Cache-Control" = Some cc -> cc <> "" ->
  Headers_get hdrs "Age" = Some age -> age <> "" ->
  Headers_get hdrs "Date" = Some date -> date <> "" ->
  parseHeader DEBUG cc = Ok ccv ->
  ccv !! "max-age" = Some (CNum (Js.Num 0)) ->
  (ccv !! "s-maxage" = None \/ ccv !! "s-maxage" = Some (CNum (Js.Num 0)) ->
     fst (isExpired DEBUG TESTING Date_parse identifier request config now w)
     = Ok (after_Cache_Control TESTING Date_parse config ch hdrs now))
  /\ (forall s,
        ccv !! "s-maxage" = Some (CNum s) -> Js.truthy s = true ->
        Js.isNaN (Js.parseInt age 10) = false ->
        Js.ge (Js.parseInt age 10) (Js.Num 0) = true ->
        fst (isExpired DEBUG TESTING Date_parse identifier request config now w)
        = Ok (Js.ge (Js.Num now)
                (Js.add (Date_parse date)
                   (Js.mul (Js.sub s (Js.parseInt age 10)) (Js.Num 1000))))).
Proof.
  intros Hmemo Hcustom Hresp Hhdrs Hch Hflag Hx Hcc Hcc_ne Hage Hage_ne
         Hdate Hdate_ne Hparse Hzero.
  split.
  - intros Hs.
    eapply isExpired_Cache_Control_skipped; try eassumption.
    unfold selected_maxAge, field_or. rewrite Hzero.
    cbn [field_truthy Js.truthy].
    destruct Hs as [-> | ->]; reflexivity.
  - intros s Hs Htruthy Hnan Hge.
    assert (Hsel : selected_maxAge ccv = Some (CNum s)).
    { unfold selected_maxAge, field_or. rewrite Hzero, Hs. reflexivity. }
    erewrite isExpired_Cache_Control_applied; try eassumption.
    + now rewrite Hsel.
    + rewrite Hsel. exact Htruthy.
Qed.

End Cache_Control_claims.

Lemma C9_witness :
  fst (isExpired true false example_Date_parse "doc"
         (example_document headers_max_age_zero) example_config_Cache_Control
         example_now initialWorld)
  = Ok (after_Cache_Control false example_Date_parse example_config_Cache_Control
          only_Cache_Control headers_max_age_zero example_now)
  /\ fst (isExpired true false example_Date_parse "doc"
         (example_document headers_max_age_zero_s_maxage)
         example_config_Cache_Control example_now initialWorld)
  = Ok (Js.ge (Js.Num example_now)
          (Js.add (example_Date_parse "Tue, 14 Nov 2023 22:13:19 GMT")
             (Js.mul (Js.sub (Js.Num 3600) (Js.parseInt "0" 10)) (Js.Num 1000)))).
Proof.
  split.
  - refine (proj1 (C9_zero_max_age_falls_through true false example_Date_parse
              "doc" (example_document headers_max_age_zero)
              example_config_Cache_Control
              {| headers := Some headers_max_age_zero; status := 200 |}
              headers_max_age_zero only_Cache_Control
              "max-age=0" "0" "Tue, 14 Nov 2023 22:13:19 GMT"
              {[ "max-age" := CNum (Js.Num 0) ]} example_now initialWorld
              _ _ _ _ _ _ _ _ _ _ _ _ _ _ _) _);
      try reflexivity; try discriminate.
    + apply memo_coherent_initial.
    + left. reflexivity.
  - refine (proj2 (C9_zero_max_age_falls_through true false example_Date_parse
              "doc" (example_document headers_max_age_zero_s_maxage)
              example_config_Cache_Control
              {| headers := Some headers_max_age_zero_s_maxage; status := 200 |}
              headers_max_age_zero_s_maxage only_Cache_Control
              "max-age=0, s-maxage=3600" "0" "Tue, 14 Nov 2023 22:13:19 GMT"
              (<[ "s-maxage" := CNum (Js.Num 3600) ]>
                 {[ "max-age" := CNum (Js.Num 0) ]})
              example_now initialWorld
              _ _ _ _ _ _ _ _ _ _ _ _ _ _ _) (Js.Num 3600) _ _ _ _);
      try reflexivity; try discriminate.
    apply memo_coherent_initial.
Defined.

(** C2 (the code departs from the claim): for a truthy [maxAge] the
    comparison of the claim is what the code returns (lemma
    [isHardExpired_Cache_Control]; scenario C is [scenario_C] below).  With
    [Cache-Control: max-age=0], [Age: 0] and a [Date] one second in the
    past, the comparison of the claim holds, yet [isHardExpired] returns
    [false]: the test [if (maxAge)] takes the directive [0] for a missing
    one and the [Date] header is compared with [apiCacheHardExpires]
    instead.  In the same way [max-age=0, s-maxage=3600] is decided by
    [s-maxage], although [max-age] is there. *)
Theorem C2_max_age_zero_is_not_expired :
  fst (isHardExpired true false example_Date_parse example_config_Cache_Control
         "doc" (example_store headers_max_age_zero) example_now initialWorld)
    = Ok false
  /\ Js.ge (Js.Num example_now)
       (Js.add (example_Date_parse "Tue, 14 Nov 2023 22:13:19 GMT")
          (Js.mul (Js.sub (Js.Num 0) (Js.parseInt "0" 10)) (Js.Num 1000)))
     = true
  /\ fst (isHardExpired true false example_Date_parse example_config_Cache_Control
         "doc" (example_store headers_max_age_zero_s_maxage) example_now
         initialWorld)
    = Ok false.
Proof.
  split; [| split].
  - vm_compute. reflexivity.
  - vm_compute. reflexivity.
  - vm_compute. reflexivity.
Qed.

(** Scenario C: [max-age=100], [Age: 150], [Date] ten seconds in the past. *)
Example scenario_C :
  fst (isHardExpired true false example_Date_parse example_config_Cache_Control
         "doc" (example_store headers_scenario_C) example_now initialWorld)
  = Ok true.
Proof. vm_compute. reflexivity. Qed.

(** ** Missing entries and the time-based check *)

Section Query_claims.
Variable DEBUG TESTING : bool.
Variable Date_parse : string -> Js.number.
Variable config : PolicyConfig.

(** C3: when the cache has no response for the identifier ([peekRequest]
    returns [undefined] or a document without a response), [isHardExpired]
    returns [true]; this holds in every state of the policy, so also when
    the identifier was never invalidated and no [didRequest] came before. *)
Theorem C3_no_cached_response_is_hard_expired
    (identifier : string) (store : Store) (now : Z) (w : World) :
  has_response (peekRequest store identifier) = false ->
  fst (isHardExpired DEBUG TESTING Date_parse config identifier store now w)
  = Ok true.
Proof.
  intros H. rewrite isHardExpired_spec.
  destruct (bool_decide _); [reflexivity |].
  unfold has_response in H.
  destruct (peekRequest store identifier) as [doc |]; [| reflexivity].
  simpl in H. destruct (response doc); [discriminate | reflexivity].
Qed.

(** C10: a query never changes a record of the policy.  After
    [isHardExpired] the policy's map is the old one, with an empty record
    added if the store had none; every store's invalidated set and type
    map are as before; nothing was notified; and the memo of the parser,
    which belongs to the module and not to the policy, is still a memo of
    the same parses.  [isSoftExpired] changes nothing at all. *)
Theorem C10_queries_keep_the_invalidation_records
    (identifier : string) (store : Store) (now : Z) (w : World) :
  let wh :=
    snd (isHardExpired DEBUG TESTING Date_parse config identifier store now w) in
  let ws :=
    snd (isSoftExpired TESTING Date_parse config identifier store now w) in
  _stores wh = seen store (_stores w)
  /\ (forall s, invalidated (record_of wh s) = invalidated (record_of w s)
                /\ types (record_of wh s) = types (record_of w s))
  /\ notified wh = notified w
  /\ (memo_coherent DEBUG w -> memo_coherent DEBUG wh)
  /\ ws = w.
Proof.
  intros wh ws.
  destruct (isHardExpired_quiet DEBUG TESTING Date_parse config identifier
              store now w) as (Hs & Hn & Hc).
  fold wh in Hs, Hn, Hc.
  split; [exact Hs |]. split; [| split; [exact Hn | split; [exact Hc |]]].
  - intros s. rewrite !record_of_view. unfold view at 1 3. rewrite Hs.
    fold (view (afterGetStore store w) (store_ref s)).
    now rewrite (view_afterGetStore store w).
  - apply isSoftExpired_world.
Qed.

(** C5: let a [didRequest] that is not a create register [identifier] for
    the listed types, let any calls follow, and let then a [createRecord]
    request succeed with a status in [200,400) whose records or whose
    [cacheOptions.types] name one of those types.  Then [identifier] is in
    the invalidated set of the store and [isHardExpired] returns [true]
    for it.  The two branches exclude each other: a create never touches
    the type map, and any other [didRequest] notifies nothing and adds
    nothing to an invalidated set. *)
Theorem C5_create_invalidates_dependents
    (store store1 store2 : Store) (identifier type : string)
    (registration : RequestInfo) (registrationResponse : option ResponseInfo)
    (listed : list string) (between : list Call)
    (create : RequestInfo) (createResponse : ResponseInfo)
    (createIdentifier : option string) (now : Z) (w : World) :
  op_is registration "createRecord" = false ->
  cacheOptions registration ≫= cacheOptions_types = Some listed ->
  type ∈ listed ->
  op_is create "createRecord" = true ->
  200 <= status createResponse < 400 ->
  type ∈ map ref_type (default [] (records create))
    \/ type ∈ default [] (cacheOptions create ≫= cacheOptions_types) ->
  store_ref store1 = store_ref store ->
  store_ref store2 = store_ref store ->
  let w1 := perform DEBUG TESTING Date_parse config
              (DidRequest registration registrationResponse
                          (Some identifier) store) w in
  let w2 := performAll DEBUG TESTING Date_parse config between w1 in
  let w3 := perform DEBUG TESTING Date_parse config
              (DidRequest create (Some createResponse) createIdentifier store1)
              w2 in
  registered w1 store type identifier
  /\ is_invalidated w3 store identifier
  /\ fst (isHardExpired DEBUG TESTING Date_parse config identifier store2 now w3)
     = Ok true
  /\ (forall request response id s w0,
        let w' := snd (didRequest request response id s w0) in
        (op_is request "createRecord" = true ->
           forall s', types (record_of w' s') = types (record_of w0 s'))
        /\ (op_is request "createRecord" = false ->
              notified w' = notified w0
              /\ forall s', invalidated (record_of w' s')
                            ⊆ invalidated (record_of w0 s'))).
Proof.
  intros Hreg Hlisted Hin Hcreate Hstatus Hunion Href1 Href2 w1 w2 w3.
  assert (H1 : has_id type identifier (view w1 (store_ref store))).
  { unfold w1. rewrite perform_view. simpl. rewrite decide_True by reflexivity.
    unfold didRequest_effect. rewrite Hreg, Hlisted. simpl.
    apply register_types_registers, Hin. }
  assert (H2 : has_id type identifier (view w2 (store_ref store))).
  { apply performAll_keeps_registration, H1. }
  assert (H3 : is_invalidated w3 store identifier).
  { unfold is_invalidated. rewrite record_of_view. unfold w3.
    rewrite perform_view. simpl. rewrite decide_True by (symmetry; exact Href1).
    unfold didRequest_effect. rewrite Hcreate.
    assert (Hok : successful (Some createResponse) = true).
    { unfold successful. apply andb_true_iff.
      split; [apply Z.leb_le | apply Z.ltb_lt]; lia. }
    rewrite Hok. apply (invalidate_types_invalidates type); [| exact H2].
    unfold created_types. rewrite !elem_of_Set_add_all. tauto. }
  split; [exact H1 |]. split; [exact H3 |]. split.
  - apply isHardExpired_invalidated. unfold is_invalidated in *.
    rewrite record_of_view in *. now rewrite Href2.
  - intros request response id s w0 w'.
    destruct (didRequest_changes request response id s w0)
      as (_ & sent & (Hview & Hnote & _) & Hsent).
    fold w' in Hview, Hnote. split.
    + intros Hop s'. rewrite !record_of_view, Hview.
      destruct (decide _); [| reflexivity].
      unfold didRequest_effect. rewrite Hop. apply invalidate_types_types.
    + intros Hop. split.
      * rewrite Hnote, (Hsent Hop). apply app_nil_r.
      * intros s'. rewrite !record_of_view, Hview.
        destruct (decide _); [| reflexivity].
        unfold didRequest_effect. rewrite Hop.
        destruct id; [apply register_types_shrinks | reflexivity].
Qed.

End Query_claims.

Lemma C3_witness :
  fst (isHardExpired true false example_Date_parse example_config "doc"
         empty_store example_now initialWorld) = Ok true.
Proof.
  apply (C3_no_cached_response_is_hard_expired true false example_Date_parse
           example_config "doc" empty_store example_now initialWorld).
  reflexivity.
Defined.

Lemma C5_witness :
  let store := example_store headers_fresh in
  let w1 := perform true false example_Date_parse example_config
              (DidRequest example_query (Some (example_response 200))
                          (Some "doc") store) initialWorld in
  let w2 := performAll true false example_Date_parse example_config
              [IsHardExpired "doc" store example_now;
               InvalidateRequest "other" store] w1 in
  let w3 := perform true false example_Date_parse example_config
              (DidRequest example_create (Some (example_response 201)) None store)
              w2 in
  is_invalidated w3 store "doc"
  /\ fst (isHardExpired true false example_Date_parse example_config "doc" store
            example_now w3) = Ok true.
Proof.
  intros store w1 w2 w3.
  destruct (C5_create_invalidates_dependents true false example_Date_parse
              example_config store store store "doc" "person"
              example_query (Some (example_response 200)) ["person"]
              [IsHardExpired "doc" store example_now;
               InvalidateRequest "other" store]
              example_create (example_response 201) None example_now
              initialWorld)
    as (_ & Hinv & Hhard & _).
  - reflexivity.
  - reflexivity.
  - apply list_elem_of_singleton. reflexivity.
  - reflexivity.
  - simpl. lia.
  - left. simpl. apply list_elem_of_singleton. reflexivity.
  - reflexivity.
  - reflexivity.
  - split; [exact Hinv | exact Hhard].
Defined.

Section Scenarios_A_B.
Variable DEBUG : bool.
Variable Date_parse : string -> Js.number.

(** C4: with [{ apiCacheSoftExpires: 30000, apiCacheHardExpires: 60000 }],
    outside a test environment, for identifiers that are not invalidated
    and whose cached responses carry only a [Date] header: a [Date] of
    [now - 45000] is not hard expired and is soft expired (scenario A); a
    [Date] of [now - 70000] is hard expired (scenario B).  [now] is a time
    value, and the empty string is no date. *)
Theorem C4_scenarios_A_and_B
    (store : Store) (identifierA identifierB dateA dateB : string)
    (statusA statusB now : Z) (w : World) :
  time_value now ->
  Date_parse "" = Js.NaN ->
  peekRequest store identifierA
    = Some {| response := Some {| headers := Some {[ "date" := dateA ]};
                                  status := statusA |} |} ->
  peekRequest store identifierB
    = Some {| response := Some {| headers := Some {[ "date" := dateB ]};
                                  status := statusB |} |} ->
  Date_parse dateA = Js.Num (now - 45000) ->
  Date_parse dateB = Js.Num (now - 70000) ->
  ~ is_invalidated w store identifierA ->
  ~ is_invalidated w store identifierB ->
  fst (isHardExpired DEBUG false Date_parse example_config identifierA store now w)
    = Ok false
  /\ fst (isSoftExpired false Date_parse example_config identifierA store now w)
    = Ok true
  /\ fst (isHardExpired DEBUG false Date_parse example_config identifierB store now w)
    = Ok true.
Proof.
  intros Hnow Hempty HpA HpB HdA HdB HiA HiB. unfold time_value in Hnow.
  rewrite (date_only_hard _ _ _ _ _ _ _ _ _ Hempty HpA HdA HiA).
  rewrite (date_only_soft _ _ _ _ _ now w _ Hempty HpA HdA).
  rewrite (date_only_hard _ _ _ _ _ _ _ _ _ Hempty HpB HdB HiB).
  rewrite !toNumber_exact by (change (2 ^ 53) with 9007199254740992; lia).
  cbn [Js.ge]. repeat split; f_equal; lia.
Qed.

End Scenarios_A_B.

Lemma C4_witness :
  fst (isHardExpired true false example_Date_parse example_config "A" store_A_B
         example_now initialWorld) = Ok false
  /\ fst (isSoftExpired false example_Date_parse example_config "A" store_A_B
         example_now initialWorld) = Ok true
  /\ fst (isHardExpired true false example_Date_parse example_config "B" store_A_B
         example_now initialWorld) = Ok true.
Proof.
  apply (C4_scenarios_A_and_B true example_Date_parse store_A_B "A" "B"
           "Tue, 14 Nov 2023 22:12:35 GMT" "Tue, 14 Nov 2023 22:12:10 GMT"
           200 200 example_now initialWorld).
  - unfold time_value, example_now. lia.
  - reflexivity.
  - reflexivity.
  - reflexivity.
  - reflexivity.
  - reflexivity.
  - unfold is_invalidated. simpl. apply not_elem_of_empty.
  - unfold is_invalidated. simpl. apply not_elem_of_empty.
Defined.

(** ** Parsing the [Cache-Control] header *)

(** C7 (as amended): for every natural number [n] up to [2^53], parsing
    the header [max-age=n] with [parseCacheControl] returns, in either
    build and whatever the memo holds, an object whose [max-age] field is
    exactly [n]. *)
Theorem C7_max_age_round_trip (DEBUG : bool) (n : N) (w : World) :
  Z.of_N n <= 2 ^ 53 ->
  memo_coherent DEBUG w ->
  exists ccv,
    fst (parseCacheControl DEBUG ("max-age=" ++ decimal n) w) = Ok ccv
    /\ ccv !! "max-age" = Some (CNum (Js.Num (Z.of_N n))).
Proof.
  intros Hn Hw. rewrite parseCacheControl_result by exact Hw.
  exists {[ "max-age" := CNum (Js.Num (Z.of_N n)) ]}.
  split; [| apply lookup_singleton_eq].
  unfold parseHeader.
  change ("max-age=" ++ decimal n) with ("max-age" ++ String "=" (decimal n)).
  rewrite parseLoop_plain_more by (reflexivity || discriminate).
  rewrite parseLoop_equals by apply decimal_nonempty.
  rewrite parseLoop_plain_end by (apply plain_numeral || apply decimal_nonempty).
  unfold storeDirective, feed.
  cbn [isParsingKey key value cacheControlValue initialParseState].
  change ("" ++ decimal n) with (decimal n).
  change (NUMERIC_KEYS_has ("" ++ "max-age")) with true. cbv iota.
  rewrite (parseCacheControlValue_number DEBUG (decimal n) (Z.of_N n)).
  - reflexivity.
  - rewrite parseInt_decimal. apply toNumber_exact. lia.
  - lia.
Qed.

Lemma C7_witness :
  exists ccv,
    fst (parseCacheControl true ("max-age=" ++ decimal 3600) initialWorld) = Ok ccv
    /\ ccv !! "max-age" = Some (CNum (Js.Num (Z.of_N 3600))).
Proof.
  apply (C7_max_age_round_trip true 3600%N initialWorld).
  - vm_compute. discriminate.
  - apply memo_coherent_initial.
Defined.

(** C7 as stated fails beyond the precision of a double: [2^53 + 1] reads
    back as [2^53]. *)
Lemma C7_beyond_double_precision :
  decimal 9007199254740993 = "9007199254740993"
  /\ fst (parseCacheControl true "max-age=9007199254740993" initialWorld)
     = Ok {[ "max-age" := CNum (Js.Num 9007199254740992) ]}.
Proof. split; vm_compute; reflexivity. Qed.

(** C6 (as amended): in a build without assertions, parsing returns for
    every header; a value that [parseInt] reads as [NaN] or as negative
    becomes [0].  A numeric directive [k=v] with such a value gets the value
    [0] wherever it stands: as the whole header it parses to [{k: 0}], and
    after any input [before] that a comma ends, and any blanks, it sets [k]
    to [0] in the object [o] that [before] and its comma parse to.  When it
    ends the header, the result is [o] with [k] set to [0]; when a comma
    follows it, parsing goes on with the rest of the header from that
    object.  The same holds of the loop in every state in which a directive
    starts.  And [max-age=not-a-number] parses to [{'max-age': 0}]. *)
Theorem C6_production_parse_substitutes_zero
    (header k v rest : string) (w : World) :
  memo_coherent false w ->
  NUMERIC_KEYS_has k = true ->
  plain v = true ->
  Js.parseInt v 0 = Js.NaN \/ Js.lt (Js.parseInt v 0) (Js.Num 0) = true ->
  is_Ok (fst (parseCacheControl false header w))
  /\ parseCacheControlValue false v = Ok (Js.Num 0)
  /\ fst (parseCacheControl false (k ++ "=" ++ v) w)
     = Ok {[ k := CNum (Js.Num 0) ]}
  /\ fst (parseCacheControl false (k ++ "=" ++ v ++ "," ++ rest) w)
     = parseLoop false (Some ","%char) rest
         {| key := ""; value := ""; isParsingKey := true;
            cacheControlValue := {[ k := CNum (Js.Num 0) ]} |}
  /\ (forall before gap : string,
        blanks gap = true ->
        exists o,
          fst (parseCacheControl false (before ++ ",") w) = Ok o
          /\ fst (parseCacheControl false
                    (before ++ "," ++ gap ++ k ++ "=" ++ v) w)
             = Ok (<[ k := CNum (Js.Num 0) ]> o)
          /\ fst (parseCacheControl false
                    (before ++ "," ++ gap ++ k ++ "=" ++ v ++ "," ++ rest) w)
             = parseLoop false (Some ","%char) rest
                 {| key := ""; value := ""; isParsingKey := true;
                    cacheControlValue := <[ k := CNum (Js.Num 0) ]> o |})
  /\ (forall (prev : option ascii) (gap : string)
             (o : gmap string CacheControlField),
        blanks gap = true ->
        parseLoop false prev (gap ++ k ++ "=" ++ v)
          {| key := ""; value := ""; isParsingKey := true;
             cacheControlValue := o |}
        = Ok (<[ k := CNum (Js.Num 0) ]> o)
        /\ parseLoop false prev (gap ++ k ++ "=" ++ v ++ "," ++ rest)
             {| key := ""; value := ""; isParsingKey := true;
                cacheControlValue := o |}
           = parseLoop false (Some ","%char) rest
               {| key := ""; value := ""; isParsingKey := true;
                  cacheControlValue := <[ k := CNum (Js.Num 0) ]> o |})
  /\ fst (parseCacheControl false "max-age=not-a-number" w)
     = Ok {[ "max-age" := CNum (Js.Num 0) ]}.
Proof.
  intros Hw Hk Hv Hbad.
  assert (Hloop : forall prev gap o, blanks gap = true ->
    parseLoop false prev (gap ++ k ++ "=" ++ v)
      {| key := ""; value := ""; isParsingKey := true; cacheControlValue := o |}
    = Ok (<[ k := CNum (Js.Num 0) ]> o)
    /\ parseLoop false prev (gap ++ k ++ "=" ++ v ++ "," ++ rest)
         {| key := ""; value := ""; isParsingKey := true;
            cacheControlValue := o |}
       = parseLoop false (Some ","%char) rest
           {| key := ""; value := ""; isParsingKey := true;
              cacheControlValue := <[ k := CNum (Js.Num 0) ]> o |}).
  { intros prev gap o Hgap.
    rewrite !(parseLoop_production_blanks gap) by exact Hgap.
    split.
    - now apply parseLoop_production_zero_end.
    - now apply parseLoop_production_zero_comma. }
  rewrite !parseCacheControl_result by exact Hw.
  split; [apply parseLoop_production_total |].
  split; [exact (parseCacheControlValue_production v Hbad) |].
  split.
  { rewrite <- (insert_empty (M := gmap string) k (CNum (Js.Num 0))).
    apply (Hloop None "" ∅). reflexivity. }
  split.
  { rewrite <- (insert_empty (M := gmap string) k (CNum (Js.Num 0))).
    apply (Hloop None "" ∅). reflexivity. }
  split.
  { intros before gap Hgap.
    destruct (parseLoop_production_total (before ++ ",") None initialParseState)
      as [o Ho].
    exists o. rewrite !parseCacheControl_result by exact Hw.
    unfold parseHeader.
    pose proof (fun tail =>
      parseLoop_production_comma before None initialParseState tail o Ho) as Hc.
    change (forall tail,
      parseLoop false None (before ++ "," ++ tail) initialParseState
      = parseLoop false (Some ","%char) tail
          {| key := ""; value := ""; isParsingKey := true;
             cacheControlValue := o |}) in Hc.
    rewrite !Hc.
    split; [exact Ho |]. now apply Hloop. }
  split; [exact Hloop |].
  vm_compute. reflexivity.
Qed.

Lemma C6_witness :
  is_Ok (fst (parseCacheControl false "no-cache, max-age=-1" initialWorld))
  /\ parseCacheControlValue false "-1" = Ok (Js.Num 0)
  /\ fst (parseCacheControl false ("max-age" ++ "=" ++ "-1") initialWorld)
     = Ok {[ "max-age" := CNum (Js.Num 0) ]}
  /\ fst (parseCacheControl false
            ("max-age" ++ "=" ++ "-1" ++ "," ++ " s-maxage=60") initialWorld)
     = parseLoop false (Some ","%char) " s-maxage=60"
         {| key := ""; value := ""; isParsingKey := true;
            cacheControlValue := {[ "max-age" := CNum (Js.Num 0) ]} |}
  /\ (forall before gap : string,
        blanks gap = true ->
        exists o,
          fst (parseCacheControl false (before ++ ",") initialWorld) = Ok o
          /\ fst (parseCacheControl false
                    (before ++ "," ++ gap ++ "max-age" ++ "=" ++ "-1")
                    initialWorld)
             = Ok (<[ "max-age" := CNum (Js.Num 0) ]> o)
          /\ fst (parseCacheControl false
                    (before ++ "," ++ gap ++ "max-age" ++ "=" ++ "-1" ++ ","
                     ++ " s-maxage=60") initialWorld)
             = parseLoop false (Some ","%char) " s-maxage=60"
                 {| key := ""; value := ""; isParsingKey := true;
                    cacheControlValue := <[ "max-age" := CNum (Js.Num 0) ]> o |})
  /\ (forall (prev : option ascii) (gap : string)
             (o : gmap string CacheControlField),
        blanks gap = true ->
        parseLoop false prev (gap ++ "max-age" ++ "=" ++ "-1")
          {| key := ""; value := ""; isParsingKey := true;
             cacheControlValue := o |}
        = Ok (<[ "max-age" := CNum (Js.Num 0) ]> o)
        /\ parseLoop false prev
             (gap ++ "max-age" ++ "=" ++ "-1" ++ "," ++ " s-maxage=60")
             {| key := ""; value := ""; isParsingKey := true;
                cacheControlValue := o |}
           = parseLoop false (Some ","%char) " s-maxage=60"
               {| key := ""; value := ""; isParsingKey := true;
                  cacheControlValue := <[ "max-age" := CNum (Js.Num 0) ]> o |})
  /\ fst (parseCacheControl false "max-age=not-a-number" initialWorld)
     = Ok {[ "max-age" := CNum (Js.Num 0) ]}.
Proof.
  apply (C6_production_parse_substitutes_zero
           "no-cache, max-age=-1" "max-age" "-1" " s-maxage=60" initialWorld).
  - apply memo_coherent_initial.
  - reflexivity.
  - reflexivity.
  - right. reflexivity.
Defined.

(** The unreadable directive after another one, and before one. *)
Example production_parse_after_a_directive :
  parseHeader false "no-cache, max-age=-1"
  = Ok (<[ "max-age" := CNum (Js.Num 0) ]> {[ "no-cache" := CTrue ]})
  /\ parseHeader false "no-cache, max-age=soon, s-maxage=60"
     = Ok (<[ "s-maxage" := CNum (Js.Num 60) ]>
             (<[ "max-age" := CNum (Js.Num 0) ]> {[ "no-cache" := CTrue ]})).
Proof. split; vm_compute; reflexivity. Qed.

(** The directive after the unreadable one is parsed as usual. *)
Example production_parse_continues :
  parseHeader false "max-age=soon, s-maxage=60"
  = Ok (<[ "s-maxage" := CNum (Js.Num 60) ]> {[ "max-age" := CNum (Js.Num 0) ]}).
Proof. vm_compute. reflexivity. Qed.

(** A blank at the very end of the header: the loop leaves on [continue]
    before it stores the last directive. *)
Example trailing_blank_drops_the_last_directive :
  parseHeader true "max-age=60 " = Ok ∅
  /\ parseHeader true "max-age=60" = Ok {[ "max-age" := CNum (Js.Num 60) ]}.
Proof. split; vm_compute; reflexivity. Qed.

(** C6 as stated fails in a build that keeps assertions: the header of
    scenario E makes [parseCacheControl] throw. *)
Lemma C6_debug_build_throws :
  fst (parseCacheControl true "max-age=not-a-number" initialWorld)
  = Throw (AssertionError
             "Invalid Cache-Control value, expected a number but got - not-a-number").
Proof. vm_compute. reflexivity. Qed.

(** ** The constructor *)

(** C8 (as amended): when the config is an object whose two durations are
    numbers, construction succeeds in either build and stores that config;
    in a build that keeps assertions, construction throws, and leaves no
    policy, for every other argument list: no config, a config that is not
    an object, or a duration that is not a number. *)
Theorem C8_constructor_checks (DEBUG : bool) (arguments : list jsval) :
  (durations_numeric (config_argument arguments) ->
     CachePolicy_new DEBUG arguments
     = Ok {| config := config_argument arguments; policy_stores := ∅ |})
  /\ (DEBUG = true -> ~ durations_numeric (config_argument arguments) ->
        is_Throw (CachePolicy_new DEBUG arguments)).
Proof.
  unfold CachePolicy_new. fold (config_argument arguments).
  generalize (config_argument arguments). intros v. split.
  - intros (props & -> & Hsoft & Hhard).
    unfold assertE. cbn [jsval_truthy get_prop rbind]. rewrite Hsoft, Hhard.
    destruct DEBUG; reflexivity.
  - intros -> Hv. unfold assertE, is_Throw.
    destruct v as [| | [|] | n | s | props];
      cbn [jsval_truthy get_prop rbind typeof];
      try (eexists; reflexivity).
    + destruct (Js.truthy n); cbn [rbind]; eexists; reflexivity.
    + destruct (negb (String.eqb s "")); cbn [rbind]; eexists; reflexivity.
    + destruct (String.eqb_spec (typeof (props "apiCacheSoftExpires")) "number")
        as [Hsoft |]; cbn [rbind]; [| eexists; reflexivity].
      destruct (String.eqb_spec (typeof (props "apiCacheHardExpires")) "number")
        as [Hhard |]; cbn [rbind]; [| eexists; reflexivity].
      exfalso. apply Hv. exists props. auto.
Qed.

Lemma C8_witness :
  CachePolicy_new true [config_object]
  = Ok {| config := config_object; policy_stores := ∅ |}
  /\ is_Throw (CachePolicy_new true [config_object_with_string]).
Proof.
  split.
  - refine (proj1 (C8_constructor_checks true [config_object]) _).
    eexists. split; [reflexivity |]. split; reflexivity.
  - refine (proj2 (C8_constructor_checks true [config_object_with_string]) _ _);
      [reflexivity |].
    intros (props & Heq & Hsoft & _). injection Heq as <-. discriminate Hsoft.
Defined.

(** C8 as stated fails in a build without assertions: the constructor
    checks nothing and stores what it was given, also when that is
    nothing. *)
Lemma C8_production_build_accepts_anything :
  CachePolicy_new false [] = Ok {| config := JUndefined; policy_stores := ∅ |}
  /\ CachePolicy_new false [config_object_with_string]
     = Ok {| config := config_object_with_string; policy_stores := ∅ |}.
Proof. split; reflexivity. Qed.

(* ================================================================= *)
(** * Further properties of the code *)

(** ** The parser of [Cache-Control] *)

Section Parser_invariant.
Variable DEBUG : bool.

Lemma parseCacheControlValue_range s n :
  parseCacheControlValue DEBUG s = Ok n ->
  Js.isNaN n = false /\ Js.ge n (Js.Num 0) = true.
Proof.
  unfold parseCacheControlValue, assert, assertE.
  destruct (Js.parseInt s 0) as [| | | z]; destruct DEBUG;
    cbn [Js.isNaN negb Js.ge Js.lt orb rbind]; try discriminate;
    try (intros [= <-]; split; reflexivity).
  - destruct (Z.leb_spec 0 z); cbn [rbind]; [| discriminate].
    destruct (Z.ltb_spec z 0); [lia |]. intros [= <-].
    split; [reflexivity |]. now apply Z.leb_le.
  - destruct (Z.ltb_spec z 0); intros [= <-]; (split; [reflexivity |]);
      [reflexivity | now apply Z.leb_le].
Qed.

Lemma storeDirective_typed st o :
  fields_typed (cacheControlValue st) ->
  storeDirective DEBUG st = Ok o -> fields_typed o.
Proof.
  intros Hst. unfold storeDirective.
  destruct (NUMERIC_KEYS_has (key st)) eqn:Hk; cbn [rbind].
  - destruct (parseCacheControlValue DEBUG (value st)) as [n | e] eqn:Hn;
      cbn [rbind]; [| discriminate].
    destruct (String.eqb (key st) "__proto__"); [intros [= <-]; exact Hst |].
    intros [= <-] k f. rewrite lookup_insert.
    destruct (decide (key st = k)) as [<- | _]; [| apply Hst].
    intros [= <-]. unfold field_typed. rewrite Hk.
    exists n. split; [reflexivity |]. eapply parseCacheControlValue_range, Hn.
  - destruct (String.eqb (key st) "__proto__"); [intros [= <-]; exact Hst |].
    intros [= <-] k f. rewrite lookup_insert.
    destruct (decide (key st = k)) as [<- | _]; [| apply Hst].
    intros [= <-]. unfold field_typed. now rewrite Hk.
Qed.

Lemma parseLoop_typed rest : forall prev st o,
  fields_typed (cacheControlValue st) ->
  parseLoop DEBUG prev rest st = Ok o -> fields_typed o.
Proof.
  induction rest as [| c tl IH]; intros prev st o Hst.
  - intros [= <-]. exact Hst.
  - cbn [parseLoop]. destruct (is_comma c).
    + destruct (assert DEBUG _ _); cbn [rbind]; [| discriminate].
      destruct (assert DEBUG _ _); cbn [rbind]; [| discriminate].
      destruct (storeDirective DEBUG st) as [m | e] eqn:Hm; cbn [rbind];
        [| discriminate].
      apply IH. cbn [cacheControlValue]. eapply storeDirective_typed; eassumption.
    + assert (Hflush : forall st',
                fields_typed (cacheControlValue st') ->
                (st'' <- (if String.eqb tl "" then
                            (o <- storeDirective DEBUG st' ;;
                             Ok {| key := key st'; value := value st';
                                   isParsingKey := isParsingKey st';
                                   cacheControlValue := o |})
                          else Ok st') ;;
                 parseLoop DEBUG (Some c) tl st'')%result = Ok o ->
                fields_typed o).
      { intros st' Hst'. destruct (String.eqb tl ""); cbn [rbind].
        - destruct (storeDirective DEBUG st') as [m | e] eqn:Hm; cbn [rbind];
            [| discriminate].
          apply IH. cbn [cacheControlValue].
          eapply storeDirective_typed; eassumption.
        - apply IH, Hst'. }
      destruct (is_equals c).
      * destruct (assert DEBUG _ _); cbn [rbind]; [| discriminate].
        apply Hflush. exact Hst.
      * destruct (is_blank c); cbn [rbind]; [apply IH, Hst |].
        destruct (isParsingKey st); cbn [rbind]; apply Hflush; exact Hst.
Qed.

End Parser_invariant.

(** X1: Whatever header the [Cache-Control] parser accepts, with or
    without assertions, the object it returns is well typed: each of the
    four numeric keys ([max-age], [s-maxage], [stale-if-error],
    [stale-while-revalidate]) holds a number that is neither [NaN] nor
    negative, and every other key holds [true]. *)
Theorem parsed_fields_are_typed (DEBUG : bool) (header : string)
    (ccv : gmap string CacheControlField) (k : string) (f : CacheControlField) :
  parseHeader DEBUG header = Ok ccv ->
  ccv !! k = Some f ->
  field_typed k f.
Proof.
  intros Hparse. revert k f. fold (fields_typed ccv).
  eapply parseLoop_typed; [| exact Hparse].
  intros k f H. discriminate H.
Qed.

Lemma parsed_fields_are_typed_witness :
  field_typed "max-age" (CNum (Js.Num 60)) /\ field_typed "private" CTrue.
Proof.
  split.
  - apply (parsed_fields_are_typed true "private, max-age=60"
             (<[ "max-age" := CNum (Js.Num 60) ]> {[ "private" := CTrue ]})).
    + vm_compute. reflexivity.
    + vm_compute. reflexivity.
  - apply (parsed_fields_are_typed true "private, max-age=60"
             (<[ "max-age" := CNum (Js.Num 60) ]> {[ "private" := CTrue ]})).
    + vm_compute. reflexivity.
    + vm_compute. reflexivity.
Defined.

(* ---------------- blanks ---------------- *)

Lemma last_char_cons prev c s : exists d, last_char prev (String c s) = Some d.
Proof.
  revert prev c. induction s as [| c' s IH]; intros prev c; simpl.
  - eauto.
  - apply (IH (Some c) c').
Qed.

Lemma last_char_prev p q c s :
  last_char p (String c s) = last_char q (String c s).
Proof. reflexivity. Qed.

Lemma without_blanks_nonempty c tl :
  ends_with_blank (String c tl) = false -> without_blanks (String c tl) <> "".
Proof.
  unfold ends_with_blank. revert c.
  induction tl as [| c' tl IH]; intros c; simpl.
  - intros ->. discriminate.
  - intros H. destruct (is_blank c); [| discriminate].
    apply (IH c'). exact H.
Qed.

Lemma blanks_are_skipped_loop rest : forall prev prev' st,
  ends_with_blank rest = false ->
  parseLoop false prev rest st
  = parseLoop false prev' (without_blanks rest) st.
Proof.
  induction rest as [| c tl IH]; intros prev prev' st Hend; [reflexivity |].
  assert (Htl : ends_with_blank tl = false).
  { destruct tl as [| c' tl']; [reflexivity | exact Hend]. }
  cbn [without_blanks]. destruct (is_blank c) eqn:Hb.
  - cbn [parseLoop]. rewrite Hb.
    assert (Hc : is_comma c = false).
    { unfold is_blank in Hb. unfold is_comma.
      destruct (Ascii.eqb_spec c ","); [subst c; discriminate Hb | reflexivity]. }
    assert (He : is_equals c = false).
    { unfold is_blank in Hb. unfold is_equals.
      destruct (Ascii.eqb_spec c "="); [subst c; discriminate Hb | reflexivity]. }
    rewrite Hc, He. cbn [rbind]. apply IH, Htl.
  - cbn [parseLoop]. rewrite Hb.
    assert (Hempty : String.eqb (without_blanks tl) "" = String.eqb tl "").
    { destruct tl as [| c' tl']; [reflexivity |].
      pose proof (without_blanks_nonempty c' tl' Htl) as Hne.
      destruct (without_blanks (String c' tl')); [contradiction | reflexivity]. }
    rewrite Hempty.
    destruct (is_comma c).
    + unfold assert, assertE. cbn [rbind].
      destruct (storeDirective false st); cbn [rbind]; [| reflexivity].
      apply IH, Htl.
    + destruct (is_equals c).
      * unfold assert, assertE. cbn [rbind].
        destruct (String.eqb tl ""); cbn [rbind].
        -- destruct (storeDirective false _); cbn [rbind]; [| reflexivity].
           apply IH, Htl.
        -- apply IH, Htl.
      * destruct (isParsingKey st); cbn [rbind];
          (destruct (String.eqb tl ""); cbn [rbind];
           [destruct (storeDirective false _); cbn [rbind]; [| reflexivity] |]);
          apply IH, Htl.
Qed.

(** X2: In a build without assertions the parser skips spaces, tabs
    and newlines wherever they stand: a header that does not end with one
    parses to the same object as the header with all of them removed.  (A
    blank in the last position makes the loop pass over the statement that
    stores the last directive, hence the hypothesis.) *)
Theorem production_parse_skips_blanks (header : string) :
  ends_with_blank header = false ->
  parseHeader false header = parseHeader false (without_blanks header).
Proof. intros H. unfold parseHeader. now apply blanks_are_skipped_loop. Qed.

Lemma production_parse_skips_blanks_witness :
  parseHeader false "max - age = 6 0, pri vate"
  = parseHeader false (without_blanks "max - age = 6 0, pri vate").
Proof.
  apply (production_parse_skips_blanks "max - age = 6 0, pri vate").
  reflexivity.
Defined.

Section Well_formed.
Variable DEBUG : bool.

Lemma parseCacheControlValue_usable s :
  Js.isNaN (Js.parseInt s 0) = false ->
  Js.ge (Js.parseInt s 0) (Js.Num 0) = true ->
  parseCacheControlValue DEBUG s = Ok (Js.parseInt s 0).
Proof.
  intros Hnan Hge. unfold parseCacheControlValue, assert, assertE.
  rewrite Hnan, Hge. cbn [negb orb].
  assert (Hlt : Js.lt (Js.parseInt s 0) (Js.Num 0) = false).
  { destruct (Js.parseInt s 0) as [| | | z]; try discriminate; try reflexivity.
    cbn [Js.ge Js.lt] in *. apply Z.leb_le in Hge. apply Z.ltb_ge. exact Hge. }
  rewrite Hlt. destruct DEBUG; reflexivity.
Qed.

Lemma last_char_plain s : forall prev,
  plain s = true -> s <> "" ->
  exists c, last_char prev s = Some c /\ is_equals c = false.
Proof.
  induction s as [| c s IH]; intros prev Hs Hne; [contradiction |].
  cbn [plain] in Hs. apply andb_true_iff in Hs as [Hc Hs].
  destruct s as [| c' s'].
  - exists c. split; [reflexivity |].
    apply negb_true_iff in Hc.
    apply orb_false_iff in Hc as [Hc _]. apply orb_false_iff in Hc as [_ Hc].
    exact Hc.
  - cbn [last_char]. apply (IH (Some c)); [exact Hs | discriminate].
Qed.

Lemma parseLoop_blanks gap : forall prev rest st,
  blanks gap = true -> rest <> "" ->
  exists prev', parseLoop DEBUG prev (gap ++ rest) st = parseLoop DEBUG prev' rest st.
Proof.
  induction gap as [| c gap IH]; intros prev rest st Hgap Hrest.
  - exists prev. reflexivity.
  - cbn [blanks] in Hgap. apply andb_true_iff in Hgap as [Hc Hgap].
    destruct (IH (Some c) rest st Hgap Hrest) as [prev' Hprev'].
    exists prev'. rewrite append_cons. cbn [parseLoop].
    assert (Hcomma : is_comma c = false).
    { unfold is_blank in Hc. unfold is_comma.
      destruct (Ascii.eqb_spec c ","); [subst c; discriminate Hc | reflexivity]. }
    assert (Heq : is_equals c = false).
    { unfold is_blank in Hc. unfold is_equals.
      destruct (Ascii.eqb_spec c "="); [subst c; discriminate Hc | reflexivity]. }
    rewrite Hcomma, Heq, Hc. cbn [rbind]. exact Hprev'.
Qed.

Local Abbreviation start o :=
  {| key := ""; value := ""; isParsingKey := true; cacheControlValue := o |}.

Lemma storeDirective_ok d o p :
  directive_ok d = true ->
  fst d <> "__proto__" ->
  storeDirective DEBUG
    {| key := fst d; value := default "" (snd d); isParsingKey := p;
       cacheControlValue := o |}
  = Ok (<[fst d := directive_field d]> o).
Proof.
  destruct d as [k v]. unfold directive_ok, directive_field, storeDirective.
  cbn [fst snd key value cacheControlValue].
  intros H Hp. apply String.eqb_neq in Hp. apply andb_true_iff in H as [_ H].
  destruct (NUMERIC_KEYS_has k); [| cbn [rbind]; now rewrite Hp].
  destruct v as [v |]; [| discriminate H].
  apply andb_true_iff in H as [_ H]. cbn [negb orb] in H.
  apply andb_true_iff in H as [Hnan Hge]. apply negb_true_iff in Hnan.
  cbn [default from_option id].
  rewrite parseCacheControlValue_usable by assumption. cbn [rbind].
  now rewrite Hp.
Qed.

(** A directive that ends the header. *)
Lemma parseLoop_directive_end d prev o :
  directive_ok d = true ->
  fst d <> "__proto__" ->
  parseLoop DEBUG prev (directive_text d) (start o)
  = Ok (<[fst d := directive_field d]> o).
Proof.
  intros Hd Hp. pose proof (storeDirective_ok d o) as Hstore.
  destruct d as [k v]. unfold directive_text. cbn [fst snd] in *.
  pose proof Hd as Hd'. unfold directive_ok in Hd'. cbn [fst snd] in Hd'.
  apply andb_true_iff in Hd' as [Hk Hv].
  apply andb_true_iff in Hk as [Hk Hkne]. apply negb_true_iff in Hkne.
  assert (Hkne' : k <> "") by (intros ->; discriminate).
  destruct v as [v |].
  - apply andb_true_iff in Hv as [Hv _].
    apply andb_true_iff in Hv as [Hv Hvne]. apply negb_true_iff in Hvne.
    assert (Hvne' : v <> "") by (intros ->; discriminate).
    change ("=" ++ v) with (String "=" v).
    rewrite parseLoop_plain_more by (exact Hk || discriminate).
    rewrite parseLoop_equals by exact Hvne'.
    rewrite parseLoop_plain_end by assumption.
    unfold feed. cbn [isParsingKey key value cacheControlValue].
    change ("" ++ k) with k. change ("" ++ v) with v.
    apply (Hstore false Hd Hp).
  - rewrite parseLoop_plain_end by assumption.
    unfold feed. cbn [isParsingKey key value cacheControlValue].
    change ("" ++ k) with k.
    apply (Hstore true Hd Hp).
Qed.

(** A directive that a comma follows. *)
Lemma parseLoop_directive_comma d prev rest o :
  directive_ok d = true ->
  fst d <> "__proto__" ->
  parseLoop DEBUG prev (directive_text d ++ String "," rest) (start o)
  = parseLoop DEBUG (Some ","%char) rest (start (<[fst d := directive_field d]> o)).
Proof.
  intros Hd Hp. pose proof (storeDirective_ok d o) as Hstore.
  destruct d as [k v]. unfold directive_text. cbn [fst snd] in *.
  pose proof Hd as Hd'. unfold directive_ok in Hd'. cbn [fst snd] in Hd'.
  apply andb_true_iff in Hd' as [Hk Hv].
  apply andb_true_iff in Hk as [Hk Hkne]. apply negb_true_iff in Hkne.
  assert (Hkne' : k <> "") by (intros ->; discriminate).
  destruct v as [v |].
  - apply andb_true_iff in Hv as [Hv _].
    apply andb_true_iff in Hv as [Hv Hvne]. apply negb_true_iff in Hvne.
    assert (Hvne' : v <> "") by (intros ->; discriminate).
    rewrite !append_assoc. change ("=" ++ v ++ String "," rest)
      with (String "=" (v ++ String "," rest)).
    rewrite parseLoop_plain_more by (exact Hk || discriminate).
    rewrite parseLoop_equals by (destruct v; [contradiction | discriminate]).
    rewrite parseLoop_plain_more by (exact Hv || discriminate).
    destruct (last_char_plain v (Some "="%char) Hv Hvne') as (c & -> & Hc).
    cbn [parseLoop]. change (is_comma ",") with true. cbv iota.
    unfold feed. cbn [isParsingKey key value cacheControlValue].
    change ("" ++ k) with k. change ("" ++ v) with v.
    pose proof (Hstore false Hd Hp) as Hs. cbn [default from_option id] in Hs.
    rewrite Hs.
    unfold assert, assertE. rewrite Hc. cbn [negb orb rbind].
    destruct DEBUG; reflexivity.
  - rewrite parseLoop_plain_more by (exact Hk || discriminate).
    destruct (last_char_plain k prev Hk Hkne') as (c & -> & Hc).
    cbn [parseLoop]. change (is_comma ",") with true. cbv iota.
    unfold feed. cbn [isParsingKey key value cacheControlValue].
    change ("" ++ k) with k.
    pose proof (Hstore true Hd Hp) as Hs. cbn [default from_option id] in Hs.
    rewrite Hs.
    unfold assert, assertE. rewrite Hc, Hv. cbn [negb orb rbind].
    destruct DEBUG; reflexivity.
Qed.

Lemma directive_text_nonempty d : directive_ok d = true -> directive_text d <> "".
Proof.
  destruct d as [k v]. unfold directive_ok, directive_text. cbn [fst snd].
  intros H. apply andb_true_iff in H as [H _].
  apply andb_true_iff in H as [_ H]. apply negb_true_iff in H.
  destruct k; [discriminate H |]. destruct v; discriminate.
Qed.

Lemma concat_nonempty sep d ds :
  directive_ok d = true ->
  String.concat sep (map directive_text (d :: ds)) <> "".
Proof.
  intros Hd. pose proof (directive_text_nonempty d Hd) as Hne.
  cbn [map String.concat]. destruct (map directive_text ds).
  - exact Hne.
  - destruct (directive_text d); [contradiction | discriminate].
Qed.

Lemma parseLoop_directives gap ds : forall prev o,
  blanks gap = true -> forallb directive_ok ds = true ->
  Forall (fun d => fst d <> "__proto__") ds -> ds <> [] ->
  parseLoop DEBUG prev (String.concat ("," ++ gap) (map directive_text ds)) (start o)
  = Ok (directive_fields ds o).
Proof.
  intros prev o Hgap. revert prev o.
  induction ds as [| d ds IH]; intros prev o Hds Hps Hne; [contradiction |].
  cbn [forallb] in Hds. apply andb_true_iff in Hds as [Hd Hds].
  apply Forall_cons in Hps as [Hp Hps].
  destruct ds as [| d' ds'].
  - cbn [map String.concat directive_fields fold_left].
    now apply parseLoop_directive_end.
  - change (String.concat ("," ++ gap) (map directive_text (d :: d' :: ds')))
      with (directive_text d ++ ("," ++ gap)
            ++ String.concat ("," ++ gap) (map directive_text (d' :: ds'))).
    rewrite append_assoc.
    change ("," ++ gap ++ String.concat ("," ++ gap) (map directive_text (d' :: ds')))
      with (String "," (gap ++ String.concat ("," ++ gap)
                                  (map directive_text (d' :: ds')))).
    rewrite parseLoop_directive_comma by assumption.
    assert (Hd' : directive_ok d' = true).
    { cbn [forallb] in Hds. now apply andb_true_iff in Hds as [Hd' _]. }
    destruct (parseLoop_blanks gap (Some ","%char)
                (String.concat ("," ++ gap) (map directive_text (d' :: ds')))
                (start (<[fst d := directive_field d]> o)) Hgap
                (concat_nonempty _ d' ds' Hd')) as [prev' ->].
    rewrite IH by (assumption || discriminate). reflexivity.
Qed.

End Well_formed.

(** X3: A header made of well-formed directives ([key] or
    [key=value], without separators inside, a numeric key with a value that
    [parseInt] reads as a number that is not negative), separated by a comma
    and any number of blanks, parses in either build, and the result has
    exactly the fields of the directives, a later directive overwriting an
    earlier one of the same key.  No key is [__proto__], the one name that
    an assignment does not store as a field of the object. *)
Theorem well_formed_header_parses (DEBUG : bool)
    (ds : list (string * option string)) (gap : string) :
  blanks gap = true ->
  forallb directive_ok ds = true ->
  Forall (fun d => fst d <> "__proto__") ds ->
  parseHeader DEBUG (String.concat ("," ++ gap) (map directive_text ds))
  = Ok (directive_fields ds ∅).
Proof.
  intros Hgap Hds Hps. destruct ds as [| d ds]; [reflexivity |].
  apply parseLoop_directives; [exact Hgap | exact Hds | exact Hps | discriminate].
Qed.

Lemma well_formed_header_parses_witness :
  parseHeader true "public, max-age=60, private=x, max-age=30"
  = Ok (<[ "max-age" := CNum (Js.Num 30) ]>
          (<[ "private" := CTrue ]>
             (<[ "max-age" := CNum (Js.Num 60) ]> {[ "public" := CTrue ]}))).
Proof.
  refine (eq_trans
            (well_formed_header_parses true
               [("public", None); ("max-age", Some "60"); ("private", Some "x");
                ("max-age", Some "30")] " " _ _ _) _).
  - reflexivity.
  - vm_compute. reflexivity.
  - repeat constructor; cbn; discriminate.
  - vm_compute. reflexivity.
Defined.

(* ================================================================= *)
(** ** Expiration *)

Lemma not_invalidated_initially store identifier :
  ~ is_invalidated initialWorld store identifier.
Proof. unfold is_invalidated. simpl. apply not_elem_of_empty. Qed.

Section Queries_more.
Variable DEBUG TESTING : bool.
Variable Date_parse : string -> Js.number.

(** X4: When no header constraint is configured and the cached
    response has a [Date] header that [Date.parse] cannot read, the deadline
    is [NaN] and [now >= deadline] is false: the entry is neither hard nor
    soft expired, at any time, in any build. *)
Theorem unparseable_Date_never_expires
    (config : PolicyConfig) (identifier : string) (store : Store)
    (doc : StructuredDocument) (resp : ResponseInfo) (hdrs : gmap string string)
    (date : string) (now : Z) (w : World) :
  ~ is_invalidated w store identifier ->
  peekRequest store identifier = Some doc ->
  response doc = Some resp ->
  headers resp = Some hdrs ->
  custom_verdict config doc = None ->
  constraints config ≫= constraints_headers = None ->
  Headers_get hdrs "Date" = Some date ->
  date <> "" ->
  Date_parse date = Js.NaN ->
  fst (isHardExpired DEBUG TESTING Date_parse config identifier store now w)
    = Ok false
  /\ fst (isSoftExpired TESTING Date_parse config identifier store now w)
    = Ok false.
Proof.
  intros Hinv Hpeek Hresp Hhdrs Hcustom Hch Hdate Hne Hnan. split.
  - erewrite isHardExpired_cached by eassumption.
    erewrite isExpired_unconstrained by eassumption.
    cbn [fst]. unfold check_Date.
    rewrite Hdate, truthy_str_Some by exact Hne.
    cbn [negb default from_option id]. rewrite Hnan. reflexivity.
  - unfold isSoftExpired. destruct (TESTING && _); [reflexivity |].
    rewrite Hpeek. cbn [mbind option_bind]. rewrite Hresp, Hhdrs.
    change (Headers_get hdrs "date") with (Headers_get hdrs "Date").
    rewrite Hdate, truthy_str_Some by exact Hne.
    cbn [negb default from_option id]. rewrite Hnan. reflexivity.
Qed.

(** X5: A cached response that has no [headers]: [isHardExpired]
    returns [true], while [isSoftExpired] calls [headers.get] on it and
    throws, unless the test optimization returns [false] first. *)
Theorem response_without_headers
    (config : PolicyConfig) (identifier : string) (store : Store)
    (doc : StructuredDocument) (resp : ResponseInfo) (now : Z) (w : World) :
  peekRequest store identifier = Some doc ->
  response doc = Some resp ->
  headers resp = None ->
  custom_verdict config doc = None ->
  fst (isHardExpired DEBUG TESTING Date_parse config identifier store now w)
    = Ok true
  /\ (TESTING && negb (disableTestOptimization config) = false ->
      is_Throw (fst (isSoftExpired TESTING Date_parse config identifier store
                       now w))).
Proof.
  intros Hpeek Hresp Hhdrs Hcustom. split.
  - rewrite isHardExpired_spec. destruct (bool_decide _); [reflexivity |].
    rewrite Hpeek, Hresp. unfold isExpired.
    fold (custom_verdict config doc). now rewrite Hcustom, Hresp, Hhdrs.
  - intros Htest. unfold isSoftExpired. rewrite Htest, Hpeek.
    cbn [mbind option_bind]. rewrite Hresp, Hhdrs. eexists. reflexivity.
Qed.

(** X6: When [constraints.isExpired] returns a boolean for a cached
    response, [isHardExpired] returns that boolean without reading any
    header or the clock, except that an invalidated identifier is hard
    expired whatever the function says; [isSoftExpired] never consults
    [constraints]. *)
Theorem custom_verdict_decides
    (config : PolicyConfig) (identifier : string) (store : Store)
    (doc : StructuredDocument) (resp : ResponseInfo) (b : bool)
    (now : Z) (w : World) :
  peekRequest store identifier = Some doc ->
  response doc = Some resp ->
  custom_verdict config doc = Some b ->
  (~ is_invalidated w store identifier ->
     isHardExpired DEBUG TESTING Date_parse config identifier store now w
     = (Ok b, afterGetStore store w))
  /\ (is_invalidated w store identifier ->
        fst (isHardExpired DEBUG TESTING Date_parse config identifier store now w)
        = Ok true)
  /\ isSoftExpired TESTING Date_parse config identifier store now w
     = isSoftExpired TESTING Date_parse (without_constraints config) identifier
         store now w.
Proof.
  intros Hpeek Hresp Hcustom. split; [| split].
  - intros Hinv. erewrite isHardExpired_cached by eassumption.
    unfold isExpired. fold (custom_verdict config doc). now rewrite Hcustom.
  - apply isHardExpired_invalidated.
  - reflexivity.
Qed.

(** X7: With [constraints.headers] present but none of its three
    flags enabled, [isHardExpired] decides by the [Date] header and the
    configured duration alone, whatever the other headers of the response
    say. *)
Theorem disabled_constraints_are_ignored
    (config : PolicyConfig) (identifier : string) (store : Store)
    (doc : StructuredDocument) (resp : ResponseInfo) (hdrs : gmap string string)
    (ch : HeaderConstraints) (now : Z) (w : World) :
  ~ is_invalidated w store identifier ->
  peekRequest store identifier = Some doc ->
  response doc = Some resp ->
  headers resp = Some hdrs ->
  custom_verdict config doc = None ->
  constraints config ≫= constraints_headers = Some ch ->
  constraint_X_WarpDrive_Expires ch = false ->
  constraint_Cache_Control ch = false ->
  constraint_Expires ch = false ->
  isHardExpired DEBUG TESTING Date_parse config identifier store now w
  = (Ok (check_Date TESTING Date_parse config (Headers_get hdrs "Date") now),
     afterGetStore store w).
Proof.
  intros Hinv Hpeek Hresp Hhdrs Hcustom Hch Hx Hcc He.
  erewrite isHardExpired_cached by eassumption.
  unfold isExpired. fold (custom_verdict config doc).
  rewrite Hcustom, Hresp, Hhdrs, Hch.
  unfold check_X_WarpDrive_Expires, check_Cache_Control, check_Expires, bind, ret.
  now rewrite Hx, Hcc, He.
Qed.

(** X8: With the [X-WarpDrive-Expires] constraint enabled and the
    header present, [isHardExpired] is [now >= Date.parse(header)]:
    [Cache-Control], [Expires], [Date] and the configured durations play no
    part. *)
Theorem X_WarpDrive_Expires_decides_first
    (config : PolicyConfig) (identifier : string) (store : Store)
    (doc : StructuredDocument) (resp : ResponseInfo) (hdrs : gmap string string)
    (ch : HeaderConstraints) (expires : string) (now : Z) (w : World) :
  ~ is_invalidated w store identifier ->
  peekRequest store identifier = Some doc ->
  response doc = Some resp ->
  headers resp = Some hdrs ->
  custom_verdict config doc = None ->
  constraints config ≫= constraints_headers = Some ch ->
  constraint_X_WarpDrive_Expires ch = true ->
  Headers_get hdrs "X-WarpDrive-Expires" = Some expires ->
  expires <> "" ->
  isHardExpired DEBUG TESTING Date_parse config identifier store now w
  = (Ok (Js.ge (Js.Num now) (Date_parse expires)), afterGetStore store w).
Proof.
  intros Hinv Hpeek Hresp Hhdrs Hcustom Hch Hx Hexp Hne.
  erewrite isHardExpired_cached by eassumption.
  unfold isExpired. fold (custom_verdict config doc).
  rewrite Hcustom, Hresp, Hhdrs, Hch.
  unfold check_X_WarpDrive_Expires.
  rewrite Hx, Hexp, truthy_str_Some by exact Hne. reflexivity.
Qed.

End Queries_more.

Lemma unparseable_Date_never_expires_witness :
  fst (isHardExpired true false example_Date_parse example_config "doc"
         (example_store headers_bad_date) example_now initialWorld) = Ok false
  /\ fst (isSoftExpired false example_Date_parse example_config "doc"
            (example_store headers_bad_date) example_now initialWorld) = Ok false.
Proof.
  apply (unparseable_Date_never_expires true false example_Date_parse
           example_config "doc" (example_store headers_bad_date)
           (example_document headers_bad_date)
           {| headers := Some headers_bad_date; status := 200 |}
           headers_bad_date "yesterday" example_now initialWorld).
  - apply not_invalidated_initially.
  - reflexivity.
  - reflexivity.
  - reflexivity.
  - reflexivity.
  - reflexivity.
  - vm_compute. reflexivity.
  - discriminate.
  - reflexivity.
Defined.

Lemma response_without_headers_witness :
  fst (isHardExpired true false example_Date_parse example_config "doc"
         store_without_headers example_now initialWorld) = Ok true
  /\ (false && negb (disableTestOptimization example_config) = false ->
      is_Throw (fst (isSoftExpired false example_Date_parse example_config "doc"
                       store_without_headers example_now initialWorld))).
Proof.
  apply (response_without_headers true false example_Date_parse example_config
           "doc" store_without_headers
           {| response := Some {| headers := None; status := 200 |} |}
           {| headers := None; status := 200 |} example_now initialWorld);
    reflexivity.
Defined.

Lemma custom_verdict_decides_witness :
  isHardExpired true false example_Date_parse
    (example_config_with None (Some (fun _ => Some false))) "doc"
    (example_store headers_scenario_C) example_now initialWorld
  = (Ok false, afterGetStore (example_store headers_scenario_C) initialWorld).
Proof.
  refine (proj1 (custom_verdict_decides true false example_Date_parse
                   (example_config_with None (Some (fun _ => Some false))) "doc"
                   (example_store headers_scenario_C)
                   (example_document headers_scenario_C)
                   {| headers := Some headers_scenario_C; status := 200 |}
                   false example_now initialWorld _ _ _) _).
  - reflexivity.
  - reflexivity.
  - reflexivity.
  - apply not_invalidated_initially.
Defined.

Lemma disabled_constraints_are_ignored_witness :
  isHardExpired true false example_Date_parse
    (example_config_with (Some no_header_constraint) None) "doc"
    (example_store headers_all) example_now initialWorld
  = (Ok (check_Date false example_Date_parse
           (example_config_with (Some no_header_constraint) None)
           (Headers_get headers_all "Date") example_now),
     afterGetStore (example_store headers_all) initialWorld).
Proof.
  apply (disabled_constraints_are_ignored true false example_Date_parse
           (example_config_with (Some no_header_constraint) None) "doc"
           (example_store headers_all) (example_document headers_all)
           {| headers := Some headers_all; status := 200 |} headers_all
           no_header_constraint example_now initialWorld);
    try reflexivity.
  apply not_invalidated_initially.
Defined.

Lemma X_WarpDrive_Expires_decides_first_witness :
  isHardExpired true false example_Date_parse
    (example_config_with (Some only_X_WarpDrive_Expires) None) "doc"
    (example_store headers_all) example_now initialWorld
  = (Ok (Js.ge (Js.Num example_now)
           (example_Date_parse "Tue, 14 Nov 2023 22:13:10 GMT")),
     afterGetStore (example_store headers_all) initialWorld).
Proof.
  apply (X_WarpDrive_Expires_decides_first true false example_Date_parse
           (example_config_with (Some only_X_WarpDrive_Expires) None) "doc"
           (example_store headers_all) (example_document headers_all)
           {| headers := Some headers_all; status := 200 |} headers_all
           only_X_WarpDrive_Expires "Tue, 14 Nov 2023 22:13:10 GMT"
           example_now initialWorld);
    first [apply not_invalidated_initially | reflexivity | discriminate].
Defined.

(** X9: In a test build with the test optimization left on,
    [isHardExpired] behaves as in a production build whose hard duration is
    [apiCacheSoftExpires], and [isSoftExpired] returns [false] without
    touching the policy. *)
Theorem test_build_uses_the_soft_duration
    (DEBUG : bool) (Date_parse : string -> Js.number) (config : PolicyConfig)
    (identifier : string) (store : Store) (now : Z) (w : World) :
  disableTestOptimization config = false ->
  isHardExpired DEBUG true Date_parse config identifier store now w
  = isHardExpired DEBUG false Date_parse (with_soft_as_hard config) identifier
      store now w
  /\ isSoftExpired true Date_parse config identifier store now w = (Ok false, w).
Proof.
  intros Hopt. split.
  - rewrite !isHardExpired_spec.
    destruct (bool_decide _); [reflexivity |].
    destruct (peekRequest store identifier) as [doc |]; [| reflexivity].
    destruct (response doc) as [resp |] eqn:Hresp; [| reflexivity].
    unfold isExpired. cbn [constraints with_soft_as_hard]. rewrite Hresp.
    assert (Hdate : forall date,
              check_Date true Date_parse config date now
              = check_Date false Date_parse (with_soft_as_hard config) date now).
    { intros date. unfold check_Date. rewrite Hopt. reflexivity. }
    destruct (match constraints config with Some _ => _ | None => _ end);
      [reflexivity |].
    destruct (headers resp) as [hdrs |]; [| reflexivity].
    rewrite !Hdate. reflexivity.
  - unfold isSoftExpired. now rewrite Hopt.
Qed.

Lemma test_build_uses_the_soft_duration_witness :
  isHardExpired true true example_Date_parse example_config "A" store_A_B
    example_now initialWorld
  = isHardExpired true false example_Date_parse (with_soft_as_hard example_config)
      "A" store_A_B example_now initialWorld
  /\ isSoftExpired true example_Date_parse example_config "A" store_A_B
       example_now initialWorld = (Ok false, initialWorld).
Proof.
  apply (test_build_uses_the_soft_duration true example_Date_parse example_config
           "A" store_A_B example_now initialWorld).
  reflexivity.
Defined.

(** *** Rounding keeps the order *)

Lemma toNumber_rounded z :
  Js.toNumber z
  = if 2 ^ 1024 <=? rounded (Z.abs z)
    then (if z <? 0 then Js.NInf else Js.PInf)
    else Js.Num (Z.sgn z * rounded (Z.abs z)).
Proof.
  unfold Js.toNumber, rounded. cbv zeta.
  destruct (Z.leb_spec (Z.abs z) (2 ^ 53)) as [Hle | Hgt]; [| reflexivity].
  destruct (Z.leb_spec (2 ^ 1024) (Z.abs z)) as [Hbig | _].
  - exfalso. assert (2 ^ 53 < 2 ^ 1024) by (apply Z.pow_lt_mono_r; lia). lia.
  - f_equal. lia.
Qed.

Lemma rounded_bounds a :
  2 ^ 53 < a ->
  2 ^ Z.log2 a <= rounded a <= 2 ^ (Z.log2 a + 1).
Proof.
  intros Ha. unfold rounded. destruct (Z.leb_spec a (2 ^ 53)); [lia |].
  cbv zeta.
  assert (Hlog : 53 <= Z.log2 a).
  { apply Z.log2_le_pow2; lia. }
  destruct (Z.log2_spec a ltac:(lia)) as [Hlo Hhi].
  set (e := Z.log2 a - 52) in *.
  assert (He : 0 < e) by lia.
  set (ulp := 2 ^ e) in *.
  assert (Hulp : 0 < ulp) by (apply Z.pow_pos_nonneg; lia).
  assert (H52 : 2 ^ Z.log2 a = 2 ^ 52 * ulp).
  { unfold ulp, e. rewrite <- Z.pow_add_r by lia. f_equal. lia. }
  assert (H53 : 2 ^ (Z.log2 a + 1) = 2 ^ 53 * ulp).
  { unfold ulp, e. rewrite <- Z.pow_add_r by lia. f_equal. lia. }
  replace (Z.succ (Z.log2 a)) with (Z.log2 a + 1) in Hhi by lia.
  rewrite H52, H53 in *.
  pose proof (Z.div_mod a ulp ltac:(lia)) as Hdm.
  pose proof (Z.mod_pos_bound a ulp Hulp) as Hr.
  set (q := a / ulp) in *. set (r := a mod ulp) in *.
  assert (Hq1 : 2 ^ 52 <= q) by (apply Z.div_le_lower_bound; lia).
  assert (Hq2 : q < 2 ^ 53) by (apply Z.div_lt_upper_bound; lia).
  destruct (r <? ulp / 2); [nia |].
  destruct (ulp / 2 <? r); [nia |].
  destruct (Z.even q); nia.
Qed.

Lemma rounded_same_binade a b :
  2 ^ 53 < a -> a <= b -> Z.log2 a = Z.log2 b -> rounded a <= rounded b.
Proof.
  intros Ha Hab Hlog. unfold rounded.
  destruct (Z.leb_spec a (2 ^ 53)); [lia |].
  destruct (Z.leb_spec b (2 ^ 53)); [lia |].
  cbv zeta. rewrite <- Hlog.
  set (ulp := 2 ^ (Z.log2 a - 52)).
  assert (Hulp : 0 < ulp).
  { apply Z.pow_pos_nonneg; [lia |].
    assert (53 <= Z.log2 a) by (apply Z.log2_le_pow2; lia). lia. }
  pose proof (Z.div_mod a ulp ltac:(lia)) as Hda.
  pose proof (Z.div_mod b ulp ltac:(lia)) as Hdb.
  pose proof (Z.mod_pos_bound a ulp Hulp) as Hra.
  pose proof (Z.mod_pos_bound b ulp Hulp) as Hrb.
  assert (Hq : a / ulp <= b / ulp) by (apply Z.div_le_mono; lia).
  set (qa := a / ulp) in *. set (ra := a mod ulp) in *.
  set (qb := b / ulp) in *. set (rb := b mod ulp) in *.
  set (half := ulp / 2).
  assert (Hqa : (if ra <? half then qa
                 else if half <? ra then qa + 1
                 else if Z.even qa then qa else qa + 1) <= qa + 1).
  { destruct (ra <? half); [lia |]. destruct (half <? ra); [lia |].
    destruct (Z.even qa); lia. }
  assert (Hqb : qb <= (if rb <? half then qb
                       else if half <? rb then qb + 1
                       else if Z.even qb then qb else qb + 1)).
  { destruct (rb <? half); [lia |]. destruct (half <? rb); [lia |].
    destruct (Z.even qb); lia. }
  destruct (Z.eq_dec qa qb) as [Heq | Hne].
  - assert (Hr : ra <= rb) by nia. rewrite <- Heq in *.
    apply Z.mul_le_mono_nonneg_r; [lia |].
    destruct (Z.ltb_spec ra half), (Z.ltb_spec rb half); try lia;
      destruct (Z.ltb_spec half ra), (Z.ltb_spec half rb); try lia;
      destruct (Z.even qa); lia.
  - apply Z.mul_le_mono_nonneg_r; lia.
Qed.

Lemma rounded_mono a b : 0 <= a -> a <= b -> rounded a <= rounded b.
Proof.
  intros Ha Hab.
  destruct (Z.le_gt_cases b (2 ^ 53)) as [Hb | Hb].
  - unfold rounded. destruct (Z.leb_spec a (2 ^ 53)), (Z.leb_spec b (2 ^ 53)); lia.
  - destruct (rounded_bounds b Hb) as [Hlo _].
    assert (Hlogb : 53 <= Z.log2 b) by (apply Z.log2_le_pow2; lia).
    destruct (Z.le_gt_cases a (2 ^ 53)) as [Ha' | Ha'].
    + unfold rounded at 1. destruct (Z.leb_spec a (2 ^ 53)); [| lia].
      assert (2 ^ 53 <= 2 ^ Z.log2 b) by (apply Z.pow_le_mono_r; lia). lia.
    + destruct (rounded_bounds a Ha') as [_ Hhi].
      pose proof (Z.log2_le_mono a b Hab) as Hlog.
      destruct (Z.eq_dec (Z.log2 a) (Z.log2 b)) as [Heq | Hne].
      * now apply rounded_same_binade.
      * assert (2 ^ (Z.log2 a + 1) <= 2 ^ Z.log2 b)
          by (apply Z.pow_le_mono_r; lia).
        lia.
Qed.

Lemma rounded_nonneg a : 0 <= a -> 0 <= rounded a.
Proof.
  intros Ha. unfold rounded. destruct (Z.leb_spec a (2 ^ 53)); [lia |].
  pose proof (rounded_bounds a ltac:(lia)) as [Hlo _].
  unfold rounded in Hlo. destruct (Z.leb_spec a (2 ^ 53)); [lia |].
  assert (0 < 2 ^ Z.log2 a) by (apply Z.pow_pos_nonneg; [lia | apply Z.log2_nonneg]).
  lia.
Qed.

(** [Js.toNumber] keeps the order: below a number that it sends to an
    integer or to [-Infinity], it gives no more. *)
Lemma toNumber_mono x y :
  x <= y ->
  match Js.toNumber y with
  | Js.Num m =>
      Js.toNumber x = Js.NInf \/ exists m', Js.toNumber x = Js.Num m' /\ m' <= m
  | Js.NInf => Js.toNumber x = Js.NInf
  | _ => True
  end.
Proof.
  intros Hxy. rewrite !toNumber_rounded.
  pose proof (rounded_nonneg (Z.abs x) (Z.abs_nonneg x)) as Hrx.
  pose proof (rounded_nonneg (Z.abs y) (Z.abs_nonneg y)) as Hry.
  destruct (Z.leb_spec (2 ^ 1024) (rounded (Z.abs y))) as [Hby | Hby].
  - destruct (Z.ltb_spec y 0) as [Hy | Hy]; [| exact I].
    assert (Hm : rounded (Z.abs y) <= rounded (Z.abs x))
      by (apply rounded_mono; lia).
    destruct (Z.leb_spec (2 ^ 1024) (rounded (Z.abs x))); [| lia].
    destruct (Z.ltb_spec x 0); [reflexivity | lia].
  - destruct (Z.leb_spec (2 ^ 1024) (rounded (Z.abs x))) as [Hbx | Hbx].
    + destruct (Z.ltb_spec x 0) as [Hx | Hx]; [now left |].
      assert (Hm : rounded (Z.abs x) <= rounded (Z.abs y))
        by (apply rounded_mono; lia).
      lia.
    + right. eexists. split; [reflexivity |].
      destruct (Z.le_gt_cases 0 x) as [Hx | Hx].
      * assert (Hm : rounded (Z.abs x) <= rounded (Z.abs y))
          by (apply rounded_mono; lia).
        nia.
      * destruct (Z.le_gt_cases 0 y) as [Hy | Hy]; [nia |].
        assert (Hm : rounded (Z.abs y) <= rounded (Z.abs x))
          by (apply rounded_mono; lia).
        nia.
Qed.

(** A later deadline is reached later. *)
Lemma deadline_mono now time soft hard :
  Js.ge hard soft = true ->
  Js.ge (Js.Num now) (Js.add time hard) = true ->
  Js.ge (Js.Num now) (Js.add time soft) = true.
Proof.
  destruct time as [| | | t], hard as [| | | h], soft as [| | | s];
    cbn [Js.ge Js.add]; try discriminate; try reflexivity.
  intros Hge Hnow. apply Z.leb_le in Hge.
  pose proof (toNumber_mono (t + s) (t + h) ltac:(lia)) as Hm.
  destruct (Js.toNumber (t + h)) as [| | | m]; try discriminate Hnow.
  - now rewrite Hm.
  - destruct Hm as [-> | (m' & -> & Hm')]; [reflexivity |].
    cbn [Js.ge] in *. apply Z.leb_le in Hnow. apply Z.leb_le. lia.
Qed.

(** X10: Outside of tests and without constraints, when the hard
    duration is at least the soft one, a cached response with headers whose
    identifier is not invalidated and that [isHardExpired] reports as
    expired is also reported as expired by [isSoftExpired]; this holds
    through the rounding of the two deadlines to doubles. *)
Theorem hard_expired_by_date_is_soft_expired
    (DEBUG : bool) (Date_parse : string -> Js.number) (config : PolicyConfig)
    (identifier : string) (store : Store) (doc : StructuredDocument)
    (resp : ResponseInfo) (hdrs : gmap string string) (now : Z) (w : World) :
  ~ is_invalidated w store identifier ->
  peekRequest store identifier = Some doc ->
  response doc = Some resp ->
  headers resp = Some hdrs ->
  constraints config = None ->
  Js.ge (apiCacheHardExpires config) (apiCacheSoftExpires config) = true ->
  fst (isHardExpired DEBUG false Date_parse config identifier store now w)
    = Ok true ->
  fst (isSoftExpired false Date_parse config identifier store now w) = Ok true.
Proof.
  intros Hinv Hpeek Hresp Hhdrs Hcons Hdur.
  erewrite isHardExpired_cached by eassumption.
  erewrite isExpired_unconstrained; try eassumption;
    [| unfold custom_verdict; now rewrite Hcons | now rewrite Hcons].
  cbn [fst]. unfold isSoftExpired, check_Date. cbn [andb].
  rewrite Hpeek. cbn [mbind option_bind]. rewrite Hresp, Hhdrs.
  change (Headers_get hdrs "date") with (Headers_get hdrs "Date").
  destruct (negb (Js.truthy_str (Headers_get hdrs "Date"))); [reflexivity |].
  intros [= H]. unfold ret. cbn [fst]. f_equal.
  eapply deadline_mono; eassumption.
Qed.

Lemma hard_expired_by_date_is_soft_expired_witness :
  fst (isSoftExpired false example_Date_parse example_config "B" store_A_B
         example_now initialWorld) = Ok true.
Proof.
  apply (hard_expired_by_date_is_soft_expired true example_Date_parse
           example_config "B" store_A_B
           (example_document {[ "date" := "Tue, 14 Nov 2023 22:12:10 GMT" ]})
           {| headers := Some {[ "date" := "Tue, 14 Nov 2023 22:12:10 GMT" ]};
              status := 200 |}
           {[ "date" := "Tue, 14 Nov 2023 22:12:10 GMT" ]} example_now
           initialWorld).
  - apply not_invalidated_initially.
  - reflexivity.
  - reflexivity.
  - reflexivity.
  - reflexivity.
  - reflexivity.
  - vm_compute. reflexivity.
Defined.

(* ================================================================= *)
(** ** Runs of the policy *)

Lemma Set_add_nodup x (s : list string) : NoDup s -> NoDup (Set_add x s).
Proof.
  intros Hs. unfold Set_add.
  destruct (bool_decide_reflect (x ∈ s)) as [Hx | Hx]; [exact Hs |].
  apply NoDup_app. split; [exact Hs |]. split.
  - intros y Hy Hy'. apply list_elem_of_singleton in Hy'. now subst y.
  - apply NoDup_singleton.
Qed.

Lemma register_type_nodup id t sc : sets_nodup sc -> sets_nodup (register_type id t sc).
Proof.
  intros Hsc type set. unfold register_type.
  destruct (types sc !! t) as [set' |] eqn:Ht; simpl; rewrite lookup_insert;
    destruct (decide (t = type)) as [<- | _]; try apply Hsc.
  - intros [= <-]. apply Set_add_nodup. eapply Hsc, Ht.
  - intros [= <-]. apply NoDup_singleton.
Qed.

Lemma register_types_nodup id tys sc :
  sets_nodup sc -> sets_nodup (register_types id tys sc).
Proof.
  unfold register_types. revert sc.
  induction tys as [| t tys IH]; intros sc H; simpl; [exact H |].
  apply IH, register_type_nodup, H.
Qed.

Lemma call_effect_nodup c sc : sets_nodup sc -> sets_nodup (call_effect c sc).
Proof.
  intros H. destruct c as [id s | t s | rq rs id s | |]; simpl; try exact H.
  unfold didRequest_effect. destruct (op_is rq "createRecord").
  - intros type set. rewrite invalidate_types_types. apply H.
  - destruct id; [apply register_types_nodup |]; exact H.
Qed.

Section Runs_more.
Variable DEBUG TESTING : bool.
Variable Date_parse : string -> Js.number.
Variable config : PolicyConfig.

Lemma perform_nodup c w :
  (forall r, sets_nodup (view w r)) ->
  forall r, sets_nodup (view (perform DEBUG TESTING Date_parse config c w) r).
Proof.
  intros H r. rewrite perform_view.
  destruct (decide _); [apply call_effect_nodup |]; apply H.
Qed.

Lemma performAll_nodup calls r :
  sets_nodup (view (performAll DEBUG TESTING Date_parse config calls initialWorld) r).
Proof.
  unfold performAll.
  assert (H : forall r, sets_nodup (view initialWorld r)).
  { intros r' type set H. discriminate H. }
  revert r. revert H. generalize initialWorld.
  induction calls as [| c calls IH]; intros w H r; simpl; [apply H |].
  apply IH, perform_nodup, H.
Qed.

Lemma perform_notified c w :
  exists sent,
    notified (perform DEBUG TESTING Date_parse config c w)
    = (notified w ++ notes (store_ref (call_store c)) sent)%list.
Proof.
  destruct c as [id store | type store | rq rs id store | id store now
                | id store now]; simpl.
  - rewrite invalidateRequest_spec. exists []. reflexivity.
  - rewrite invalidateRequestsForType_spec. eexists. reflexivity.
  - destruct (didRequest_changes rq rs id store w) as (_ & sent & (_ & Hn & _) & _).
    exists sent. exact Hn.
  - destruct (isHardExpired_quiet DEBUG TESTING Date_parse config id store now w)
      as (_ & Hn & _).
    exists []. rewrite Hn. simpl. now rewrite app_nil_r.
  - rewrite isSoftExpired_world. exists []. simpl. now rewrite app_nil_r.
Qed.

(** X11: A call of a method of the policy leaves the record of every
    other store as it was, and all it adds to the notifications are
    [invalidated] notifications on its own store. *)
Theorem calls_touch_only_their_store (c : Call) (w : World) :
  let w' := perform DEBUG TESTING Date_parse config c w in
  (forall s, store_ref s <> store_ref (call_store c) ->
             record_of w' s = record_of w s)
  /\ exists sent,
       notified w' = (notified w ++ notes (store_ref (call_store c)) sent)%list.
Proof.
  intros w'. split; [| apply perform_notified].
  intros s Hs. rewrite !record_of_view. unfold w'. rewrite perform_view.
  now rewrite decide_False by exact Hs.
Qed.

(** X12: After any sequence of calls on a fresh policy,
    [invalidateRequestsForType] notifies each identifier registered for the
    type exactly once, notifies nothing else, and leaves each of them
    invalidated. *)
Theorem one_notification_per_dependent
    (calls : list Call) (type : string) (store : Store) :
  let w := performAll DEBUG TESTING Date_parse config calls initialWorld in
  let w' := snd (invalidateRequestsForType type store w) in
  exists sent,
    notified w' = (notified w ++ notes (store_ref store) sent)%list
    /\ NoDup sent
    /\ (forall id, id ∈ sent <-> registered w store type id)
    /\ (forall id, id ∈ sent -> is_invalidated w' store id).
Proof.
  intros w w'. exists (ids_of type (view w (store_ref store))).
  unfold w'. rewrite invalidateRequestsForType_spec. cbn [snd].
  split; [reflexivity |]. split; [| split].
  - unfold ids_of.
    destruct (types (view w (store_ref store)) !! type) as [set |] eqn:Hset;
      [| apply NoDup_nil_2].
    eapply performAll_nodup, Hset.
  - intros id. unfold registered, has_id, ids_of. rewrite record_of_view.
    destruct (types (view w (store_ref store)) !! type) as [set |]; simpl.
    + split; [eauto |]. intros (set' & [= <-] & H). exact H.
    + split; [intros H; now apply elem_of_nil in H |].
      intros (set' & H & _). discriminate H.
  - intros id Hid. unfold is_invalidated. rewrite record_of_view.
    rewrite (view_effect (store_ref store)
               (fun sc => invalidate_ids (ids_of type sc) sc) (ids_of type) w).
    rewrite decide_True by reflexivity. simpl.
    apply elem_of_union_l, elem_of_list_to_set, Hid.
Qed.

End Runs_more.

(** X13: [invalidateRequest] returns normally, adds the identifier
    to the invalidated set of the store, changes neither the registrations
    nor the notifications, and a second call changes nothing. *)
Theorem invalidateRequest_only_adds (identifier : string) (store : Store) (w : World) :
  let w' := snd (invalidateRequest identifier store w) in
  fst (invalidateRequest identifier store w) = Ok tt
  /\ invalidated (record_of w' store) = {[identifier]} ∪ invalidated (record_of w store)
  /\ types (record_of w' store) = types (record_of w store)
  /\ notified w' = notified w
  /\ snd (invalidateRequest identifier store w') = w'.
Proof.
  intros w'. unfold w'. rewrite !invalidateRequest_spec. cbn [fst snd].
  rewrite !record_of_view, view_effect, decide_True by reflexivity.
  split; [reflexivity |]. split; [simpl; now rewrite (right_id_L ∅ (∪)) |].
  split; [reflexivity |]. split; [simpl; apply app_nil_r |].
  rewrite effect_effect. apply effect_ext_at; [| reflexivity].
  unfold invalidate_ids. simpl. f_equal.
  rewrite (assoc_L (∪)). f_equal. apply (idemp_L (∪)).
Qed.

(* ================================================================= *)
(** ** The constructors *)

Lemma CachePolicy_new_accepts DEBUG arguments :
  durations_numeric (config_argument arguments) ->
  CachePolicy_new DEBUG arguments
  = Ok {| config := config_argument arguments; policy_stores := ∅ |}.
Proof.
  unfold CachePolicy_new. fold (config_argument arguments).
  intros (props & -> & Hsoft & Hhard).
  unfold assertE. cbn [jsval_truthy get_prop rbind]. rewrite Hsoft, Hhard.
  destruct DEBUG; reflexivity.
Qed.

Lemma CachePolicy_new_rejects arguments :
  ~ durations_numeric (config_argument arguments) ->
  is_Throw (CachePolicy_new true arguments).
Proof.
  unfold CachePolicy_new. fold (config_argument arguments).
  generalize (config_argument arguments). intros v Hv.
  unfold assertE, is_Throw.
  destruct v as [| | [|] | n | s | props];
    cbn [jsval_truthy get_prop rbind typeof];
    try (eexists; reflexivity).
  - destruct (Js.truthy n); cbn [rbind]; eexists; reflexivity.
  - destruct (negb (String.eqb s "")); cbn [rbind]; eexists; reflexivity.
  - destruct (String.eqb_spec (typeof (props "apiCacheSoftExpires")) "number")
      as [Hsoft |]; cbn [rbind]; [| eexists; reflexivity].
    destruct (String.eqb_spec (typeof (props "apiCacheHardExpires")) "number")
      as [Hhard |]; cbn [rbind]; [| eexists; reflexivity].
    exfalso. apply Hv. exists props. auto.
Qed.

(** X14: [new CachePolicy(store, config)], the deprecated call with
    a store, takes its second argument for the config.  The subclass
    [LifetimesService] hands only its first parameter to [super], so the
    same two arguments make it take the store for the config: without
    assertions it keeps the store as its config, with assertions it throws
    unless the store happens to have the two durations. *)
Theorem LifetimesService_takes_its_first_argument
    (DEBUG : bool) (store configuration : jsval) :
  durations_numeric configuration ->
  CachePolicy_new DEBUG [store; configuration]
  = Ok {| config := configuration; policy_stores := ∅ |}
  /\ LifetimesService_new DEBUG [store; configuration]
     = CachePolicy_new DEBUG [store]
  /\ LifetimesService_new false [store; configuration]
     = Ok {| config := store; policy_stores := ∅ |}
  /\ (~ durations_numeric store ->
      is_Throw (LifetimesService_new true [store; configuration])).
Proof.
  intros Hconfig. split; [| split; [reflexivity | split; [reflexivity |]]].
  - now apply (CachePolicy_new_accepts DEBUG [store; configuration]).
  - intros Hstore. now apply (CachePolicy_new_rejects [store]).
Qed.

Lemma LifetimesService_takes_its_first_argument_witness :
  CachePolicy_new true [store_object; config_object]
  = Ok {| config := config_object; policy_stores := ∅ |}
  /\ LifetimesService_new true [store_object; config_object]
     = CachePolicy_new true [store_object]
  /\ LifetimesService_new false [store_object; config_object]
     = Ok {| config := store_object; policy_stores := ∅ |}
  /\ (~ durations_numeric store_object ->
      is_Throw (LifetimesService_new true [store_object; config_object])).
Proof.
  apply (LifetimesService_takes_its_first_argument true store_object config_object).
  eexists. split; [reflexivity |]. split; reflexivity.
Defined.

(* ================================================================= *)
(** ** Strings of the host *)

(** ** Strings *)

Lemma last_char_app a : forall p b, last_char p (a ++ b) = last_char (last_char p a) b.
Proof.
  induction a as [| c a IH]; intros p b; [reflexivity |].
  rewrite append_cons. cbn [last_char]. apply IH.
Qed.

Lemma endsWith_char s c :
  endsWith s (String c "")
  = match last_char None s with
    | Some d => Ascii.eqb d c
    | None => false
    end.
Proof.
  induction s as [| d s IH]; [reflexivity |].
  cbn [endsWith]. rewrite IH. destruct s as [| d' s'].
  - cbn [String.eqb last_char]. destruct (Ascii.eqb d c); reflexivity.
  - cbn [String.eqb last_char]. destruct (Ascii.eqb d c); reflexivity.
Qed.

Lemma last_char_nonempty c s p : last_char p (String c s) = last_char None (String c s).
Proof. reflexivity. Qed.

Lemma endsWith_app a b c :
  b <> "" -> endsWith (a ++ b) (String c "") = endsWith b (String c "").
Proof.
  intros Hb. rewrite !endsWith_char, last_char_app.
  destruct b as [| d b]; [contradiction | reflexivity].
Qed.

Lemma append_eq_empty (a b : string) : a ++ b = "" -> a = "" /\ b = "".
Proof. destruct a; [intros H; split; [reflexivity | exact H] | discriminate]. Qed.

Lemma concat_snoc sep l x :
  l <> [] -> String.concat sep (l ++ [x]) = String.concat sep l ++ sep ++ x.
Proof.
  induction l as [| y l IH]; intros Hne; [contradiction |].
  destruct l as [| z l'].
  - reflexivity.
  - change (String.concat sep ((y :: z :: l') ++ [x]))
      with (y ++ sep ++ String.concat sep ((z :: l') ++ [x])).
    rewrite IH by discriminate.
    change (String.concat sep (y :: z :: l'))
      with (y ++ sep ++ String.concat sep (z :: l')).
    now rewrite !append_assoc.
Qed.

Lemma concat_ends sep l c :
  l <> [] ->
  Forall (fun s => s <> "" /\ endsWith s (String c "") = false) l ->
  String.concat sep l <> "" /\ endsWith (String.concat sep l) (String c "") = false.
Proof.
  induction l as [| x l IH]; intros Hne Hl; [contradiction |].
  apply Forall_cons in Hl as [[Hx Hxe] Hl].
  destruct l as [| y l'].
  - split; assumption.
  - destruct (IH ltac:(discriminate) Hl) as [Hne' He'].
    change (String.concat sep (x :: y :: l'))
      with (x ++ sep ++ String.concat sep (y :: l')).
    split.
    + intros H. apply append_eq_empty in H as [H _]. contradiction.
    + rewrite <- append_assoc. rewrite endsWith_app by exact Hne'. exact He'.
Qed.

Lemma prefix_app p s : String.prefix p (p ++ s) = true.
Proof.
  induction p as [| c p IH]; [now destruct s |].
  rewrite append_cons. cbn [String.prefix].
  destruct (ascii_dec c c); [exact IH | contradiction].
Qed.

Lemma concat_starts sep x l : String.prefix x (String.concat sep (x :: l)) = true.
Proof.
  destruct l as [| y l'].
  - cbn [String.concat]. rewrite <- (append_empty_r x) at 2. apply prefix_app.
  - change (String.concat sep (x :: y :: l'))
      with (x ++ sep ++ String.concat sep (y :: l')).
    apply prefix_app.
Qed.

(** ** [encodeURIComponent] *)

Lemma no_slash_app a b : no_slash (a ++ b) = no_slash a && no_slash b.
Proof.
  induction a as [| c a IH]; [reflexivity |].
  rewrite append_cons. unfold no_slash in *. cbn [list_ascii_of_string forallb].
  now rewrite IH, andb_assoc.
Qed.

Lemma encodeChar_no_slash c : no_slash (encodeChar uriUnreserved c) = true.
Proof. destruct c as [[] [] [] [] [] [] [] []]; vm_compute; reflexivity. Qed.

Lemma encodeChar_nonempty keep c : encodeChar keep c <> "".
Proof.
  unfold encodeChar. destruct (keep c); [discriminate |].
  unfold utf8. destruct (_ <? _)%N; discriminate.
Qed.

Lemma encodeURIComponent_no_slash s : no_slash (encodeURIComponent s) = true.
Proof.
  induction s as [| c s IH]; [reflexivity |].
  cbn [encodeURIComponent]. now rewrite no_slash_app, encodeChar_no_slash, IH.
Qed.

Lemma encodeURIComponent_nonempty s : s <> "" -> encodeURIComponent s <> "".
Proof.
  destruct s as [| c s]; [contradiction |]. intros _ H.
  cbn [encodeURIComponent] in H. apply append_eq_empty in H as [H _].
  exact (encodeChar_nonempty _ _ H).
Qed.

Lemma no_slash_last s p :
  no_slash s = true -> s <> "" ->
  exists c, last_char p s = Some c /\ Ascii.eqb c "/" = false.
Proof.
  revert p. induction s as [| c s IH]; intros p Hs Hne; [contradiction |].
  unfold no_slash in Hs. cbn [list_ascii_of_string forallb] in Hs.
  apply andb_true_iff in Hs as [Hc Hs]. apply negb_true_iff in Hc.
  destruct s as [| d s'].
  - exists c. split; [reflexivity | exact Hc].
  - cbn [last_char]. apply (IH (Some c)); [exact Hs | discriminate].
Qed.

Lemma no_slash_endsWith s : no_slash s = true -> endsWith s "/" = false.
Proof.
  intros Hs. rewrite endsWith_char. destruct s as [| c s]; [reflexivity |].
  destruct (no_slash_last (String c s) None Hs ltac:(discriminate)) as (d & -> & Hd).
  exact Hd.
Qed.

Lemma no_slash_startsWith s : no_slash s = true -> startsWith s "/" = false.
Proof.
  destruct s as [| c s]; [reflexivity |]. unfold no_slash, startsWith.
  cbn [list_ascii_of_string forallb String.prefix]. intros H.
  apply andb_true_iff in H as [H _]. apply negb_true_iff in H.
  destruct (ascii_dec "/" c) as [<- |]; [discriminate H | reflexivity].
Qed.

(** ** Assertions *)

Lemma assert_true DEBUG m : assert DEBUG m true = Ok tt.
Proof. unfold assert, assertE. destruct DEBUG; reflexivity. Qed.

Lemma assertE_true DEBUG m : assertE DEBUG m (Ok true) = Ok tt.
Proof. unfold assertE. destruct DEBUG; reflexivity. Qed.

Lemma assertE_production m c : assertE false m c = Ok tt.
Proof. reflexivity. Qed.

Lemma assert_production m c : assert false m c = Ok tt.
Proof. reflexivity. Qed.

Lemma rbind_Ok_inv {A B} (m : result A) (k : A -> result B) b :
  rbind m k = Ok b -> exists a, m = Ok a /\ k a = Ok b.
Proof. destruct m as [a | e]; [eauto | discriminate]. Qed.

Lemma assert_inv m c : assert true m c = Ok tt -> c = true.
Proof. unfold assert, assertE. cbn [rbind]. destruct c; [reflexivity | discriminate]. Qed.

Lemma assertE_inv m c : assertE true m c = Ok tt -> c = Ok true.
Proof.
  unfold assertE. destruct c as [[|] | e]; cbn [rbind];
    [reflexivity | discriminate | discriminate].
Qed.

Lemma assert_Ok DEBUG m c u : assert DEBUG m c = Ok u -> DEBUG = true -> c = true.
Proof. intros H ->. destruct u. eapply assert_inv, H. Qed.

Lemma assertE_Ok DEBUG m c u : assertE DEBUG m c = Ok u -> DEBUG = true -> c = Ok true.
Proof. intros H ->. destruct u. eapply assertE_inv, H. Qed.

(* ================================================================= *)
(** ** URLs *)

(** X15: The hosts [''] and ['/'] are equivalent for [buildBaseURL],
    whether the host is passed in the options or comes from the global
    configuration: the result, or the error, is the same. *)
Theorem empty_host_and_slash_host_agree
    (DEBUG : bool) (C : CONFIG) (options : UrlOptions.t) :
  buildBaseURL DEBUG C (with_host options "/")
  = buildBaseURL DEBUG C (with_host options "")
  /\ (UrlOptions.host options = None ->
      buildBaseURL DEBUG {| CONFIG_host := "/";
                            CONFIG_namespace := CONFIG_namespace C |} options
      = buildBaseURL DEBUG {| CONFIG_host := "";
                              CONFIG_namespace := CONFIG_namespace C |} options).
Proof.
  split.
  - unfold buildBaseURL, with_host.
    cbn [UrlOptions.host UrlOptions.op UrlOptions.identifier
         UrlOptions.identifiers UrlOptions.fieldPath UrlOptions.resourcePath
         UrlOptions.namespace default from_option id].
    change (String.eqb "/" "/" || negb (endsWith "/" "/")) with true.
    change (String.eqb "" "/" || negb (endsWith "" "/")) with true.
    rewrite !assert_true. reflexivity.
  - intros Hhost. unfold buildBaseURL. rewrite Hhost.
    cbn [CONFIG_host CONFIG_namespace default from_option id].
    change (String.eqb "/" "/" || negb (endsWith "/" "/")) with true.
    change (String.eqb "" "/" || negb (endsWith "" "/")) with true.
    rewrite !assert_true. reflexivity.
Qed.

(** X16: For an operation other than [findMany], options without
    [identifier] never give a URL when no [resourcePath] is passed: a build
    with assertions fails an assertion, a build without them fails on reading
    a property of [undefined].  Passing a [resourcePath] switches the
    assertions off, and an operation with a primary record then fails on
    [identifier.id] in either build. *)
Theorem missing_identifier_throws (C : CONFIG) (options : UrlOptions.t) :
  UrlOptions.identifier options = None ->
  url_op_is options "findMany" = false ->
  (hasResourcePath options = false ->
     (exists m, buildBaseURL true C options = Throw (AssertionError m))
     /\ (exists m, buildBaseURL false C options = Throw (TypeError m)))
  /\ (hasResourcePath options = true ->
      isOperationWithPrimaryRecord options = true ->
      forall DEBUG, exists m, buildBaseURL DEBUG C options = Throw (TypeError m)).
Proof.
  intros Hid Hmany. split.
  - intros Hrp. split.
    + unfold buildBaseURL, assert, assertE. rewrite Hrp, Hid, Hmany.
      cbn [orb rbind].
      destruct (nonempty_string (UrlOptions.op options)); cbn [rbind];
        eexists; reflexivity.
    + unfold buildBaseURL. rewrite !assertE_production, !assert_production.
      cbn [rbind]. rewrite Hid.
      destruct (isOperationWithPrimaryRecord options); cbn [rbind];
        [eexists; reflexivity |].
      unfold hasResourcePath in Hrp. fold (nonempty_string (UrlOptions.resourcePath options)) in Hrp.
      rewrite Hrp. unfold resourcePathForType.
      rewrite assert_production, Hmany, Hid. cbn [rbind]. eexists. reflexivity.
  - intros Hrp Hprimary DEBUG. unfold buildBaseURL.
    rewrite Hrp, Hprimary, Hid. cbn [orb].
    rewrite !assert_true, !assertE_true. cbn [rbind]. eexists. reflexivity.
Qed.

Lemma setBuildURLConfig_CONFIG DEBUG config C :
  is_Some (BuildURLConfig.host config) \/ is_Some (BuildURLConfig.namespace config) ->
  setBuildURLConfig DEBUG (Some config) C
  = ((assert DEBUG
        ("buildBaseURL: host must NOT end with '/', received '"
         ++ or_empty (BuildURLConfig.host config) ++ "'")
        (String.eqb (or_empty (BuildURLConfig.host config)) "/"
         || negb (endsWith (or_empty (BuildURLConfig.host config)) "/")) ;;
      assert DEBUG
        ("buildBaseURL: namespace must NOT start with '/', received '"
         ++ or_empty (BuildURLConfig.namespace config) ++ "'")
        (negb (startsWith (or_empty (BuildURLConfig.namespace config)) "/")) ;;
      assert DEBUG
        ("buildBaseURL: namespace must NOT end with '/', received '"
         ++ or_empty (BuildURLConfig.namespace config) ++ "'")
        (negb (endsWith (or_empty (BuildURLConfig.namespace config)) "/")))%result,
     {| CONFIG_host := or_empty (BuildURLConfig.host config);
        CONFIG_namespace := or_empty (BuildURLConfig.namespace config) |}).
Proof.
  intros Hgiven. unfold setBuildURLConfig.
  rewrite bool_decide_eq_true_2 by eauto. rewrite assert_true.
  assert (Hc : bool_decide (is_Some (BuildURLConfig.host config))
               || bool_decide (is_Some (BuildURLConfig.namespace config)) = true).
  { apply orb_true_iff.
    destruct Hgiven; [left | right]; now apply bool_decide_eq_true_2. }
  now rewrite Hc, assert_true.
Qed.

(** X17: [setBuildURLConfig] writes host and namespace ([''] for a
    missing or null one) into the global configuration before it checks
    them: when the call throws because the host ends with ['/'], the
    rejected host is configured all the same. *)
Theorem setBuildURLConfig_stores_before_it_checks
    (DEBUG : bool) (config : BuildURLConfig.t) (C : CONFIG) :
  is_Some (BuildURLConfig.host config) \/ is_Some (BuildURLConfig.namespace config) ->
  snd (setBuildURLConfig DEBUG (Some config) C)
  = {| CONFIG_host := or_empty (BuildURLConfig.host config);
       CONFIG_namespace := or_empty (BuildURLConfig.namespace config) |}
  /\ (DEBUG = true ->
      endsWith (or_empty (BuildURLConfig.host config)) "/" = true ->
      or_empty (BuildURLConfig.host config) <> "/" ->
      is_Throw (fst (setBuildURLConfig DEBUG (Some config) C))).
Proof.
  intros Hgiven. rewrite setBuildURLConfig_CONFIG by exact Hgiven.
  split; [reflexivity |].
  intros -> Hends Hne. cbn [fst]. unfold assert, assertE. rewrite Hends.
  destruct (String.eqb_spec (or_empty (BuildURLConfig.host config)) "/");
    [contradiction |].
  cbn [orb negb rbind]. eexists. reflexivity.
Qed.

(** X18: The values set by [setBuildURLConfig] are used by
    [buildBaseURL] exactly as if they had been passed as [host] and
    [namespace] in the options, and they play no part when the options
    carry both. *)
Theorem configured_values_are_defaults
    (DEBUG : bool) (config : BuildURLConfig.t) (C C' : CONFIG)
    (options : UrlOptions.t) :
  is_Some (BuildURLConfig.host config) \/ is_Some (BuildURLConfig.namespace config) ->
  UrlOptions.host options = None ->
  UrlOptions.namespace options = None ->
  buildBaseURL DEBUG (snd (setBuildURLConfig DEBUG (Some config) C)) options
  = buildBaseURL DEBUG C'
      (with_host_and_namespace options
         (or_empty (BuildURLConfig.host config))
         (or_empty (BuildURLConfig.namespace config)))
  /\ forall host namespace,
       buildBaseURL DEBUG (snd (setBuildURLConfig DEBUG (Some config) C))
         (with_host_and_namespace options host namespace)
       = buildBaseURL DEBUG C (with_host_and_namespace options host namespace).
Proof.
  intros Hgiven Hhost Hns.
  rewrite setBuildURLConfig_CONFIG by exact Hgiven. cbn [snd].
  split.
  - unfold buildBaseURL, with_host_and_namespace. rewrite Hhost, Hns. reflexivity.
  - intros host namespace. reflexivity.
Qed.

Lemma missing_identifier_throws_witness :
  (exists m, buildBaseURL true example_CONFIG (options_without_identifier None)
             = Throw (AssertionError m))
  /\ (exists m, buildBaseURL false example_CONFIG (options_without_identifier None)
                = Throw (TypeError m))
  /\ (forall DEBUG, exists m,
        buildBaseURL DEBUG example_CONFIG (options_without_identifier (Some "users"))
        = Throw (TypeError m)).
Proof.
  split; [| split].
  - refine (proj1 (proj1 (missing_identifier_throws example_CONFIG
                            (options_without_identifier None) _ _) _));
      reflexivity.
  - refine (proj2 (proj1 (missing_identifier_throws example_CONFIG
                            (options_without_identifier None) _ _) _));
      reflexivity.
  - refine (proj2 (missing_identifier_throws example_CONFIG
                     (options_without_identifier (Some "users")) _ _) _ _);
      reflexivity.
Defined.

Lemma setBuildURLConfig_stores_before_it_checks_witness :
  snd (setBuildURLConfig true (Some example_BuildURLConfig) example_CONFIG)
  = {| CONFIG_host := "https://api.example.com/"; CONFIG_namespace := "" |}
  /\ is_Throw (fst (setBuildURLConfig true (Some example_BuildURLConfig)
                      example_CONFIG)).
Proof.
  destruct (setBuildURLConfig_stores_before_it_checks true example_BuildURLConfig
              example_CONFIG) as [Hstored Hthrows].
  - left. eexists. reflexivity.
  - split; [exact Hstored |].
    apply Hthrows; [reflexivity | reflexivity | discriminate].
Defined.

Lemma configured_values_are_defaults_witness :
  buildBaseURL true
    (snd (setBuildURLConfig true (Some example_BuildURLConfig) example_CONFIG))
    example_UrlOptions
  = buildBaseURL true example_CONFIG
      (with_host_and_namespace example_UrlOptions "https://api.example.com/" "").
Proof.
  refine (proj1 (configured_values_are_defaults true example_BuildURLConfig
                   example_CONFIG example_CONFIG example_UrlOptions _ _ _)).
  - left. eexists. reflexivity.
  - reflexivity.
  - reflexivity.
Defined.

Lemma nonempty_true s : nonempty s = true -> s <> "".
Proof. unfold nonempty. intros H ->. discriminate H. Qed.

Lemma nonempty_intro s : s <> "" -> nonempty s = true.
Proof. destruct s; [contradiction | reflexivity]. Qed.

Lemma filter_Boolean_cons_nonempty s l :
  s <> "" -> filter_Boolean (Some s :: l) = s :: filter_Boolean l.
Proof. intros H. cbn [filter_Boolean]. now rewrite nonempty_intro. Qed.

Lemma filter_Boolean_cons_empty l : filter_Boolean (Some "" :: l) = filter_Boolean l.
Proof. reflexivity. Qed.

Lemma filter_Boolean_Forall (P : string -> Prop) l :
  Forall (fun x => forall s, x = Some s -> P s) l ->
  Forall (fun s => s <> "" /\ P s) (filter_Boolean l).
Proof.
  induction 1 as [| x l Hx Hl IH]; [constructor |].
  cbn [filter_Boolean]. destruct x as [s |]; [| exact IH].
  destruct (nonempty s) eqn:Hs; [| exact IH].
  constructor; [| exact IH]. split; [apply nonempty_true, Hs | now apply Hx].
Qed.

Lemma filter_Boolean_app a b :
  filter_Boolean (a ++ b) = (filter_Boolean a ++ filter_Boolean b)%list.
Proof.
  induction a as [| [s |] a IH]; cbn [filter_Boolean app]; [reflexivity | |];
    [destruct (nonempty s); now rewrite IH | exact IH].
Qed.

(** What the checks of a build with assertions leave of the resource path. *)
Lemma checked_resourcePath options rp :
  (if nonempty_string (UrlOptions.resourcePath options)
   then Ok (UrlOptions.resourcePath options)
   else resourcePathForType true options) = Ok rp ->
  (if hasResourcePath options || url_op_is options "findMany"
   then Ok true
   else match UrlOptions.identifier options with
        | Some i => Ok (nonempty_string (Identifier.type i))
        | None => cannot_read "type"
        end) = Ok true ->
  (if hasResourcePath options || negb (url_op_is options "findMany")
   then Ok true
   else match UrlOptions.identifiers options with
        | Some (i :: _) => Ok (nonempty_string (Identifier.type i))
        | Some [] => cannot_read "type"
        | None => cannot_read "0"
        end) = Ok true ->
  nonempty_string rp = true.
Proof.
  unfold hasResourcePath.
  fold (nonempty_string (UrlOptions.resourcePath options)).
  destruct (nonempty_string (UrlOptions.resourcePath options)) eqn:Hrp.
  - intros [= <-] _ _. exact Hrp.
  - cbn [orb]. unfold resourcePathForType.
    intros H. apply rbind_Ok_inv in H as (u & _ & H). revert H.
    destruct (url_op_is options "findMany"); cbn [negb].
    + intros H _ H7. destruct (UrlOptions.identifiers options) as [[| i l] |];
        try discriminate H.
      injection H as <-. now injection H7.
    + intros H H6 _. destruct (UrlOptions.identifier options) as [i |];
        try discriminate H.
      injection H as <-. now injection H6.
Qed.

(** X19: A URL that [buildBaseURL] returns in a build with
    assertions starts with the host, or with ['/'] when there is no host,
    and never ends with ['/']. *)
Theorem checked_URL_is_well_formed
    (C : CONFIG) (options : UrlOptions.t) (url : string) :
  buildBaseURL true C options = Ok url ->
  startsWith url (if hasHost (host_of C options) then host_of C options else "/")
    = true
  /\ endsWith url "/" = false.
Proof.
  unfold buildBaseURL. fold (host_of C options).
  set (host := host_of C options).
  set (namespace := default (CONFIG_namespace C) (UrlOptions.namespace options)).
  intros H.
  apply rbind_Ok_inv in H as (u1 & _ & H).
  apply rbind_Ok_inv in H as (u2 & _ & H).
  apply rbind_Ok_inv in H as (u3 & _ & H).
  apply rbind_Ok_inv in H as (u4 & _ & H).
  apply rbind_Ok_inv in H as (u5 & _ & H).
  apply rbind_Ok_inv in H as (u6 & H6 & H).
  apply rbind_Ok_inv in H as (u7 & H7 & H).
  apply rbind_Ok_inv in H as (idPath & _ & H).
  apply rbind_Ok_inv in H as (rp & Hrp & H).
  apply rbind_Ok_inv in H as (u8 & _ & H).
  apply rbind_Ok_inv in H as (u9 & H9 & H).
  apply rbind_Ok_inv in H as (u10 & _ & H).
  apply rbind_Ok_inv in H as (u11 & H11 & H).
  apply rbind_Ok_inv in H as (u12 & _ & H).
  apply rbind_Ok_inv in H as (u13 & H13 & H).
  apply rbind_Ok_inv in H as (u14 & _ & H).
  apply rbind_Ok_inv in H as (u15 & H15 & H).
  apply rbind_Ok_inv in H as (u16 & _ & H).
  apply rbind_Ok_inv in H as (u17 & H17 & H).
  injection H as <-.
  apply assertE_Ok in H6, H7, H13; try reflexivity.
  apply assert_Ok in H9, H11, H15, H17; try reflexivity.
  pose proof (checked_resourcePath options rp Hrp H6 H7) as Hrp_ne.
  destruct rp as [s |]; [| discriminate Hrp_ne].
  cbn [nonempty_string] in Hrp_ne. apply nonempty_true in Hrp_ne.
  injection H13 as H13.
  apply negb_true_iff in H11, H13, H15, H17.
  set (segments := [Some namespace; Some s; Some idPath;
                    Some (default "" (UrlOptions.fieldPath options))]).
  assert (Hsegs : Forall (fun x => x <> "" /\ endsWith x "/" = false)
                         (filter_Boolean segments)).
  { apply filter_Boolean_Forall. repeat constructor; intros x [= <-]; assumption. }
  assert (Hne : filter_Boolean segments <> []).
  { unfold segments. cbn [filter_Boolean].
    destruct (nonempty namespace); rewrite (nonempty_intro s Hrp_ne);
      discriminate. }
  unfold joinSegments. fold segments.
  destruct (hasHost host) eqn:Hhost.
  - unfold hasHost in Hhost. apply andb_true_iff in Hhost as [Hh1 Hh2].
    apply negb_true_iff in Hh2. rewrite Hh2 in H9. cbn [orb] in H9.
    apply negb_true_iff in H9.
    assert (Hh : host <> "") by (intros Heq; rewrite Heq in Hh1; discriminate Hh1).
    rewrite filter_Boolean_cons_nonempty by exact Hh.
    split; [apply concat_starts |].
    apply concat_ends; [discriminate |]. constructor; [split |]; assumption.
  - rewrite filter_Boolean_cons_empty.
    destruct (concat_ends "/" (filter_Boolean segments) "/" Hne Hsegs) as [Hc He].
    split; [apply (prefix_app "/") |].
    now rewrite endsWith_app.
Qed.

Lemma checked_URL_is_well_formed_witness :
  startsWith "https://api.example.com/api/v1/ember-developer/a%2Fb"
    "https://api.example.com" = true
  /\ endsWith "https://api.example.com/api/v1/ember-developer/a%2Fb" "/" = false.
Proof.
  apply (checked_URL_is_well_formed example_CONFIG example_UrlOptions).
  vm_compute. reflexivity.
Defined.

Lemma primary_operation_facts op :
  op ∈ OPERATIONS_WITH_PRIMARY_RECORDS ->
  nonempty op = true /\ String.eqb op "findMany" = false
  /\ bool_decide (op ∈ known_operations) = true.
Proof.
  unfold OPERATIONS_WITH_PRIMARY_RECORDS.
  rewrite !elem_of_union, !elem_of_singleton.
  intros [[[[-> | ->] | ->] | ->] | ->]; repeat split; vm_compute; reflexivity.
Qed.

(** X20: For each of the five operations on a primary record, and
    options with an id that is not empty and without [fieldPath]: the URL is
    the URL that the same options give for [query] (when that is more than
    the bare ['/']), followed by ['/'] and the URI-encoded id. *)
Theorem record_URL_extends_collection_URL
    (DEBUG : bool) (C : CONFIG) (options : UrlOptions.t) (op : string)
    (i : Identifier.t) (recordId base : string) :
  op ∈ OPERATIONS_WITH_PRIMARY_RECORDS ->
  UrlOptions.identifier options = Some i ->
  Identifier.id i = Some recordId ->
  recordId <> "" ->
  UrlOptions.fieldPath options = None ->
  buildBaseURL DEBUG C (with_op options "query") = Ok base ->
  base <> "/" ->
  buildBaseURL DEBUG C (with_op options op)
  = Ok (base ++ "/" ++ encodeURIComponent recordId).
Proof.
  intros Hop Hident Hid Hne Hfield Hbase Hslash.
  pose proof (bool_decide_eq_true_2 _ Hop) as Hprimary.
  destruct (primary_operation_facts op Hop) as (Hop_ne & Hmany & Hknown).
  pose proof (encodeURIComponent_no_slash recordId) as Henc.
  pose proof (encodeURIComponent_nonempty recordId Hne) as Henc_ne.
  revert Hbase. unfold buildBaseURL, resourcePathForType.
  unfold hasResourcePath, isOperationWithPrimaryRecord, url_op_is.
  cbn [with_op UrlOptions.op UrlOptions.identifier UrlOptions.identifiers
       UrlOptions.fieldPath UrlOptions.resourcePath UrlOptions.host
       UrlOptions.namespace nonempty_string].
  rewrite Hident, Hid, Hfield, Hprimary, Hop_ne, Hmany.
  change (String.eqb "query" "findMany") with false.
  change (nonempty "query") with true.
  change (bool_decide ("query" ∈ OPERATIONS_WITH_PRIMARY_RECORDS)) with false.
  change (bool_decide ("query" ∈ known_operations)) with true.
  rewrite Hknown.
  cbn [negb orb nonempty_string default from_option id text_of].
  rewrite (nonempty_intro recordId Hne).
  rewrite !orb_true_r.
  rewrite !bool_decide_eq_true_2 by eauto.
  rewrite !assert_true, !assertE_true. cbn [rbind].
  rewrite (no_slash_startsWith _ Henc), (no_slash_endsWith _ Henc).
  assert (Hif : forall b : bool, (if b then Ok true else Ok true) = Ok true :> result bool)
    by (intros []; reflexivity).
  rewrite !Hif, !assertE_true.
  change (negb (startsWith "" "/")) with true.
  change (negb (endsWith "" "/")) with true.
  cbn [rbind negb]. rewrite ?assert_true. cbn [rbind].
  intros H.
  apply rbind_Ok_inv in H as ([] & H6 & H). rewrite H6. cbn [rbind].
  apply rbind_Ok_inv in H as (rp & Hrp & H). rewrite Hrp. cbn [rbind].
  rewrite assert_true in H. rewrite assert_true. cbn [rbind] in H |- *.
  apply rbind_Ok_inv in H as ([] & H9 & H). rewrite H9. cbn [rbind].
  apply rbind_Ok_inv in H as ([] & H10 & H). rewrite H10. cbn [rbind].
  apply rbind_Ok_inv in H as ([] & H11 & H). rewrite H11. cbn [rbind].
  apply rbind_Ok_inv in H as ([] & H12 & H). rewrite H12. cbn [rbind].
  apply rbind_Ok_inv in H as ([] & H13 & H). rewrite H13. cbn [rbind].
  injection H as <-. f_equal.
  unfold joinSegments in *.
  set (h := default (CONFIG_host C) (UrlOptions.host options)) in *.
  set (ns := default (CONFIG_namespace C) (UrlOptions.namespace options)) in *.
  change [Some (if hasHost h then h else ""); Some ns; rp; Some ""; Some ""]
    with ([Some (if hasHost h then h else ""); Some ns; rp]
          ++ [Some ""; Some ""])%list in Hslash |- *.
  change [Some (if hasHost h then h else ""); Some ns; rp;
          Some (encodeURIComponent recordId); Some ""]
    with ([Some (if hasHost h then h else ""); Some ns; rp]
          ++ [Some (encodeURIComponent recordId); Some ""])%list.
  remember [Some (if hasHost h then h else ""); Some ns; rp] as front eqn:Hfront.
  rewrite !filter_Boolean_app in *. cbn [filter_Boolean] in *.
  rewrite (nonempty_intro _ Henc_ne). change (nonempty "") with false in *.
  cbv iota in *. rewrite app_nil_r in *.
  assert (Hne' : filter_Boolean front <> []).
  { intros Hnil. rewrite Hnil in Hslash. cbn [String.concat] in Hslash.
    destruct (hasHost h) eqn:Hh; [| now apply Hslash].
    rewrite Hfront in Hnil. cbn [filter_Boolean] in Hnil.
    unfold hasHost in Hh. apply andb_true_iff in Hh as [Hh _].
    unfold nonempty in Hnil. rewrite Hh in Hnil.
    destruct (negb (String.eqb ns "")), rp as [[] |]; discriminate Hnil. }
  rewrite concat_snoc by exact Hne'.
  destruct (hasHost h); [reflexivity |]. now rewrite append_assoc.
Qed.

Lemma record_URL_extends_collection_URL_witness :
  buildBaseURL true example_CONFIG (with_op example_UrlOptions "updateRecord")
  = Ok ("https://api.example.com/api/v1/ember-developer" ++ "/"
        ++ encodeURIComponent "a/b").
Proof.
  apply (record_URL_extends_collection_URL true example_CONFIG example_UrlOptions
           "updateRecord"
           {| Identifier.type := Some "ember-developer"; Identifier.id := Some "a/b" |}
           "a/b" "https://api.example.com/api/v1/ember-developer").
  - apply (bool_decide_unpack _). vm_compute. exact I.
  - reflexivity.
  - reflexivity.
  - discriminate.
  - reflexivity.
  - vm_compute. reflexivity.
  - discriminate.
Defined.

(* ================================================================= *)
(** ** Query parameters *)

(** ** The order of strings *)

Lemma ascii_compare_Eq a b : Ascii.compare a b = Eq <-> a = b.
Proof.
  split; [apply Ascii.compare_eq_iff |]. intros ->.
  unfold Ascii.compare. apply N.compare_refl.
Qed.

Lemma ascii_compare_Lt_trans a b c :
  Ascii.compare a b = Lt -> Ascii.compare b c = Lt -> Ascii.compare a c = Lt.
Proof.
  unfold Ascii.compare. rewrite !N.compare_lt_iff. lia.
Qed.

Lemma string_leb_cons a s b t :
  String.leb (String a s) (String b t)
  = match Ascii.compare a b with
    | Eq => String.leb s t
    | Lt => true
    | Gt => false
    end.
Proof.
  unfold String.leb. cbn [String.compare].
  destruct (Ascii.compare a b); reflexivity.
Qed.

Lemma string_leb_trans s : forall t u,
  String.leb s t = true -> String.leb t u = true -> String.leb s u = true.
Proof.
  induction s as [| a s IH]; intros t u Hst Htu.
  - destruct u; reflexivity.
  - destruct t as [| b t]; [discriminate Hst |].
    destruct u as [| c u]; [discriminate Htu |].
    rewrite string_leb_cons in *.
    destruct (Ascii.compare a b) eqn:Hab; [| | discriminate Hst].
    + apply ascii_compare_Eq in Hab as ->.
      destruct (Ascii.compare b c); [| reflexivity | discriminate Htu].
      eapply IH; eassumption.
    + destruct (Ascii.compare b c) eqn:Hbc; [| | discriminate Htu].
      * apply ascii_compare_Eq in Hbc as <-. now rewrite Hab.
      * now rewrite (ascii_compare_Lt_trans a b c).
Qed.

#[local] Instance string_le_trans : Transitive string_le.
Proof. intros s t u. apply string_leb_trans. Qed.

#[local] Instance string_le_antisym : AntiSymm eq string_le.
Proof. intros s t. apply String.leb_antisym. Qed.

(** ** Sorting *)

Section Sorting.
Context {A : Type} (le : A -> A -> bool).
Hypothesis le_total : forall x y, le x y = true \/ le y x = true.

Local Abbreviation R := (fun x y => le x y = true).

Lemma insert_by_perm x l : insert_by le x l ≡ₚ x :: l.
Proof.
  induction l as [| y l IH]; [reflexivity |]. cbn [insert_by].
  destruct (le x y); [reflexivity |].
  rewrite IH. apply Permutation_swap.
Qed.

Lemma sort_by_perm l : sort_by le l ≡ₚ l.
Proof.
  induction l as [| x l IH]; [reflexivity |].
  cbn [sort_by fold_right]. fold (sort_by le l).
  now rewrite insert_by_perm, IH.
Qed.

Lemma insert_by_HdRel x y l :
  le y x = true -> HdRel R y l -> HdRel R y (insert_by le x l).
Proof.
  intros Hyx Hl. destruct l as [| z l]; cbn [insert_by].
  - now constructor.
  - destruct (le x z); constructor; [exact Hyx |].
    now apply HdRel_inv in Hl.
Qed.

Lemma insert_by_Sorted x l : Sorted R l -> Sorted R (insert_by le x l).
Proof.
  induction 1 as [| y l Hl IH Hy]; cbn [insert_by].
  - repeat constructor.
  - destruct (le x y) eqn:Hxy.
    + constructor; [constructor; assumption |]. now constructor.
    + constructor; [exact IH |].
      apply insert_by_HdRel; [| exact Hy].
      destruct (le_total x y) as [H | H]; [congruence | exact H].
Qed.

Lemma sort_by_Sorted l : Sorted R (sort_by le l).
Proof.
  induction l as [| x l IH]; [constructor |].
  cbn [sort_by fold_right]. now apply insert_by_Sorted.
Qed.

End Sorting.

(** A list that is sorted already stays as it is. *)
Lemma sort_by_sorted {A} (le : A -> A -> bool) l :
  Sorted (fun x y => le x y = true) l -> sort_by le l = l.
Proof.
  induction 1 as [| x l Hl IH Hx]; [reflexivity |].
  cbn [sort_by fold_right]. fold (sort_by le l). rewrite IH.
  destruct Hx as [| y l' Hxy]; [reflexivity |].
  cbn [insert_by]. now rewrite Hxy.
Qed.

Lemma sort_strings_perm l l' :
  l ≡ₚ l' -> sort_by String.leb l = sort_by String.leb l'.
Proof.
  intros Hp. apply (Sorted_unique string_le).
  - apply (sort_by_Sorted String.leb String.leb_total).
  - apply (sort_by_Sorted String.leb String.leb_total).
  - now rewrite !sort_by_perm.
Qed.

(** ** Dictionaries *)

Section Dictionaries.
Context {number : Type}.
Implicit Types (d : list (string * Serializable number)) (v : Serializable number).

Lemma Dictionary_get_None key d :
  Dictionary_get key d = None <-> key ∉ map fst d.
Proof.
  induction d as [| [k x] d IH]; cbn [Dictionary_get map fst].
  - split; [intros _; apply not_elem_of_nil | reflexivity].
  - rewrite not_elem_of_cons. destruct (String.eqb_spec k key) as [-> | Hne].
    + split; [discriminate | intros [H _]; contradiction].
    + rewrite IH. split; [intros H; split; [congruence | exact H] | tauto].
Qed.

Lemma Dictionary_get_Some key d v :
  Dictionary_get key d = Some v -> (key, v) ∈ d.
Proof.
  induction d as [| [k x] d IH]; cbn [Dictionary_get]; [discriminate |].
  destruct (String.eqb_spec k key) as [-> | Hne].
  - intros [= ->]. apply elem_of_cons. now left.
  - intros H. apply elem_of_cons. right. apply IH. exact H.
Qed.

Lemma Dictionary_get_elem key d v :
  NoDup (map fst d) -> (key, v) ∈ d -> Dictionary_get key d = Some v.
Proof.
  induction d as [| [k x] d IH]; cbn [Dictionary_get map fst]; intros Hnd Hin.
  - now apply elem_of_nil in Hin.
  - apply NoDup_cons in Hnd as [Hk Hnd].
    apply elem_of_cons in Hin as [[= <- <-] | Hin].
    + now rewrite String.eqb_refl.
    + destruct (String.eqb_spec k key) as [-> | Hne]; [| now apply IH].
      exfalso. apply Hk. apply list_elem_of_fmap. exists (key, v). auto.
Qed.

Lemma Dictionary_set_new key v d :
  key ∉ map fst d -> Dictionary_set key v d = (d ++ [(key, v)])%list.
Proof.
  induction d as [| [k x] d IH]; cbn [Dictionary_set map fst]; [reflexivity |].
  rewrite not_elem_of_cons. intros [Hne Hd].
  destruct (String.eqb_spec k key) as [-> | _]; [contradiction |].
  now rewrite IH.
Qed.

Lemma Dictionary_set_keys key v d :
  key ∈ map fst d -> map fst (Dictionary_set key v d) = map fst d.
Proof.
  induction d as [| [k x] d IH]; cbn [Dictionary_set map fst]; intros Hin.
  - now apply elem_of_nil in Hin.
  - destruct (String.eqb_spec k key) as [-> | Hne]; [reflexivity |].
    cbn [map fst]. f_equal. apply IH.
    apply elem_of_cons in Hin as [-> | Hin]; [contradiction | exact Hin].
Qed.

Lemma Dictionary_get_set key key' v d :
  Dictionary_get key' (Dictionary_set key v d)
  = if String.eqb key key' then Some v else Dictionary_get key' d.
Proof.
  induction d as [| [k x] d IH]; cbn [Dictionary_set Dictionary_get].
  - reflexivity.
  - destruct (String.eqb_spec k key) as [-> | Hne]; cbn [Dictionary_get].
    + destruct (String.eqb key key'); reflexivity.
    + rewrite IH. destruct (String.eqb_spec k key') as [-> | Hne'];
        [| reflexivity].
      destruct (String.eqb_spec key key') as [-> | _]; [contradiction | reflexivity].
Qed.

(** On distinct names, an assignment to an own property is the rewriting
    of its entry. *)
Lemma Dictionary_set_map key v d :
  NoDup (map fst d) -> key ∈ map fst d ->
  Dictionary_set key v d
  = map (fun kv => if String.eqb (fst kv) key then (fst kv, v) else kv) d.
Proof.
  induction d as [| [k x] d IH]; cbn [Dictionary_set map fst]; intros Hnd Hin.
  - now apply elem_of_nil in Hin.
  - apply NoDup_cons in Hnd as [Hk Hnd].
    destruct (String.eqb_spec k key) as [-> | Hne].
    + f_equal. symmetry. rewrite <- (map_id d) at 2. apply map_ext_in.
      intros [k' x'] Hin'. cbn [fst].
      destruct (String.eqb_spec k' key) as [-> | _]; [| reflexivity].
      exfalso. apply Hk. apply list_elem_of_fmap. exists (key, x').
      split; [reflexivity |]. now apply list_elem_of_In.
    + f_equal. apply IH; [exact Hnd |].
      apply elem_of_cons in Hin as [-> | Hin]; [contradiction | exact Hin].
Qed.

Lemma Dictionary_get_perm key d d' :
  NoDup (map fst d) -> d ≡ₚ d' -> Dictionary_get key d = Dictionary_get key d'.
Proof.
  intros Hnd Hp.
  assert (Hnd' : NoDup (map fst d')) by now rewrite <- Hp.
  destruct (Dictionary_get key d) as [v |] eqn:Hget.
  - symmetry. apply Dictionary_get_elem; [exact Hnd' |].
    rewrite <- Hp. now apply Dictionary_get_Some.
  - symmetry. apply Dictionary_get_None. rewrite <- Hp.
    now apply Dictionary_get_None.
Qed.

(** *** [filterEmpty] *)

Lemma filterEmpty_loop source : forall result,
  NoDup (map fst (ownProperties result) ++ map fst source) ->
  fold_left
    (fun result kv =>
       if negb (isEmptyValue (snd kv)) then
         if String.eqb (fst kv) "__proto__" then
           match snd kv with
           | Many items =>
               {| ownProperties := ownProperties result;
                  arrayPrototype := Some items |}
           | Single _ => result
           end
         else
           {| ownProperties :=
                Dictionary_set (fst kv) (snd kv) (ownProperties result);
              arrayPrototype := arrayPrototype result |}
       else result)
    source result
  = {| ownProperties :=
         (ownProperties result ++ List.filter (@kept number) source)%list;
       arrayPrototype :=
         match prototype_of source with
         | Some items => Some items
         | None => arrayPrototype result
         end |}.
Proof.
  induction source as [| [k v] source IH]; intros result Hnd;
    cbn [fold_left List.filter].
  { rewrite app_nil_r. now destruct result. }
  cbn [map fst] in Hnd.
  assert (Hk : k ∉ map fst (ownProperties result)).
  { apply NoDup_app in Hnd as (_ & Hd & _). intros Hin.
    apply (Hd k Hin). apply elem_of_cons. now left. }
  assert (Hks : k ∉ map fst source).
  { apply NoDup_app in Hnd as (_ & _ & H3). now apply NoDup_cons in H3 as [H3 _]. }
  assert (Hnd' : NoDup (map fst (ownProperties result) ++ map fst source)).
  { apply NoDup_app in Hnd as (H1 & H2 & H3). apply NoDup_cons in H3 as [_ H3].
    apply NoDup_app. split; [exact H1 |]. split; [| exact H3].
    intros x Hx Hx'. apply (H2 x Hx). apply elem_of_cons. now right. }
  change (kept (k, v))
    with (negb (isEmptyValue v) && negb (String.eqb k "__proto__")).
  unfold prototype_of at 1. cbn [fst snd Dictionary_get].
  destruct (String.eqb_spec k "__proto__") as [-> | Hne].
  - assert (Hnone : prototype_of source = None).
    { unfold prototype_of.
      now rewrite (proj2 (Dictionary_get_None "__proto__" source) Hks). }
    rewrite andb_false_r.
    destruct v as [[| | b | n | [| c s]] | [| item items]];
      cbn [isEmptyValue negb];
      rewrite IH by exact Hnd'; cbn [ownProperties arrayPrototype];
      rewrite Hnone; reflexivity.
  - fold (prototype_of source). rewrite andb_true_r.
    destruct (isEmptyValue v); cbn [negb]; [now apply IH |].
    rewrite IH; cbn [ownProperties arrayPrototype].
    + rewrite Dictionary_set_new by exact Hk. now rewrite <- app_assoc.
    + rewrite Dictionary_set_new by exact Hk.
      rewrite map_app. cbn [map fst]. rewrite <- app_assoc. exact Hnd.
Qed.

Lemma filterEmpty_spec source :
  NoDup (map fst source) ->
  filterEmpty source
  = {| ownProperties := List.filter (@kept number) source;
       arrayPrototype := prototype_of source |}.
Proof.
  intros Hnd. unfold filterEmpty. rewrite filterEmpty_loop by exact Hnd.
  cbn [ownProperties arrayPrototype app]. now destruct (prototype_of source).
Qed.

Lemma filter_kept_twice source :
  List.filter (@kept number) (List.filter (@kept number) source)
  = List.filter (@kept number) source.
Proof.
  induction source as [| kv source IH]; [reflexivity |].
  cbn [List.filter]. destruct (@kept number kv) eqn:Hkv; [| exact IH].
  cbn [List.filter]. now rewrite Hkv, IH.
Qed.

Lemma filter_kept_keys source :
  NoDup (map fst source) ->
  NoDup (map fst (List.filter (@kept number) source))
  /\ "__proto__" ∉ map fst (List.filter (@kept number) source).
Proof.
  intros Hnd. split.
  - induction source as [| kv source IH]; [constructor |].
    cbn [map] in Hnd. apply NoDup_cons in Hnd as [Hk Hnd].
    cbn [List.filter]. destruct (@kept number kv); [| now apply IH].
    cbn [map]. apply NoDup_cons. split; [| now apply IH].
    intros Hin. apply Hk. apply list_elem_of_fmap in Hin as (kv' & -> & Hin).
    apply list_elem_of_fmap. exists kv'. split; [reflexivity |].
    apply list_elem_of_In, filter_In in Hin as [Hin _]. now apply list_elem_of_In.
  - intros Hin. apply list_elem_of_fmap in Hin as (kv & Hkey & Hin).
    apply list_elem_of_In, filter_In in Hin as [_ Hkept].
    unfold kept in Hkept. apply andb_true_iff in Hkept as [_ Hkept].
    rewrite <- Hkey in Hkept. discriminate Hkept.
Qed.

End Dictionaries.

(** X21: [filterEmpty], on an object with distinct names whose prototype
    is [Object.prototype], gives its result as own properties, in their
    order and with their values, exactly the properties whose value is none
    of [undefined], [null], [''] and the empty array ([0] and [false] are
    kept), except an own property named [__proto__], which is never copied:
    when its value is an array that is not empty, that array becomes the
    prototype of the result, and otherwise the prototype stays
    [Object.prototype].  In the latter case filtering the result again
    changes nothing. *)
Theorem filterEmpty_is_a_filter {number : Type}
    (source : list (string * Serializable number)) :
  NoDup (map fst source) ->
  ownProperties (filterEmpty source) = List.filter (@kept number) source
  /\ arrayPrototype (filterEmpty source)
     = match Dictionary_get "__proto__" source with
       | Some (Many (item :: items)) => Some (item :: items)
       | _ => None
       end
  /\ (arrayPrototype (filterEmpty source) = None ->
      filterEmpty (ownProperties (filterEmpty source)) = filterEmpty source).
Proof.
  intros Hnd. rewrite (filterEmpty_spec source Hnd).
  cbn [ownProperties arrayPrototype].
  split; [reflexivity |]. split; [reflexivity |].
  intros Hnone. destruct (filter_kept_keys source Hnd) as [Hnd' Hproto].
  rewrite (filterEmpty_spec _ Hnd'), filter_kept_twice, Hnone.
  unfold prototype_of.
  now rewrite (proj2 (Dictionary_get_None "__proto__" _) Hproto).
Qed.

Lemma filterEmpty_is_a_filter_witness :
  ownProperties (filterEmpty example_params)
  = [("name", Single (PString "Chris"));
     ("include", Single (PString "pets,friends"));
     ("ids", Many [PNumber 10%N; PNumber 9%N])]
  /\ arrayPrototype (filterEmpty example_params) = None
  /\ (arrayPrototype (filterEmpty example_params) = None ->
      filterEmpty (ownProperties (filterEmpty example_params))
      = filterEmpty example_params).
Proof.
  apply (filterEmpty_is_a_filter example_params).
  apply (bool_decide_unpack _). vm_compute. exact I.
Defined.

(** An own [__proto__] that holds an array: the array becomes the
    prototype of the result and is not among its own properties. *)
Example filterEmpty_array_prototype :
  filterEmpty example_params_with_prototype
  = {| ownProperties := [("a", Single (PNumber 1%N))];
       arrayPrototype := Some [PString "x"] |}.
Proof. reflexivity. Qed.

Lemma string_leb_refl s : String.leb s s = true.
Proof. now destruct (String.leb_total s s). Qed.

Section Visits.
Variable number : Type.
Variable Number_toString : number -> string.
Implicit Types (d : list (string * Serializable number)).

Local Abbreviation Array_sort' := (Array_sort number Number_toString).
Local Abbreviation appended' := (appended number Number_toString).
Local Abbreviation visit' := (visit number Number_toString).
Local Abbreviation sorted_value' := (sorted_value number Number_toString).
Local Abbreviation ToString' := (ToString number Number_toString).
Local Abbreviation sort_at' := (sort_at number Number_toString).
Local Abbreviation sort_all' := (sort_all number Number_toString).

Lemma sort_at_keys key d : map fst (map (sort_at' key) d) = map fst d.
Proof.
  rewrite map_map. apply map_ext. intros kv. unfold sort_at.
  now destruct (String.eqb (fst kv) key).
Qed.

Lemma Dictionary_get_map (f : Serializable number -> Serializable number) key d :
  Dictionary_get key (map (fun kv => (fst kv, f (snd kv))) d)
  = f <$> Dictionary_get key d.
Proof.
  induction d as [| [k v] d IH]; [reflexivity |].
  cbn [map Dictionary_get fst snd]. destruct (String.eqb k key); [reflexivity | exact IH].
Qed.

Lemma Dictionary_get_sort_at key key' d :
  Dictionary_get key' (map (sort_at' key) d)
  = if String.eqb key key' then sorted_value' <$> Dictionary_get key' d
    else Dictionary_get key' d.
Proof.
  induction d as [| [k v] d IH]; cbn [map Dictionary_get].
  - now destruct (String.eqb key key').
  - unfold sort_at at 1. cbn [fst snd].
    destruct (String.eqb_spec k key) as [-> | Hne]; cbn [Dictionary_get fst].
    + destruct (String.eqb_spec key key') as [-> | Hne']; [reflexivity |].
      rewrite IH. now destruct (String.eqb_spec key key').
    + destruct (String.eqb_spec k key') as [-> | Hne'].
      * now destruct (String.eqb_spec key key') as [-> |].
      * exact IH.
Qed.

(** One round of the loop, on distinct names. *)
Lemma visit_spec format u d key :
  NoDup (map fst d) -> key ∈ map fst d ->
  visit' format (u, d) key
  = ((u ++ appended' format key (Dictionary_get key d))%list, map (sort_at' key) d).
Proof.
  intros Hnd Hin. unfold visit'. cbn [fst snd]. f_equal.
  destruct (Dictionary_get key d) as [v |] eqn:Hget.
  - assert (Hmap : map (sort_at' key) d
                   = map (fun kv => if String.eqb (fst kv) key
                                    then (fst kv, sorted_value' v) else kv) d).
    { apply map_ext_in. intros [k x] Hkx. unfold sort_at. cbn [fst snd].
      destruct (String.eqb_spec k key) as [-> | _]; [| reflexivity].
      apply list_elem_of_In in Hkx.
      rewrite (Dictionary_get_elem _ _ _ Hnd Hkx) in Hget. now injection Hget as ->. }
    rewrite Hmap. destruct v as [p | items].
    + symmetry. rewrite <- (map_id d) at 2. apply map_ext_in.
      intros [k x] Hkx. cbn [fst].
      destruct (String.eqb_spec k key) as [-> | _]; [| reflexivity].
      apply list_elem_of_In in Hkx.
      rewrite (Dictionary_get_elem _ _ _ Hnd Hkx) in Hget. now injection Hget as ->.
    + now apply Dictionary_set_map.
  - apply Dictionary_get_None in Hget. contradiction.
Qed.

Lemma visit_all format keys : forall u d,
  NoDup keys -> NoDup (map fst d) -> (forall k, k ∈ keys -> k ∈ map fst d) ->
  fold_left (visit' format) keys (u, d)
  = ((u ++ flat_map (fun k => appended' format k (Dictionary_get k d)) keys)%list,
     map (sort_all' keys) d).
Proof.
  induction keys as [| key keys IH]; intros u d Hks Hnd Hin.
  - cbn [fold_left flat_map]. rewrite app_nil_r. f_equal.
    symmetry. rewrite <- (map_id d) at 2. apply map_ext. intros kv.
    unfold sort_all. now rewrite bool_decide_eq_false_2 by apply not_elem_of_nil.
  - apply NoDup_cons in Hks as [Hkey Hks].
    cbn [fold_left flat_map].
    rewrite visit_spec by (try assumption; apply Hin, elem_of_cons; now left).
    rewrite IH.
    + f_equal.
      * rewrite <- app_assoc. do 2 f_equal.
        rewrite !flat_map_concat_map. f_equal.
        apply map_ext_in. intros k Hk. f_equal.
        rewrite Dictionary_get_sort_at.
        destruct (String.eqb_spec key k) as [-> | _]; [| reflexivity].
        exfalso. apply Hkey. now apply list_elem_of_In.
      * rewrite map_map. apply map_ext. intros [k v].
        unfold sort_all, sort_at. cbn [fst snd].
        destruct (String.eqb_spec k key) as [-> | Hne]; cbn [fst snd].
        -- rewrite bool_decide_eq_false_2 by exact Hkey.
           rewrite bool_decide_eq_true_2 by (apply elem_of_cons; now left).
           reflexivity.
        -- destruct (bool_decide_reflect (k ∈ keys)) as [Hk | Hk].
           ++ rewrite bool_decide_eq_true_2 by (apply elem_of_cons; now right).
              reflexivity.
           ++ rewrite bool_decide_eq_false_2; [reflexivity |].
              rewrite elem_of_cons. intros [-> | H]; contradiction.
    + exact Hks.
    + now rewrite sort_at_keys.
    + intros k Hk. rewrite sort_at_keys. apply Hin, elem_of_cons. now right.
Qed.

(** The loop over all the names of the dictionary. *)
Lemma visit_sortedKeys format d :
  NoDup (map fst d) ->
  fold_left (visit' format) (sort_by String.leb (map fst d)) ([], d)
  = (flat_map (fun k => appended' format k (Dictionary_get k d))
              (sort_by String.leb (map fst d)),
     map (fun kv => (fst kv, sorted_value' (snd kv))) d).
Proof.
  intros Hnd. rewrite visit_all.
  - f_equal. apply map_ext_in. intros kv Hkv. unfold sort_all.
    rewrite bool_decide_eq_true_2; [reflexivity |].
    rewrite sort_by_perm. apply list_elem_of_fmap. exists kv.
    split; [reflexivity | now apply list_elem_of_In].
  - now rewrite sort_by_perm.
  - exact Hnd.
  - intros k. now rewrite sort_by_perm.
Qed.

(** *** Sorting an array twice *)

Lemma filter_all {A} (P : A -> bool) l :
  Forall (fun x => P x = true) l -> List.filter P l = l.
Proof.
  induction 1 as [| x l Hx Hl IH]; [reflexivity |].
  cbn [List.filter]. now rewrite Hx, IH.
Qed.

Lemma filter_none {A} (P : A -> bool) l :
  Forall (fun x => P x = false) l -> List.filter P l = [].
Proof.
  induction 1 as [| x l Hx Hl IH]; [reflexivity |].
  cbn [List.filter]. now rewrite Hx, IH.
Qed.

Lemma Forall_filter_true {A} (P : A -> bool) l :
  Forall (fun x => P x = true) (List.filter P l).
Proof.
  apply List.Forall_forall. intros x Hx. now apply filter_In in Hx as [_ Hx].
Qed.

Lemma Array_sort_twice items : Array_sort' (Array_sort' items) = Array_sort' items.
Proof.
  unfold Array_sort.
  set (le := fun x y => String.leb (ToString' x) (ToString' y)).
  set (defined := List.filter (fun v => negb (isUndefined v)) items).
  set (undefined := List.filter isUndefined items).
  assert (Hd : Forall (fun v => negb (isUndefined v) = true) (sort_by le defined)).
  { eapply Permutation_Forall; [symmetry; apply sort_by_perm |].
    apply (Forall_filter_true (fun v => negb (isUndefined v))). }
  assert (Hu : Forall (fun v => isUndefined v = true) undefined)
    by apply Forall_filter_true.
  rewrite !List.filter_app.
  rewrite (filter_all _ _ Hd), (filter_all _ _ Hu).
  rewrite (filter_none (fun v => negb (isUndefined v)) undefined).
  - rewrite (filter_none isUndefined (sort_by le defined)).
    + rewrite app_nil_r. cbn [app]. f_equal.
      apply sort_by_sorted.
      apply (sort_by_Sorted le).
      intros x y. apply String.leb_total.
    + eapply Forall_impl; [exact Hd |]. intros v Hv. simpl in Hv.
      now apply negb_true_iff in Hv.
  - eapply Forall_impl; [exact Hu |]. intros v Hv. simpl in Hv.
    now rewrite Hv.
Qed.

Lemma sorted_value_twice v : sorted_value' (sorted_value' v) = sorted_value' v.
Proof. destruct v as [p | items]; [reflexivity |]. cbn. now rewrite Array_sort_twice. Qed.

Lemma appended_sorted format key v :
  appended' format key (sorted_value' <$> v) = appended' format key v.
Proof.
  destruct v as [[p | items] |]; [reflexivity | | reflexivity].
  cbn [fmap option_fmap option_map sorted_value' sorted_value].
  unfold appended. now rewrite Array_sort_twice.
Qed.

(** *** The names that the loop appends *)

Lemma appended_names format key v :
  String.eqb format "indices" = false -> String.eqb format "bracket" = false ->
  Forall (eq key) (map fst (appended' format key v)).
Proof.
  intros Hi Hb. unfold appended. rewrite Hi, Hb.
  destruct v as [[p | items] |]; try (repeat constructor).
  destruct (String.eqb format "repeat"); [| repeat constructor].
  rewrite map_map. cbn [fst]. apply List.Forall_forall.
  intros x Hx. apply in_map_iff in Hx as (y & <- & _). reflexivity.
Qed.

Lemma visit_names format keys : forall u d,
  String.eqb format "indices" = false -> String.eqb format "bracket" = false ->
  StronglySorted string_le keys ->
  StronglySorted string_le (map fst u) ->
  Forall (fun n => Forall (string_le n) keys) (map fst u) ->
  StronglySorted string_le (map fst (fst (fold_left (visit' format) keys (u, d)))).
Proof.
  induction keys as [| key keys IH]; intros u d Hi Hb Hks Hu Hle; [exact Hu |].
  cbn [fold_left]. unfold visit' at 2, visit. cbn [fst snd].
  apply StronglySorted_inv in Hks as [Hks Hkey].
  pose proof (appended_names format key (Dictionary_get key d) Hi Hb) as Hnames.
  apply IH; try assumption.
  - rewrite map_app. clear IH.
    induction (map fst u) as [| n ns IHn].
    + cbn [app]. induction Hnames as [| x xs <- Hxs IHx]; [constructor |].
      constructor; [exact IHx |].
      eapply Forall_impl; [exact Hxs |]. intros y <-. apply string_leb_refl.
    + cbn [app]. apply StronglySorted_inv in Hu as [Hns Hn].
      apply Forall_cons in Hle as [Hnk Hle].
      constructor; [now apply IHn |].
      apply Forall_app. split; [exact Hn |].
      eapply Forall_impl; [exact Hnames |]. intros y <-.
      now apply Forall_cons in Hnk as [Hnk _].
  - rewrite map_app. apply Forall_app. split.
    + eapply Forall_impl; [exact Hle |]. intros n Hn.
      now apply Forall_cons in Hn as [_ Hn].
    + eapply Forall_impl; [exact Hnames |]. intros y <-. exact Hkey.
Qed.

End Visits.

Section Sorted_params.
Variable number : Type.
Variable Number_toString : number -> string.
Variable DEBUG : bool.

Local Abbreviation sortQueryParams' := (sortQueryParams number Number_toString DEBUG).
Local Abbreviation buildQueryParams' := (buildQueryParams number Number_toString DEBUG).
Local Abbreviation handleInclude' := (handleInclude number DEBUG).
Local Abbreviation sorted_value' := (sorted_value number Number_toString).
Local Abbreviation visit' := (visit number Number_toString).
Local Abbreviation appended' := (appended number Number_toString).
Local Abbreviation withInclude' := (withInclude number DEBUG).

Lemma sortQueryParams_object d options :
  sortQueryParams' (FromObject d) options
  = Some (dict1 <- withInclude' d ;;
          let done := fold_left (visit' (default "comma" (options ≫= arrayFormat)))
                                (sort_by String.leb (map fst dict1)) ([], dict1) in
          Ok (fst done, FromObject (snd done)))%result.
Proof. reflexivity. Qed.

Lemma withInclude_keys d dict1 :
  withInclude' d = Ok dict1 -> map fst dict1 = map fst d.
Proof.
  unfold withInclude. destruct (Dictionary_get "include" d) as [v |] eqn:Hget.
  - intros H. apply rbind_Ok_inv in H as (v' & _ & [= <-]).
    apply Dictionary_set_keys.
    apply Dictionary_get_Some in Hget. apply list_elem_of_fmap.
    now exists ("include", v).
  - now intros [= <-].
Qed.

Lemma withInclude_perm d d' :
  NoDup (map fst d) -> d ≡ₚ d' ->
  match withInclude' d, withInclude' d' with
  | Ok dict1, Ok dict1' => dict1 ≡ₚ dict1'
  | Throw e, Throw e' => e = e'
  | _, _ => False
  end.
Proof.
  intros Hnd Hp. unfold withInclude.
  assert (Hnd' : NoDup (map fst d')) by now rewrite <- Hp.
  rewrite <- (Dictionary_get_perm "include" d d' Hnd Hp).
  destruct (Dictionary_get "include" d) as [v |] eqn:Hget; [| exact Hp].
  destruct (handleInclude' v) as [v' | e]; cbn [rbind]; [| reflexivity].
  assert (Hin : "include" ∈ map fst d).
  { apply Dictionary_get_Some in Hget. apply list_elem_of_fmap.
    now exists ("include", v). }
  rewrite !Dictionary_set_map; try assumption.
  - now apply Permutation_map.
  - now rewrite <- Hp.
Qed.

(** X22: The result of [sortQueryParams] and of [buildQueryParams]
    on an object does not depend on the order in which the object lists its
    properties. *)
Theorem sortQueryParams_ignores_property_order
    (params params' : list (string * Serializable number))
    (options : option QueryParamsSerializationOptions) :
  NoDup (map fst params) ->
  params ≡ₚ params' ->
  returned (sortQueryParams' (FromObject params) options)
  = returned (sortQueryParams' (FromObject params') options)
  /\ returned (buildQueryParams' (FromObject params) options)
     = returned (buildQueryParams' (FromObject params') options).
Proof.
  intros Hnd Hp.
  assert (Hnd' : NoDup (map fst params')) by now rewrite <- Hp.
  assert (H : returned (sortQueryParams' (FromObject params) options)
              = returned (sortQueryParams' (FromObject params') options)).
  { rewrite !sortQueryParams_object. unfold returned. cbn [option_map]. f_equal.
    pose proof (withInclude_perm params params' Hnd Hp) as Hinc.
    pose proof (withInclude_keys params) as Hk.
    pose proof (withInclude_keys params') as Hk'.
    destruct (withInclude' params) as [dict1 | e], (withInclude' params') as [dict1' | e'];
      try contradiction; cbn [rbind]; [| now subst].
    specialize (Hk dict1 eq_refl). specialize (Hk' dict1' eq_refl).
    assert (Hnodup1 : NoDup (map fst dict1)) by now rewrite Hk.
    assert (Hnodup1' : NoDup (map fst dict1')) by now rewrite Hk'.
    rewrite !visit_sortedKeys by assumption. cbn [fst]. f_equal.
    rewrite (sort_strings_perm (map fst dict1) (map fst dict1'))
      by now apply Permutation_map.
    rewrite !flat_map_concat_map. f_equal. apply map_ext. intros k.
    now rewrite (Dictionary_get_perm k dict1 dict1' Hnodup1 Hinc). }
  split; [exact H |].
  unfold buildQueryParams. unfold returned in *.
  destruct (sortQueryParams' (FromObject params) options) as [[[u p] | e] |],
           (sortQueryParams' (FromObject params') options) as [[[u' p'] | e'] |];
    cbn in H |- *; congruence.
Qed.

(** X23: In the array formats [comma] and [repeat] (and any
    unknown format, which is treated as [comma]) the names of the returned
    [URLSearchParams] are in ascending order of their code units. *)
Theorem sortQueryParams_inserts_names_in_order
    (params : QueryParamsSource number)
    (options : option QueryParamsSerializationOptions)
    (urlParams : list (string * string)) (after : QueryParamsSource number) :
  default "comma" (options ≫= arrayFormat) <> "indices" ->
  default "comma" (options ≫= arrayFormat) <> "bracket" ->
  sortQueryParams' params options = Some (Ok (urlParams, after)) ->
  StronglySorted string_le (map fst urlParams).
Proof.
  intros Hi Hb. unfold sortQueryParams.
  set (format := default "comma" (options ≫= arrayFormat)) in *.
  destruct (match params with
            | FromObject object => Some object
            | FromURLSearchParams pairs => collectAll number pairs []
            end) as [d |]; [| discriminate].
  cbn [mbind option_bind].
  intros [= H]. apply rbind_Ok_inv in H as (dict1 & _ & H).
  injection H as <- _.
  apply visit_names.
  - now apply String.eqb_neq.
  - now apply String.eqb_neq.
  - apply Sorted_StronglySorted; [apply string_le_trans |].
    apply (sort_by_Sorted String.leb String.leb_total).
  - constructor.
  - constructor.
Qed.

(** X24: [sortQueryParams] changes the object it is given: an
    [include] that is a string is replaced by its array, and every array is
    sorted in place.  A second call on the object so changed returns the
    same parameters and changes nothing more. *)
Theorem sortQueryParams_twice
    (params after : list (string * Serializable number))
    (options : option QueryParamsSerializationOptions)
    (urlParams : list (string * string)) :
  NoDup (map fst params) ->
  sortQueryParams' (FromObject params) options
    = Some (Ok (urlParams, FromObject after)) ->
  after = map (fun kv => (fst kv, sorted_value' (snd kv)))
              (match withInclude' params with Ok d => d | Throw _ => params end)
  /\ sortQueryParams' (FromObject after) options
     = Some (Ok (urlParams, FromObject after)).
Proof.
  intros Hnd. rewrite !sortQueryParams_object.
  set (format := default "comma" (options ≫= arrayFormat)).
  intros [= H]. apply rbind_Ok_inv in H as (dict1 & Hdict1 & H).
  rewrite Hdict1.
  pose proof (withInclude_keys params dict1 Hdict1) as Hk.
  assert (Hnodup1 : NoDup (map fst dict1)) by now rewrite Hk.
  cbv zeta in H. rewrite visit_sortedKeys in H by exact Hnodup1. cbn [fst snd] in H.
  injection H as Hu Hafter. split; [now symmetry |].
  set (sorted := fun kv : string * Serializable number =>
                   (fst kv, sorted_value' (snd kv))) in *.
  assert (Hkeys : map fst after = map fst dict1).
  { rewrite <- Hafter, map_map. reflexivity. }
  assert (Hinc : withInclude' after = Ok after).
  { unfold withInclude. rewrite <- Hafter at 1.
    unfold sorted. rewrite Dictionary_get_map.
    destruct (Dictionary_get "include" dict1) as [v |] eqn:Hget; [| reflexivity].
    cbn [fmap option_fmap option_map].
    assert (Hv : handleInclude' (sorted_value' v) = Ok (sorted_value' v)).
    { revert Hdict1 Hget. unfold withInclude.
      destruct (Dictionary_get "include" params) as [v0 |] eqn:Hget0.
      - intros H. apply rbind_Ok_inv in H as (v1 & Hv1 & [= <-]).
        rewrite Dictionary_get_set, String.eqb_refl. intros [= <-].
        revert Hv1. unfold handleInclude.
        intros H. apply rbind_Ok_inv in H as ([] & Ha & [= <-]).
        destruct v0 as [[| | b | n | s] | items]; cbn [sorted_value];
          try (rewrite Ha; reflexivity).
        + now rewrite assert_true.
        + now rewrite assert_true.
      - intros [= <-] Hget. congruence. }
    rewrite Hv. cbn [rbind]. f_equal.
    assert (Hget' : Dictionary_get "include" after = Some (sorted_value' v)).
    { rewrite <- Hafter. unfold sorted. rewrite Dictionary_get_map, Hget.
      reflexivity. }
    clear - Hget'. induction after as [| [k x] d IH]; [discriminate Hget' |].
    cbn [Dictionary_get Dictionary_set] in *.
    destruct (String.eqb k "include"); [now injection Hget' as -> |].
    now rewrite IH. }
  rewrite Hinc. cbn [rbind]. cbv zeta.
  rewrite visit_sortedKeys by now rewrite Hkeys.
  cbn [fst snd]. do 3 f_equal.
  - rewrite <- Hu, Hkeys. rewrite !flat_map_concat_map. f_equal.
    apply map_ext. intros k. rewrite <- Hafter. unfold sorted.
    rewrite Dictionary_get_map. apply appended_sorted.
  - f_equal. rewrite <- Hafter, map_map. apply map_ext. intros kv.
    unfold sorted. cbn [fst snd]. now rewrite sorted_value_twice.
Qed.

End Sorted_params.

(** ** The serializer *)

Lemma all_chars_app P a b : all_chars P (a ++ b) = all_chars P a && all_chars P b.
Proof.
  induction a as [| c a IH]; [reflexivity |].
  rewrite append_cons. unfold all_chars in *. cbn [list_ascii_of_string forallb].
  now rewrite IH, andb_assoc.
Qed.

Lemma urlencode_chars s : all_chars query_char (urlencode s) = true.
Proof.
  induction s as [| c s IH]; [reflexivity |].
  cbn [urlencode]. rewrite all_chars_app, IH, andb_true_r.
  destruct c as [[] [] [] [] [] [] [] []]; vm_compute; reflexivity.
Qed.

Lemma concat_chars P sep l :
  all_chars P sep = true -> Forall (fun s => all_chars P s = true) l ->
  all_chars P (String.concat sep l) = true.
Proof.
  intros Hsep. induction 1 as [| x l Hx Hl IH]; [reflexivity |].
  destruct l as [| y l']; [exact Hx |].
  change (String.concat sep (x :: y :: l'))
    with (x ++ sep ++ String.concat sep (y :: l')).
  now rewrite !all_chars_app, Hx, Hsep, IH.
Qed.

Lemma toString_chars urlParams :
  all_chars query_char (URLSearchParams_toString urlParams) = true.
Proof.
  unfold URLSearchParams_toString. apply concat_chars; [reflexivity |].
  apply List.Forall_forall. intros s Hs. apply in_map_iff in Hs as ([n v] & <- & _).
  cbn [fst snd]. now rewrite !all_chars_app, !urlencode_chars.
Qed.

(** X25: [buildQueryParams] is the serialization of what
    [sortQueryParams] returns, and the string consists only of letters,
    digits, [*-._] and the separators [+], [%], [=] and [&]. *)
Theorem buildQueryParams_is_encoded
    (number : Type) (Number_toString : number -> string) (DEBUG : bool)
    (params after : QueryParamsSource number)
    (options : option QueryParamsSerializationOptions) (query : string) :
  buildQueryParams number Number_toString DEBUG params options
    = Some (Ok (query, after)) ->
  all_chars query_char query = true
  /\ exists urlParams,
       sortQueryParams number Number_toString DEBUG params options
         = Some (Ok (urlParams, after))
       /\ query = URLSearchParams_toString urlParams.
Proof.
  unfold buildQueryParams.
  destruct (sortQueryParams number Number_toString DEBUG params options)
    as [[[u p] | e] |]; cbn; try discriminate.
  intros [= <- <-]. split; [apply toString_chars |]. eauto.
Qed.

Lemma sortQueryParams_ignores_property_order_witness :
  returned (sortQueryParams N example_Number_toString true
              (FromObject example_params) None)
  = returned (sortQueryParams N example_Number_toString true
                (FromObject example_params_reordered) None)
  /\ returned (buildQueryParams N example_Number_toString true
                 (FromObject example_params) None)
     = returned (buildQueryParams N example_Number_toString true
                   (FromObject example_params_reordered) None).
Proof.
  apply (sortQueryParams_ignores_property_order N example_Number_toString true
           example_params example_params_reordered None).
  - apply (bool_decide_unpack _). vm_compute. exact I.
  - unfold example_params, example_params_reordered.
    apply (Permutation_trans (Permutation_cons_append _ _)). simpl.
    apply (Permutation_trans (Permutation_cons_append _ _)). simpl.
    reflexivity.
Defined.

Lemma sortQueryParams_inserts_names_in_order_witness :
  StronglySorted string_le ["ids"; "include"; "name"; "page"].
Proof.
  apply (sortQueryParams_inserts_names_in_order N example_Number_toString true
           (FromObject example_params) None
           [("ids", "10,9"); ("include", "friends,pets"); ("name", "Chris");
            ("page", "")]
           (FromObject
              [("name", Single (PString "Chris"));
               ("include", Many [PString "friends"; PString "pets"]);
               ("ids", Many [PNumber 10%N; PNumber 9%N]);
               ("page", Single (PString ""))])).
  - discriminate.
  - discriminate.
  - vm_compute. reflexivity.
Defined.

Lemma sortQueryParams_twice_witness :
  let after :=
    [("name", Single (PString "Chris"));
     ("include", Many [PString "friends"; PString "pets"]);
     ("ids", Many [PNumber 10%N; PNumber 9%N]);
     ("page", Single (PString ""))] in
  sortQueryParams N example_Number_toString true (FromObject after) None
  = Some (Ok ([("ids", "10,9"); ("include", "friends,pets"); ("name", "Chris");
               ("page", "")], FromObject after)).
Proof.
  intros after.
  refine (proj2 (sortQueryParams_twice N example_Number_toString true
                   example_params after None
                   [("ids", "10,9"); ("include", "friends,pets");
                    ("name", "Chris"); ("page", "")] _ _)).
  - apply (bool_decide_unpack _). vm_compute. exact I.
  - vm_compute. reflexivity.
Defined.

Lemma buildQueryParams_is_encoded_witness :
  all_chars query_char "ids=10%2C9&include=friends%2Cpets&name=Chris&page=" = true.
Proof.
  refine (proj1 (buildQueryParams_is_encoded N example_Number_toString true
                   (FromObject example_params)
                   (FromObject
                      [("name", Single (PString "Chris"));
                       ("include", Many [PString "friends"; PString "pets"]);
                       ("ids", Many [PNumber 10%N; PNumber 9%N]);
                       ("page", Single (PString ""))])
                   None "ids=10%2C9&include=friends%2Cpets&name=Chris&page=" _)).
  vm_compute. reflexivity.
Defined.

Section Pairs.
Variable number : Type.
Variable Number_toString : number -> string.
Variable DEBUG : bool.

Local Abbreviation sortQueryParams' := (sortQueryParams number Number_toString DEBUG).
Local Abbreviation handleInclude' := (handleInclude number DEBUG).
Local Abbreviation ToString' := (ToString number Number_toString).
Local Abbreviation Array_sort' := (Array_sort number Number_toString).
Local Abbreviation appended' := (appended number Number_toString).
Local Abbreviation withInclude' := (withInclude number DEBUG).
Local Abbreviation pairs_of' := (pairs_of number Number_toString).

Lemma Dictionary_set_set key (v v' : Serializable number) d :
  Dictionary_set key v' (Dictionary_set key v d) = Dictionary_set key v' d.
Proof.
  induction d as [| [k x] d IH]; cbn [Dictionary_set].
  - now rewrite String.eqb_refl.
  - destruct (String.eqb_spec k key) as [-> | Hne]; cbn [Dictionary_set].
    + now rewrite String.eqb_refl.
    + destruct (String.eqb_spec k key); [contradiction |]. now rewrite IH.
Qed.

(** X26: An [include] given as a comma separated string is handled
    as the array of its parts: the call returns the same parameters and
    leaves the same object as for the object that holds that array. *)
Theorem include_string_is_its_array
    (params : list (string * Serializable number)) (include : string)
    (options : option QueryParamsSerializationOptions) :
  Dictionary_get "include" params = Some (Single (PString include)) ->
  sortQueryParams' (FromObject params) options
  = sortQueryParams' (FromObject
      (Dictionary_set "include" (Many (map PString (String_split "," include)))
         params)) options.
Proof.
  intros Hget. rewrite !sortQueryParams_object. f_equal.
  assert (Hinc : withInclude' params
                 = withInclude'
                     (Dictionary_set "include"
                        (Many (map PString (String_split "," include))) params)).
  { unfold withInclude. rewrite Hget, Dictionary_get_set, String.eqb_refl.
    unfold handleInclude. rewrite !assert_true. cbn [rbind].
    now rewrite Dictionary_set_set. }
  now rewrite Hinc.
Qed.

(** *** A [URLSearchParams] as the argument *)

Lemma Array_sort_perm items : Array_sort' items ≡ₚ items.
Proof.
  unfold Array_sort. rewrite sort_by_perm.
  induction items as [| v items IH]; [reflexivity |].
  cbn [List.filter]. destruct (isUndefined v); cbn [negb app].
  - rewrite <- Permutation_middle. now constructor.
  - now constructor.
Qed.

Lemma appended_repeat key v :
  appended' "repeat" key (Some v) ≡ₚ pairs_of' (key, v).
Proof.
  unfold appended, pairs_of. cbn [fst snd String.eqb Ascii.eqb Bool.eqb].
  destruct v as [p | items]; [reflexivity |].
  apply Permutation_map, Array_sort_perm.
Qed.

Lemma pairs_of_set_new key v d :
  key ∉ map fst d ->
  flat_map pairs_of' (Dictionary_set key v d)
  = (flat_map pairs_of' d ++ pairs_of' (key, v))%list.
Proof.
  intros H. rewrite Dictionary_set_new by exact H.
  rewrite flat_map_app. cbn [flat_map]. now rewrite app_nil_r.
Qed.

Lemma pairs_of_set key v v' d extra :
  NoDup (map fst d) -> (key, v) ∈ d ->
  pairs_of' (key, v') = (pairs_of' (key, v) ++ extra)%list ->
  flat_map pairs_of' (Dictionary_set key v' d) ≡ₚ (flat_map pairs_of' d ++ extra)%list.
Proof.
  induction d as [| [k x] d IH]; intros Hnd Hin Hv.
  - now apply elem_of_nil in Hin.
  - cbn [map fst] in Hnd. apply NoDup_cons in Hnd as [Hk Hnd].
    cbn [Dictionary_set]. destruct (String.eqb_spec k key) as [-> | Hne].
    + apply elem_of_cons in Hin as [[= <-] | Hin].
      * cbn [flat_map]. rewrite Hv.
        rewrite <- !app_assoc. apply Permutation_app_head, Permutation_app_comm.
      * exfalso. apply Hk. apply list_elem_of_fmap. now exists (key, v).
    + apply elem_of_cons in Hin as [[= -> _] | Hin]; [contradiction |].
      cbn [flat_map]. rewrite IH by assumption. now rewrite app_assoc.
Qed.

Lemma collect_spec d key value :
  NoDup (map fst d) ->
  NoDup (map fst (collect number d key value))
  /\ flat_map pairs_of' (collect number d key value)
     ≡ₚ (flat_map pairs_of' d ++ [(key, value)])%list
  /\ (Dictionary_get "include" d = None -> key <> "include" ->
      Dictionary_get "include" (collect number d key value) = None).
Proof.
  intros Hnd. unfold collect.
  destruct (Dictionary_get key d) as [v |] eqn:Hget.
  - pose proof (Dictionary_get_Some _ _ _ Hget) as Hin.
    assert (Hkey : key ∈ map fst d).
    { apply list_elem_of_fmap. now exists (key, v). }
    destruct v as [p | items].
    + split; [now rewrite Dictionary_set_keys |]. split.
      * apply (pairs_of_set key (Single p)); [assumption .. | reflexivity].
      * intros Hinc Hne. rewrite Dictionary_get_set.
        now destruct (String.eqb_spec key "include").
    + split; [now rewrite Dictionary_set_keys |]. split.
      * apply (pairs_of_set key (Many items)); [assumption .. |].
        unfold pairs_of. cbn [fst snd]. now rewrite map_app.
      * intros Hinc Hne. rewrite Dictionary_get_set.
        now destruct (String.eqb_spec key "include").
  - apply Dictionary_get_None in Hget.
    split; [| split].
    + rewrite Dictionary_set_new by exact Hget. rewrite map_app.
      apply NoDup_app. split; [exact Hnd |]. split; [| apply NoDup_singleton].
      intros x Hx Hx'. apply list_elem_of_singleton in Hx'. now subst x.
    + now rewrite pairs_of_set_new.
    + intros Hinc Hne. rewrite Dictionary_get_set.
      now destruct (String.eqb_spec key "include").
Qed.

Lemma collectAll_spec pairs : forall d,
  NoDup (map fst d) ->
  Dictionary_get "include" d = None ->
  Forall (fun nv => (fst nv ∉ Object_prototype_names) /\ fst nv <> "include") pairs ->
  exists d',
    collectAll number pairs d = Some d'
    /\ NoDup (map fst d')
    /\ Dictionary_get "include" d' = None
    /\ flat_map pairs_of' d' ≡ₚ (flat_map pairs_of' d ++ pairs)%list.
Proof.
  induction pairs as [| [key value] pairs IH]; intros d Hnd Hinc Hpairs.
  - exists d. rewrite app_nil_r. auto.
  - apply Forall_cons in Hpairs as [[Hproto Hne] Hpairs]. cbn [fst] in *.
    cbn [collectAll]. rewrite bool_decide_eq_false_2 by exact Hproto.
    destruct (collect_spec d key value Hnd) as (Hnd' & Hperm & Hinc').
    destruct (IH _ Hnd' (Hinc' Hinc Hne) Hpairs) as (d' & Hd' & Hn & Hi & Hp).
    exists d'. split; [exact Hd' |]. split; [exact Hn |]. split; [exact Hi |].
    rewrite Hp, Hperm, <- app_assoc. reflexivity.
Qed.

Lemma flat_map_perm_pointwise {A B} (f g : A -> list B) l :
  (forall x, x ∈ l -> f x ≡ₚ g x) -> flat_map f l ≡ₚ flat_map g l.
Proof.
  induction l as [| x l IH]; intros H; [reflexivity |].
  cbn [flat_map]. rewrite (H x) by (apply elem_of_cons; now left).
  apply Permutation_app_head, IH.
  intros y Hy. apply H, elem_of_cons. now right.
Qed.

(** X27: In the format [repeat], [sortQueryParams] on a
    [URLSearchParams] whose names are neither [include] nor a name of
    [Object.prototype] returns the same pairs, none lost or duplicated, with
    the names in ascending order, and leaves its argument untouched. *)
Theorem sortQueryParams_keeps_the_pairs (pairs : list (string * string)) :
  Forall (fun nv => (fst nv ∉ Object_prototype_names) /\ fst nv <> "include") pairs ->
  exists urlParams,
    sortQueryParams' (FromURLSearchParams pairs)
      (Some {| arrayFormat := Some "repeat" |})
    = Some (Ok (urlParams, FromURLSearchParams pairs))
    /\ urlParams ≡ₚ pairs
    /\ StronglySorted string_le (map fst urlParams).
Proof.
  intros Hpairs.
  destruct (collectAll_spec pairs [] NoDup_nil_2 eq_refl Hpairs)
    as (d & Hd & Hnd & Hinc & Hperm).
  cbn [flat_map app] in Hperm.
  eexists. split; [| split].
  - unfold sortQueryParams. rewrite Hd. cbn [mbind option_bind].
    rewrite Hinc. cbn [rbind]. reflexivity.
  - cbv zeta. cbn [mbind option_bind default from_option id arrayFormat].
    rewrite visit_sortedKeys by exact Hnd. cbn [fst].
    rewrite <- Hperm.
    rewrite (Permutation_flat_map _ (sort_by_perm String.leb (map fst d))).
    rewrite flat_map_concat_map, map_map, <- flat_map_concat_map.
    apply flat_map_perm_pointwise. intros [k v] Hin. cbn [fst].
    rewrite (Dictionary_get_elem _ _ _ Hnd Hin). apply appended_repeat.
  - cbv zeta. cbn [mbind option_bind default from_option id arrayFormat].
    apply visit_names; try reflexivity.
    + apply Sorted_StronglySorted; [apply string_le_trans |].
      apply (sort_by_Sorted String.leb String.leb_total).
    + constructor.
    + constructor.
Qed.

End Pairs.

Lemma include_string_is_its_array_witness :
  sortQueryParams N example_Number_toString true (FromObject example_params) None
  = sortQueryParams N example_Number_toString true
      (FromObject
         (Dictionary_set "include"
            (Many (map PString (String_split "," "pets,friends"))) example_params))
      None.
Proof.
  apply (include_string_is_its_array N example_Number_toString true example_params
           "pets,friends" None).
  reflexivity.
Defined.

Lemma sortQueryParams_keeps_the_pairs_witness :
  exists urlParams,
    sortQueryParams N example_Number_toString true
      (FromURLSearchParams [("b", "2"); ("a", "x"); ("b", "1")])
      (Some {| arrayFormat := Some "repeat" |})
    = Some (Ok (urlParams, FromURLSearchParams [("b", "2"); ("a", "x"); ("b", "1")]))
    /\ urlParams ≡ₚ [("b", "2"); ("a", "x"); ("b", "1")]
    /\ StronglySorted string_le (map fst urlParams).
Proof.
  apply (sortQueryParams_keeps_the_pairs N example_Number_toString true
           [("b", "2"); ("a", "x"); ("b", "1")]).
  repeat constructor; first [discriminate | apply (bool_decide_unpack _); vm_compute; exact I].
Defined.
